(** * furex: flexbox layout of a view tree

    A shallow embedding of the layout core of furex (package [furex]:
    the view node of view.go, the layout engine of flex.go, and package
    [geo]) together with the properties the specification states about it.

    Numbers are Go [float64] values and are modelled by Rocq's primitive
    binary64 floats, so every arithmetic step below rounds exactly as the
    program does when each operation is rounded on its own (Go may fuse
    [x*y + z] on some targets; amd64 does not); division by zero yields
    an infinity or NaN, never an abort.  Go expressions are parenthesised
    the way Go evaluates them (left to right).

    The file has two views of a hierarchy.  The layout pass and the tick
    read a container and everything it owns, so they are functions on
    trees.  The operations that edit a hierarchy go through pointers and
    the parent back-reference, so they are functions on a heap. *)

From Stdlib Require Import ZArith Lia List Bool Floats Uint63.
From stdpp Require Import gmap list.
From Stdlib Require String Ascii.

#[local] Set Warnings "-register-all".
#[local] Open Scope float_scope.

(* ================================================================= *)
(** ** float64 helpers and package math *)

(** Go's conversion [float64(n)] of an [int]; the program only converts
    slice lengths and small differences of them. *)
Definition float64_of_int (z : Z) : float :=
  match z with
  | Z0 => 0
  | Zpos _ => of_uint63 (Uint63.of_Z z)
  | Zneg p => - of_uint63 (Uint63.of_Z (Zpos p))
  end.

(** [x != y] on float64. *)
Definition neqb (x y : float) : bool := negb (x =? y).

(** [x > y] on float64. *)
Definition gtb (x y : float) : bool := (y <? x).

Module math.

(** [math.Signbit]. *)
Definition Signbit (x : float) : bool := get_sign x.

(** [math.Min], with the special cases its documentation lists:
    Min(x, -Inf) = -Inf, Min(x, NaN) = NaN, Min(-0, ±0) = -0. *)
Definition Min (x y : float) : float :=
  if (x =? neg_infinity) || (y =? neg_infinity) then neg_infinity
  else if is_nan x || is_nan y then nan
  else if (x =? 0) && (x =? y) then (if Signbit x then x else y)
  else if x <? y then x else y.

(** [math.Max]: Max(x, +Inf) = +Inf, Max(x, NaN) = NaN, Max(+0, ±0) = +0. *)
Definition Max (x y : float) : float :=
  if (x =? infinity) || (y =? infinity) then infinity
  else if is_nan x || is_nan y then nan
  else if (x =? 0) && (x =? y) then (if Signbit x then y else x)
  else if gtb x y then x else y.

(** [math.Abs]. *)
Definition Abs (x : float) : float := abs x.

(** [math.Inf(1)]. *)
Definition Inf1 : float := infinity.

End math.

(* ================================================================= *)
(** ** Package geo *)

Module geo.

Record Point := Pt { X : float; Y : float }.

Record Rectangle := mkRectangle { Min : Point; Max : Point }.

(** [geo.Rect]: swaps each coordinate pair whose first exceeds the second. *)
Definition Rect (x0 y0 x1 y1 : float) : Rectangle :=
  let '(x0, x1) := if gtb x0 x1 then (x1, x0) else (x0, x1) in
  let '(y0, y1) := if gtb y0 y1 then (y1, y0) else (y0, y1) in
  mkRectangle (Pt x0 y0) (Pt x1 y1).

Definition Dx (r : Rectangle) : float := X (Max r) - X (Min r).

Definition Dy (r : Rectangle) : float := Y (Max r) - Y (Min r).

Definition Size (r : Rectangle) : Point :=
  Pt (X (Max r) - X (Min r)) (Y (Max r) - Y (Min r)).

Definition Add (r : Rectangle) (p : Point) : Rectangle :=
  mkRectangle (Pt (X (Min r) + X p) (Y (Min r) + Y p))
              (Pt (X (Max r) + X p) (Y (Max r) + Y p)).

Definition Sub (r : Rectangle) (p : Point) : Rectangle :=
  mkRectangle (Pt (X (Min r) - X p) (Y (Min r) - Y p))
              (Pt (X (Max r) - X p) (Y (Max r) - Y p)).

(** The zero value of [Rectangle]. *)
Definition ZR : Rectangle := mkRectangle (Pt 0 0) (Pt 0 0).

End geo.

(* ================================================================= *)
(** ** The style enumerations of flex.go *)

Module flex.

Inductive Direction := Row | Column.

Inductive Justify :=
| JustifyStart | JustifyEnd | JustifyCenter
| JustifySpaceBetween | JustifySpaceAround.

Inductive AlignItem :=
| AlignItemStretch | AlignItemStart | AlignItemEnd | AlignItemCenter.

Inductive FlexWrap := NoWrap | Wrap | WrapReverse.

Inductive AlignContent :=
| AlignContentStart | AlignContentEnd | AlignContentCenter
| AlignContentSpaceBetween | AlignContentSpaceAround | AlignContentStretch.

Inductive Position := PositionStatic | PositionAbsolute.

Inductive Display := DisplayFlex | DisplayNone.

End flex.
Export flex.

(** The exported style fields of [View], in declaration order, and
    [Hidden].  A field
    may carry the name of its type, as in Go; the types are then written
    [flex.Position], [flex.Direction] and so on.  [Right] and [Bottom] are
    [*float64]: [None] is the nil pointer. *)
Record Style := mkStyle {
  Left : float;
  Right : option float;
  Top : float;
  Bottom : option float;
  Width : float;
  WidthInPct : float;
  Height : float;
  HeightInPct : float;
  MarginLeft : float;
  MarginTop : float;
  MarginRight : float;
  MarginBottom : float;
  Position : flex.Position;
  Direction : flex.Direction;
  Wrap : flex.FlexWrap;
  Justify : flex.Justify;
  AlignItems : flex.AlignItem;
  AlignContent : flex.AlignContent;
  Grow : float;
  Shrink : float;
  Display : flex.Display;
  Hidden : bool
}.

(** The zero value of the style fields, [&View{}]. *)
Definition zeroStyle : Style :=
  mkStyle 0 None 0 None 0 0 0 0 0 0 0 0
          PositionStatic Row NoWrap JustifyStart AlignItemStretch
          AlignContentStart 0 0 DisplayFlex false.

(* ================================================================= *)
(** ** Assignments to the style fields *)

Definition with_Left (x : float) (s : Style) : Style :=
  mkStyle x (Right s) (Top s) (Bottom s) (Width s) (WidthInPct s) (Height s)
         (HeightInPct s) (MarginLeft s) (MarginTop s) (MarginRight s)
         (MarginBottom s) (Position s) (Direction s) (Wrap s) (Justify s)
         (AlignItems s) (AlignContent s) (Grow s) (Shrink s) (Display s)
         (Hidden s).

Definition with_Right (x : option float) (s : Style) : Style :=
  mkStyle (Left s) x (Top s) (Bottom s) (Width s) (WidthInPct s) (Height s)
         (HeightInPct s) (MarginLeft s) (MarginTop s) (MarginRight s)
         (MarginBottom s) (Position s) (Direction s) (Wrap s) (Justify s)
         (AlignItems s) (AlignContent s) (Grow s) (Shrink s) (Display s)
         (Hidden s).

Definition with_Top (x : float) (s : Style) : Style :=
  mkStyle (Left s) (Right s) x (Bottom s) (Width s) (WidthInPct s)
         (Height s) (HeightInPct s) (MarginLeft s) (MarginTop s)
         (MarginRight s) (MarginBottom s) (Position s) (Direction s)
         (Wrap s) (Justify s) (AlignItems s) (AlignContent s) (Grow s)
         (Shrink s) (Display s) (Hidden s).

Definition with_Bottom (x : option float) (s : Style) : Style :=
  mkStyle (Left s) (Right s) (Top s) x (Width s) (WidthInPct s) (Height s)
         (HeightInPct s) (MarginLeft s) (MarginTop s) (MarginRight s)
         (MarginBottom s) (Position s) (Direction s) (Wrap s) (Justify s)
         (AlignItems s) (AlignContent s) (Grow s) (Shrink s) (Display s)
         (Hidden s).

Definition with_Width (x : float) (s : Style) : Style :=
  mkStyle (Left s) (Right s) (Top s) (Bottom s) x (WidthInPct s) (Height s)
         (HeightInPct s) (MarginLeft s) (MarginTop s) (MarginRight s)
         (MarginBottom s) (Position s) (Direction s) (Wrap s) (Justify s)
         (AlignItems s) (AlignContent s) (Grow s) (Shrink s) (Display s)
         (Hidden s).

Definition with_WidthInPct (x : float) (s : Style) : Style :=
  mkStyle (Left s) (Right s) (Top s) (Bottom s) (Width s) x (Height s)
         (HeightInPct s) (MarginLeft s) (MarginTop s) (MarginRight s)
         (MarginBottom s) (Position s) (Direction s) (Wrap s) (Justify s)
         (AlignItems s) (AlignContent s) (Grow s) (Shrink s) (Display s)
         (Hidden s).

Definition with_HeightInPct (x : float) (s : Style) : Style :=
  mkStyle (Left s) (Right s) (Top s) (Bottom s) (Width s) (WidthInPct s)
         (Height s) x (MarginLeft s) (MarginTop s) (MarginRight s)
         (MarginBottom s) (Position s) (Direction s) (Wrap s) (Justify s)
         (AlignItems s) (AlignContent s) (Grow s) (Shrink s) (Display s)
         (Hidden s).

Definition with_Height (x : float) (s : Style) : Style :=
  mkStyle (Left s) (Right s) (Top s) (Bottom s) (Width s) (WidthInPct s) x
         (HeightInPct s) (MarginLeft s) (MarginTop s) (MarginRight s)
         (MarginBottom s) (Position s) (Direction s) (Wrap s) (Justify s)
         (AlignItems s) (AlignContent s) (Grow s) (Shrink s) (Display s)
         (Hidden s).

Definition with_MarginLeft (x : float) (s : Style) : Style :=
  mkStyle (Left s) (Right s) (Top s) (Bottom s) (Width s) (WidthInPct s)
         (Height s) (HeightInPct s) x (MarginTop s) (MarginRight s)
         (MarginBottom s) (Position s) (Direction s) (Wrap s) (Justify s)
         (AlignItems s) (AlignContent s) (Grow s) (Shrink s) (Display s)
         (Hidden s).

Definition with_MarginTop (x : float) (s : Style) : Style :=
  mkStyle (Left s) (Right s) (Top s) (Bottom s) (Width s) (WidthInPct s)
         (Height s) (HeightInPct s) (MarginLeft s) x (MarginRight s)
         (MarginBottom s) (Position s) (Direction s) (Wrap s) (Justify s)
         (AlignItems s) (AlignContent s) (Grow s) (Shrink s) (Display s)
         (Hidden s).

Definition with_MarginRight (x : float) (s : Style) : Style :=
  mkStyle (Left s) (Right s) (Top s) (Bottom s) (Width s) (WidthInPct s)
         (Height s) (HeightInPct s) (MarginLeft s) (MarginTop s) x
         (MarginBottom s) (Position s) (Direction s) (Wrap s) (Justify s)
         (AlignItems s) (AlignContent s) (Grow s) (Shrink s) (Display s)
         (Hidden s).

Definition with_MarginBottom (x : float) (s : Style) : Style :=
  mkStyle (Left s) (Right s) (Top s) (Bottom s) (Width s) (WidthInPct s)
         (Height s) (HeightInPct s) (MarginLeft s) (MarginTop s)
         (MarginRight s) x (Position s) (Direction s) (Wrap s) (Justify s)
         (AlignItems s) (AlignContent s) (Grow s) (Shrink s) (Display s)
         (Hidden s).

Definition with_Position (x : flex.Position) (s : Style) : Style :=
  mkStyle (Left s) (Right s) (Top s) (Bottom s) (Width s) (WidthInPct s)
         (Height s) (HeightInPct s) (MarginLeft s) (MarginTop s)
         (MarginRight s) (MarginBottom s) x (Direction s) (Wrap s)
         (Justify s) (AlignItems s) (AlignContent s) (Grow s) (Shrink s)
         (Display s) (Hidden s).

Definition with_Direction (x : flex.Direction) (s : Style) : Style :=
  mkStyle (Left s) (Right s) (Top s) (Bottom s) (Width s) (WidthInPct s)
         (Height s) (HeightInPct s) (MarginLeft s) (MarginTop s)
         (MarginRight s) (MarginBottom s) (Position s) x (Wrap s)
         (Justify s) (AlignItems s) (AlignContent s) (Grow s) (Shrink s)
         (Display s) (Hidden s).

Definition with_Wrap (x : flex.FlexWrap) (s : Style) : Style :=
  mkStyle (Left s) (Right s) (Top s) (Bottom s) (Width s) (WidthInPct s)
         (Height s) (HeightInPct s) (MarginLeft s) (MarginTop s)
         (MarginRight s) (MarginBottom s) (Position s) (Direction s) x
         (Justify s) (AlignItems s) (AlignContent s) (Grow s) (Shrink s)
         (Display s) (Hidden s).

Definition with_Justify (x : flex.Justify) (s : Style) : Style :=
  mkStyle (Left s) (Right s) (Top s) (Bottom s) (Width s) (WidthInPct s)
         (Height s) (HeightInPct s) (MarginLeft s) (MarginTop s)
         (MarginRight s) (MarginBottom s) (Position s) (Direction s)
         (Wrap s) x (AlignItems s) (AlignContent s) (Grow s) (Shrink s)
         (Display s) (Hidden s).

Definition with_AlignItems (x : flex.AlignItem) (s : Style) : Style :=
  mkStyle (Left s) (Right s) (Top s) (Bottom s) (Width s) (WidthInPct s)
         (Height s) (HeightInPct s) (MarginLeft s) (MarginTop s)
         (MarginRight s) (MarginBottom s) (Position s) (Direction s)
         (Wrap s) (Justify s) x (AlignContent s) (Grow s) (Shrink s)
         (Display s) (Hidden s).

Definition with_AlignContent (x : flex.AlignContent) (s : Style) : Style :=
  mkStyle (Left s) (Right s) (Top s) (Bottom s) (Width s) (WidthInPct s)
         (Height s) (HeightInPct s) (MarginLeft s) (MarginTop s)
         (MarginRight s) (MarginBottom s) (Position s) (Direction s)
         (Wrap s) (Justify s) (AlignItems s) x (Grow s) (Shrink s)
         (Display s) (Hidden s).

Definition with_Grow (x : float) (s : Style) : Style :=
  mkStyle (Left s) (Right s) (Top s) (Bottom s) (Width s) (WidthInPct s)
         (Height s) (HeightInPct s) (MarginLeft s) (MarginTop s)
         (MarginRight s) (MarginBottom s) (Position s) (Direction s)
         (Wrap s) (Justify s) (AlignItems s) (AlignContent s) x (Shrink s)
         (Display s) (Hidden s).

Definition with_Shrink (x : float) (s : Style) : Style :=
  mkStyle (Left s) (Right s) (Top s) (Bottom s) (Width s) (WidthInPct s)
         (Height s) (HeightInPct s) (MarginLeft s) (MarginTop s)
         (MarginRight s) (MarginBottom s) (Position s) (Direction s)
         (Wrap s) (Justify s) (AlignItems s) (AlignContent s) (Grow s) x
         (Display s) (Hidden s).

Definition with_Display (x : flex.Display) (s : Style) : Style :=
  mkStyle (Left s) (Right s) (Top s) (Bottom s) (Width s) (WidthInPct s)
         (Height s) (HeightInPct s) (MarginLeft s) (MarginTop s)
         (MarginRight s) (MarginBottom s) (Position s) (Direction s)
         (Wrap s) (Justify s) (AlignItems s) (AlignContent s) (Grow s)
         (Shrink s) x (Hidden s).

Definition with_Hidden (x : bool) (s : Style) : Style :=
  mkStyle (Left s) (Right s) (Top s) (Bottom s) (Width s) (WidthInPct s)
         (Height s) (HeightInPct s) (MarginLeft s) (MarginTop s)
         (MarginRight s) (MarginBottom s) (Position s) (Direction s)
         (Wrap s) (Justify s) (AlignItems s) (AlignContent s) (Grow s)
         (Shrink s) (Display s) x.

(* ================================================================= *)
(** ** The view tree *)

(** Modelled from the spec: the [child] record of container.go, which is
    not among the sources.  flex.go uses three of its members: the view
    it wraps, the container-relative [bounds] and the [absolute] mark.
    Its input-tracking members play no part in layout. *)
Record child (V : Type) := mkChild {
  item : V;
  bounds : geo.Rectangle;
  absolute : bool
}.
Arguments mkChild {V}.
Arguments item {V}.
Arguments bounds {V}.
Arguments absolute {V}.

(** [View] with the members of its embedded [containerEmbed] that view.go
    and flex.go read and write ([children], [isDirty], [frame],
    [calculatedWidth], [calculatedHeight]).  A container owns its children,
    so a hierarchy in which every view has one parent is a tree; the
    pointer-level operations that can break this are modelled in
    [Module Heap] below.  Identification strings and the handler are not
    consulted by layout and are left out. *)
Inductive View := mkView {
  style :> Style;
  children : list (child View);
  isDirty : bool;
  frame : geo.Rectangle;
  calculatedWidth : float;
  calculatedHeight : float;
  hasParent : bool
}.

(** A freshly allocated [&View{...}] with the given style fields. *)
Definition newView (s : Style) : View :=
  mkView s [] false geo.ZR 0 0 false.

Definition set_children (cs : list (child View)) (v : View) : View :=
  mkView (style v) cs (isDirty v) (frame v) (calculatedWidth v)
         (calculatedHeight v) (hasParent v).

Definition set_isDirty (b : bool) (v : View) : View :=
  mkView (style v) (children v) b (frame v) (calculatedWidth v)
         (calculatedHeight v) (hasParent v).

Definition set_frame (r : geo.Rectangle) (v : View) : View :=
  mkView (style v) (children v) (isDirty v) r (calculatedWidth v)
         (calculatedHeight v) (hasParent v).

Definition set_calculatedWidth (x : float) (v : View) : View :=
  mkView (style v) (children v) (isDirty v) (frame v) x
         (calculatedHeight v) (hasParent v).

Definition set_calculatedHeight (x : float) (v : View) : View :=
  mkView (style v) (children v) (isDirty v) (frame v) (calculatedWidth v)
         x (hasParent v).

Definition set_hasParent (b : bool) (v : View) : View :=
  mkView (style v) (children v) (isDirty v) (frame v) (calculatedWidth v)
         (calculatedHeight v) b.

Definition map_item {V} (g : V -> V) (c : child V) : child V :=
  mkChild (g (item c)) (bounds c) (absolute c).

(** Modelled from the spec: [containerEmbed.setFrame] of container.go,
    which is not among the sources.  It stores the committed frame
    (layout step 12) and marks the receiver dirty, so that a child that is
    itself a container is laid out again inside its new frame when the
    tick reaches it; the nesting tests of flex_test.go rely on this. *)
Definition setFrame (r : geo.Rectangle) (v : View) : View :=
  set_isDirty true (set_frame r v).

Definition isWidthFixed (v : View) : bool :=
  neqb (Width v) 0 || neqb (WidthInPct v) 0.

Definition width (v : View) : float :=
  if Width v =? 0 then calculatedWidth v else Width v.

Definition isHeightFixed (v : View) : bool :=
  neqb (Height v) 0 || neqb (HeightInPct v) 0.

Definition height (v : View) : float :=
  if Height v =? 0 then calculatedHeight v else Height v.

(** [View.addChild] with a child that no other container holds: the
    child, marked as having a parent, joins the end of the child list and
    the receiver becomes dirty. *)
Definition addChild (v cv : View) : View :=
  set_isDirty true
    (set_children (children v ++ [mkChild (set_hasParent true cv) geo.ZR false]) v).

(** [View.AddChild(views...)]. *)
Definition AddChild (v : View) (views : list View) : View :=
  fold_left addChild views v.

(* ================================================================= *)
(** ** The working records of the layout pass *)

Module element.

(** [mainMargin] and [crossMargin] are two-element slices. *)
Record t := mk {
  node : child View;
  flexBaseSize : float;
  mainSize : float;
  mainOffset : float;
  mainMargin : float * float;
  crossSize : float;
  crossOffset : float;
  crossMargin : float * float;
  frozen : bool;
  maxContentFlexFraction : float;
  widthInPct : float;
  heightInPct : float
}.

Definition set_node n (e : t) : t :=
  mk n (flexBaseSize e) (mainSize e) (mainOffset e) (mainMargin e)
     (crossSize e) (crossOffset e) (crossMargin e) (frozen e)
     (maxContentFlexFraction e) (widthInPct e) (heightInPct e).

Definition set_mainSize x (e : t) : t :=
  mk (node e) (flexBaseSize e) x (mainOffset e) (mainMargin e)
     (crossSize e) (crossOffset e) (crossMargin e) (frozen e)
     (maxContentFlexFraction e) (widthInPct e) (heightInPct e).

Definition set_mainOffset x (e : t) : t :=
  mk (node e) (flexBaseSize e) (mainSize e) x (mainMargin e)
     (crossSize e) (crossOffset e) (crossMargin e) (frozen e)
     (maxContentFlexFraction e) (widthInPct e) (heightInPct e).

Definition set_mainMargin m (e : t) : t :=
  mk (node e) (flexBaseSize e) (mainSize e) (mainOffset e) m
     (crossSize e) (crossOffset e) (crossMargin e) (frozen e)
     (maxContentFlexFraction e) (widthInPct e) (heightInPct e).

Definition set_crossSize x (e : t) : t :=
  mk (node e) (flexBaseSize e) (mainSize e) (mainOffset e) (mainMargin e)
     x (crossOffset e) (crossMargin e) (frozen e)
     (maxContentFlexFraction e) (widthInPct e) (heightInPct e).

Definition set_crossOffset x (e : t) : t :=
  mk (node e) (flexBaseSize e) (mainSize e) (mainOffset e) (mainMargin e)
     (crossSize e) x (crossMargin e) (frozen e)
     (maxContentFlexFraction e) (widthInPct e) (heightInPct e).

Definition set_crossMargin m (e : t) : t :=
  mk (node e) (flexBaseSize e) (mainSize e) (mainOffset e) (mainMargin e)
     (crossSize e) (crossOffset e) m (frozen e)
     (maxContentFlexFraction e) (widthInPct e) (heightInPct e).

Definition set_frozen b (e : t) : t :=
  mk (node e) (flexBaseSize e) (mainSize e) (mainOffset e) (mainMargin e)
     (crossSize e) (crossOffset e) (crossMargin e) b
     (maxContentFlexFraction e) (widthInPct e) (heightInPct e).

Definition set_maxContentFlexFraction x (e : t) : t :=
  mk (node e) (flexBaseSize e) (mainSize e) (mainOffset e) (mainMargin e)
     (crossSize e) (crossOffset e) (crossMargin e) (frozen e)
     x (widthInPct e) (heightInPct e).

(** The view behind the element, [child.node.item]. *)
Definition view (e : t) : View := item (node e).

(** An assignment through [c.node.item]. *)
Definition map_view (g : View -> View) (e : t) : t :=
  set_node (map_item g (node e)) e.

End element.

Module flexLine.

(** In Go [child] holds pointers into the [children] slice; every
    element belongs to one line, so here the line owns its elements. *)
Record t := mk {
  mainSize : float;
  crossSize : float;
  crossOffset : float;
  child : list element.t
}.

(** The zero value [flexLine{}]. *)
Definition zero : t := mk 0 0 0 [].

Definition set_mainSize x (l : t) : t :=
  mk x (crossSize l) (crossOffset l) (child l).

Definition set_crossSize x (l : t) : t :=
  mk (mainSize l) x (crossOffset l) (child l).

Definition set_crossOffset x (l : t) : t :=
  mk (mainSize l) (crossSize l) x (child l).

Definition set_child cs (l : t) : t :=
  mk (mainSize l) (crossSize l) (crossOffset l) cs.

Definition map_child (g : element.t -> element.t) (l : t) : t :=
  set_child (map g (child l)) l.

End flexLine.

(* ================================================================= *)
(** ** flex.go: the axis helpers of [flexEmbed]

    [f] is the view being laid out ([flexEmbed] wraps a pointer to it).
    [Direction] has two values here, so the [default: panic] branches of
    the Go switches have no counterpart. *)

Definition mainSize (f : View) (x y : float) : float :=
  match Direction f with Row => x | Column => y end.

Definition crossSize (f : View) (x y : float) : float :=
  match Direction f with Row => y | Column => x end.

Definition setCrossSize (v : float) (f : View) : View :=
  match Direction f with
  | Row => set_calculatedHeight v f
  | Column => set_calculatedWidth v f
  end.

Definition setMainSize (v : float) (f : View) : View :=
  match Direction f with
  | Row => set_calculatedWidth v f
  | Column => set_calculatedHeight v f
  end.

Definition isCrossSizeFixed (f v : View) : bool :=
  match Direction f with
  | Row => isHeightFixed v
  | Column => isWidthFixed v
  end.

Definition mainMargin (f : View) (c : child View) : float * float :=
  match Direction f with
  | Row => (MarginLeft (item c), MarginRight (item c))
  | Column => (MarginTop (item c), MarginBottom (item c))
  end.

Definition crossMargin (f : View) (c : child View) : float * float :=
  match Direction f with
  | Row => (MarginTop (item c), MarginBottom (item c))
  | Column => (MarginLeft (item c), MarginRight (item c))
  end.

Definition flexBaseSize (f : View) (c : child View) : float :=
  let w := Width (item c) in
  let w := if w =? 0 then calculatedWidth (item c) else w in
  let h := Height (item c) in
  let h := if h =? 0 then calculatedHeight (item c) else h in
  mainSize f w h.

(** [m[0] + m[1]] of a margin pair. *)
Definition sum2 (m : float * float) : float := fst m + snd m.

(** [f.mainSize(child.node.item.width(), child.node.item.height())]. *)
Definition itemMainSize (f : View) (e : element.t) : float :=
  mainSize f (width (element.view e)) (height (element.view e)).

(* ================================================================= *)
(** ** flex.go: [layout], the scan of the container's children *)

(** The frame of an absolutely positioned child (flex.go:217-230). *)
Definition absoluteFrame (container : View) (c : View) : geo.Rectangle :=
  let x := geo.X (geo.Min (frame container)) in
  let x :=
    if neqb (Left c) 0 then geo.X (geo.Min (frame container)) + Left c
    else match Right c with
         | Some r => geo.X (geo.Max (frame container)) - r - Width c
         | None => x
         end in
  let y := geo.Y (geo.Min (frame container)) in
  let y :=
    if neqb (Top c) 0 then geo.Y (geo.Min (frame container)) + Top c
    else match Bottom c with
         | Some b => geo.Y (geo.Max (frame container)) - b - Height c
         | None => y
         end in
  geo.Rect x y (x + Width c) (y + Height c).

(** The absolute branch: [c.bounds], [c.item.frame] (assigned directly,
    not through [setFrame]) and [c.absolute]. *)
Definition placeAbsolute (container : View) (c : child View) : child View :=
  let b := absoluteFrame container (item c) in
  mkChild (set_frame b (item c)) b true.

Definition newElement (f : View) (c : child View) : element.t :=
  element.mk c (flexBaseSize f c) 0 0 (0, 0) 0 0 (0, 0) false 0
             (WidthInPct (item c)) (HeightInPct (item c)).

(** What the first loop does to one entry of [container.children]: the
    entry as it leaves the loop, and the element appended for it, if any. *)
Definition scanChild (f : View) (c : child View)
  : child View * option element.t :=
  match Display (item c) with
  | DisplayNone => (c, None)
  | DisplayFlex =>
      match Position (item c) with
      | PositionAbsolute => (placeAbsolute f c, None)
      | PositionStatic =>
          let c' := mkChild (item c) (bounds c) false in
          (c', Some (newElement f c'))
      end
  end.

(** Whether the first loop made an element for the entry. *)
Definition inFlow (c : child View) : bool :=
  match Display (item c), Position (item c) with
  | DisplayFlex, PositionStatic => true
  | _, _ => false
  end.

(** The elements hold pointers to the entries of [container.children];
    here they carry the entries, and [writeBack] puts them back in their
    places once the pass is over: the in-flow entries are replaced, in
    order, by the nodes of the elements. *)
Fixpoint writeBack (cs nodes : list (child View)) : list (child View) :=
  match cs with
  | [] => []
  | c :: cs' =>
      if inFlow c then
        match nodes with
        | n :: nodes' => n :: writeBack cs' nodes'
        | [] => c :: writeBack cs' []
        end
      else c :: writeBack cs' nodes
  end.

(* ================================================================= *)
(** ** Percentage resolution (flex.go:245-294)

    The loops range over [children] by value, so [c] is a copy of the
    element: the writes through [c.node.item] reach the view, while the
    write to [c.flexBaseSize] changes the copy only and is lost. *)

Definition rowRemFree (width : float) (children : list element.t) : float :=
  fold_left
    (fun remFree c =>
       remFree - (Width (element.view c) + MarginLeft (element.view c)
                  + MarginRight (element.view c)))
    children width.

Definition colRemFree (height : float) (children : list element.t) : float :=
  fold_left
    (fun remFree c =>
       remFree - (Height (element.view c) + MarginTop (element.view c)
                  + MarginBottom (element.view c)))
    children height.

Definition resolveMainWidth (width remFree : float) (c : element.t) : element.t :=
  if gtb (element.widthInPct c) 0 then
    let v := width * element.widthInPct c / 100 in
    element.map_view (set_calculatedWidth (math.Min v remFree)) c
  else c.

Definition resolveMainHeight (height remFree : float) (c : element.t) : element.t :=
  if gtb (element.heightInPct c) 0 then
    let v := height * element.heightInPct c / 100 in
    element.map_view (set_calculatedHeight (math.Min v remFree)) c
  else c.

Definition resolveCrossHeight (height : float) (c : element.t) : element.t :=
  if gtb (element.heightInPct c) 0 then
    element.map_view
      (set_calculatedHeight (height * HeightInPct (element.view c) / 100)) c
  else c.

Definition resolveCrossWidth (width : float) (c : element.t) : element.t :=
  if gtb (element.widthInPct c) 0 then
    element.map_view
      (set_calculatedWidth (width * WidthInPct (element.view c) / 100)) c
  else c.

Definition resolvePercent (f : View) (width height : float)
    (children : list element.t) : list element.t :=
  match Direction f with
  | Row =>
      let remFree := rowRemFree width children in
      let children :=
        if gtb remFree 0 then map (resolveMainWidth width remFree) children
        else children in
      map (resolveCrossHeight height) children
  | Column =>
      let remFree := colRemFree height children in
      let children :=
        if gtb remFree 0 then map (resolveMainHeight height remFree) children
        else children in
      map (resolveCrossWidth width) children
  end.

(* ================================================================= *)
(** ** Line collection (flex.go:296-332) *)

(** [child.mainMargin = f.mainMargin(child.node)]. *)
Definition withMainMargin (f : View) (e : element.t) : element.t :=
  element.set_mainMargin (mainMargin f (element.node e)) e.

(** [child.flexBaseSize + (child.mainMargin[0] + child.mainMargin[1])]. *)
Definition hypotheticalMainSize (e : element.t) : float :=
  element.flexBaseSize e + sum2 (element.mainMargin e).

Definition singleLine (f : View) (children : list element.t) : flexLine.t :=
  let cs := map (withMainMargin f) children in
  flexLine.mk
    (fold_left (fun s c => s + hypotheticalMainSize c) cs 0) 0 0 cs.

(** The wrap test of the multi-line loop. *)
Definition startsNewLine (containerMainSize : float) (line : flexLine.t)
    (child : element.t) : bool :=
  gtb (flexLine.mainSize line) 0
  && gtb (flexLine.mainSize line + hypotheticalMainSize child) containerMainSize.

(** One iteration of the multi-line loop on [(lines, line)]. *)
Definition wrapStep (f : View) (containerMainSize : float)
    (st : list flexLine.t * flexLine.t) (c : element.t)
  : list flexLine.t * flexLine.t :=
  let '(lines, line) := st in
  let child := withMainMargin f c in
  let '(lines, line) :=
    if startsNewLine containerMainSize line child
    then (lines ++ [line], flexLine.zero)
    else (lines, line) in
  (lines,
   flexLine.mk (flexLine.mainSize line + hypotheticalMainSize child)
               (flexLine.crossSize line) (flexLine.crossOffset line)
               (flexLine.child line ++ [child])).

Definition multiLine (f : View) (containerMainSize : float)
    (children : list element.t) : list flexLine.t :=
  let '(lines, line) :=
    fold_left (wrapStep f containerMainSize) children ([], flexLine.zero) in
  if (0 <? length (flexLine.child line))%nat || (length children =? 0)%nat
  then lines ++ [line]
  else lines.

Definition collectLines (f : View) (containerMainSize : float)
    (children : list element.t) : list flexLine.t :=
  match Wrap f with
  | NoWrap => [singleLine f children]
  | _ => multiLine f containerMainSize children
  end.

(* ================================================================= *)
(** ** Flexible lengths (flex.go:334-441) *)

(** §9.7.2: a child whose factor for the line's mode is zero is frozen at
    its resolved main size. *)
Definition freeze (f : View) (grow : bool) (child : element.t) : element.t :=
  let mainSize := itemMainSize f child in
  let factor := if grow then Grow (element.view child)
                else Shrink (element.view child) in
  if factor =? 0
  then element.set_mainSize mainSize (element.set_frozen true child)
  else child.

(** §9.7.3. *)
Definition initialFreeSpace (f : View) (width height : float)
    (children : list element.t) : float :=
  fold_left
    (fun freeSpace child =>
       freeSpace - (flexBaseSize f (element.node child)
                    + sum2 (element.mainMargin child)))
    children (mainSize f width height).

(** The first loop of an iteration of §9.7.4: the remaining free space
    and the sum of the unfrozen flex factors. *)
Definition remainingFreeSpace (f : View) (grow : bool) (width height : float)
    (children : list element.t) : float * float :=
  fold_left
    (fun '(remFreeSpace, unfrozenFlexFactor) child =>
       let mainMargin := sum2 (element.mainMargin child) in
       if element.frozen child
       then (remFreeSpace - (element.mainSize child + mainMargin),
             unfrozenFlexFactor)
       else (remFreeSpace - (itemMainSize f child + mainMargin),
             unfrozenFlexFactor
             + (if grow then Grow (element.view child)
                else Shrink (element.view child))))
    children (mainSize f width height, 0).

(** The scaling applied when the factors sum to less than one. *)
Definition scaleFreeSpace (freeSpace remFreeSpace unfrozenFlexFactor : float)
  : float :=
  if unfrozenFlexFactor <? 1 then
    let p := freeSpace * unfrozenFlexFactor in
    if math.Abs p <? math.Abs remFreeSpace then p else remFreeSpace
  else remFreeSpace.

Definition growChild (f : View) (remFreeSpace unfrozenFlexFactor : float)
    (child : element.t) : element.t :=
  if element.frozen child then child
  else
    let r := Grow (element.view child) / unfrozenFlexFactor in
    element.set_mainSize (itemMainSize f child + r * remFreeSpace) child.

Definition sumScaledShrinkFactor (f : View) (children : list element.t) : float :=
  fold_left
    (fun s child =>
       if element.frozen child then s
       else s + itemMainSize f child * Shrink (element.view child))
    children 0.

Definition shrinkChild (f : View) (remFreeSpace sumScaled : float)
    (child : element.t) : element.t :=
  if element.frozen child then child
  else
    let scaledShrinkFactor := itemMainSize f child * Shrink (element.view child) in
    let r := scaledShrinkFactor / sumScaled in
    element.set_mainSize (itemMainSize f child - r * math.Abs remFreeSpace) child.

(** One pass of the body of the [for] loop of §9.7.4.  The pass ends by
    freezing every child. *)
Definition distribute (f : View) (grow : bool) (width height freeSpace : float)
    (children : list element.t) : list element.t :=
  let '(remFreeSpace, unfrozenFlexFactor) :=
    remainingFreeSpace f grow width height children in
  let remFreeSpace := scaleFreeSpace freeSpace remFreeSpace unfrozenFlexFactor in
  let children :=
    if grow then map (growChild f remFreeSpace unfrozenFlexFactor) children
    else map (shrinkChild f remFreeSpace (sumScaledShrinkFactor f children))
             children in
  map (element.set_frozen true) children.

(** The [for] loop of §9.7.4 leaves at its head when every child is
    frozen, and a pass freezes every child: it runs the body at most
    once. *)
Definition flexLoop (f : View) (grow : bool) (width height freeSpace : float)
    (children : list element.t) : list element.t :=
  if forallb element.frozen children then children
  else distribute f grow width height freeSpace children.

Definition resolveFlexibleLengths (f : View) (width height : float)
    (line : flexLine.t) : flexLine.t :=
  let grow := flexLine.mainSize line <? mainSize f width height in
  let children := map (freeze f grow) (flexLine.child line) in
  let freeSpace := initialFreeSpace f width height children in
  flexLine.set_child (flexLoop f grow width height freeSpace children) line.

(* ================================================================= *)
(** ** Cross sizes (flex.go:443-500) *)

Definition hypotheticalCross (f : View) (c : element.t) : element.t :=
  element.set_crossSize
    (crossSize f (width (element.view c)) (height (element.view c)))
    (element.set_crossMargin (crossMargin f (element.node c)) c).

(** The [max] loop of the multi-line branch of §9.4.8. *)
Definition lineCrossMax (children : list element.t) : float :=
  fold_left
    (fun max child =>
       if gtb (element.crossSize child) max
       then element.crossSize child + sum2 (element.crossMargin child)
       else max)
    children 0.

Definition lineCrossSizes (containerCrossSize : float)
    (lines : list flexLine.t) : list flexLine.t :=
  match lines with
  | [line] => [flexLine.set_crossSize containerCrossSize line]
  | _ =>
      map (fun line =>
             flexLine.set_crossSize (lineCrossMax (flexLine.child line)) line)
          lines
  end.

(** The offsets loop: each line starts where the previous one ends; the
    second component is the final [off]. *)
Fixpoint stackLines (off : float) (lines : list flexLine.t)
  : list flexLine.t * float :=
  match lines with
  | [] => ([], off)
  | line :: rest =>
      let '(rest', off') := stackLines (off + flexLine.crossSize line) rest in
      (flexLine.set_crossOffset off line :: rest', off')
  end.

(** §9.4.9, the loop body for the line of index [l]. *)
Definition stretchLine (add : float) (l : nat) (line : flexLine.t) : flexLine.t :=
  flexLine.set_crossSize (flexLine.crossSize line + add)
    (flexLine.set_crossOffset
       (flexLine.crossOffset line + float64_of_int (Z.of_nat l) * add) line).

Definition alignContentStretch (f : View) (containerCrossSize off : float)
    (lines : list flexLine.t) : list flexLine.t :=
  let remCrossSize := containerCrossSize - off in
  match AlignContent f with
  | AlignContentStretch =>
      if gtb remCrossSize 0 then
        let add := remCrossSize / float64_of_int (Z.of_nat (length lines)) in
        imap (stretchLine add) lines
      else lines
  | _ => lines
  end.

(** §9.4.11. *)
Definition stretchItem (f : View) (line : flexLine.t) (child : element.t)
  : element.t :=
  match AlignItems f with
  | AlignItemStretch =>
      if negb (isCrossSizeFixed f (element.view child))
         && (element.crossSize child <? flexLine.crossSize line)
      then element.set_crossSize
             (flexLine.crossSize line - sum2 (element.crossMargin child)) child
      else child
  | _ => child
  end.

Definition stretchItems (f : View) (line : flexLine.t) : flexLine.t :=
  flexLine.map_child (stretchItem f line) line.

(* ================================================================= *)
(** ** Main-axis alignment (flex.go:502-529) *)

Definition lineTotal (children : list element.t) : float :=
  fold_left
    (fun total child =>
       total + (element.mainSize child + sum2 (element.mainMargin child)))
    children 0.

(** The [switch f.Justify]: the initial [off] and the [spacing], for a
    line of [n] children with [remFree] left over. *)
Definition justify (j : flex.Justify) (remFree : float) (n : nat)
  : float * float :=
  match j with
  | JustifyStart => (0, 0)
  | JustifyEnd => (remFree, 0)
  | JustifyCenter => (remFree / 2, 0)
  | JustifySpaceBetween =>
      (0, remFree / float64_of_int (Z.of_nat n - 1))
  | JustifySpaceAround =>
      let spacing := remFree / float64_of_int (Z.of_nat n) in
      (spacing / 2, spacing)
  end.

(** The placement loop: each child goes to [off] plus its leading
    margin, then [off] advances. *)
Fixpoint placeMain (off spacing : float) (children : list element.t)
  : list element.t :=
  match children with
  | [] => []
  | child :: rest =>
      element.set_mainOffset (off + fst (element.mainMargin child)) child
      :: placeMain
           (off + (spacing + element.mainSize child
                   + sum2 (element.mainMargin child)))
           spacing rest
  end.

Definition alignMain (f : View) (containerMainSize : float) (line : flexLine.t)
  : flexLine.t :=
  let total := lineTotal (flexLine.child line) in
  let remFree := containerMainSize - total in
  let '(off, spacing) :=
    justify (Justify f) remFree (length (flexLine.child line)) in
  flexLine.set_child (placeMain off spacing (flexLine.child line)) line.

(* ================================================================= *)
(** ** Cross-axis alignment and align-content (flex.go:531-584) *)

Definition alignCrossChild (f : View) (line : flexLine.t) (child : element.t)
  : element.t :=
  let child :=
    element.set_crossOffset
      (flexLine.crossOffset line + fst (element.crossMargin child)) child in
  if element.crossSize child =? flexLine.crossSize line then child
  else
    let diff := flexLine.crossSize line - element.crossSize child
                - sum2 (element.crossMargin child) in
    match AlignItems f with
    | AlignItemStart => child
    | AlignItemEnd =>
        element.set_crossOffset
          (flexLine.crossOffset line + diff + fst (element.crossMargin child))
          child
    | AlignItemCenter =>
        element.set_crossOffset
          (flexLine.crossOffset line + diff / 2 + fst (element.crossMargin child))
          child
    | AlignItemStretch => child
    end.

Definition alignCross (f : View) (line : flexLine.t) : flexLine.t :=
  flexLine.map_child (alignCrossChild f line) line.

(** The [switch f.AlignContent] of §9.6.16: [(spacing, off)]. *)
Definition alignContentSpacing (a : flex.AlignContent) (remFree : float)
    (n : nat) : float * float :=
  match a with
  | AlignContentStart => (0, 0)
  | AlignContentEnd => (0, remFree)
  | AlignContentCenter => (0, remFree / 2)
  | AlignContentSpaceBetween =>
      (remFree / float64_of_int (Z.of_nat n - 1), 0)
  | AlignContentSpaceAround =>
      let spacing := remFree / float64_of_int (Z.of_nat n) in
      (spacing, spacing / 2)
  | AlignContentStretch => (0, 0)
  end.

Fixpoint shiftLines (off spacing : float) (lines : list flexLine.t)
  : list flexLine.t :=
  match lines with
  | [] => []
  | line :: rest =>
      flexLine.mk (flexLine.mainSize line) (flexLine.crossSize line)
        (flexLine.crossOffset line + off)
        (map (fun child =>
                element.set_crossOffset (element.crossOffset child + off) child)
             (flexLine.child line))
      :: shiftLines (off + spacing) spacing rest
  end.

Definition lastLine (lines : list flexLine.t) : flexLine.t :=
  List.last lines flexLine.zero.

Definition alignLines (f : View) (containerCrossSize : float)
    (lines : list flexLine.t) : list flexLine.t :=
  let crossSize :=
    flexLine.crossOffset (lastLine lines) + flexLine.crossSize (lastLine lines) in
  let remFree := containerCrossSize - crossSize in
  if gtb remFree 0 then
    let '(spacing, off) :=
      alignContentSpacing (AlignContent f) remFree (length lines) in
    match AlignContent f with
    | AlignContentStart => lines
    | _ => shiftLines off spacing lines
    end
  else lines.

(* ================================================================= *)
(** ** Intrinsic sizes (flex.go:586-660) *)

Definition flexFraction (child : element.t) : element.t :=
  let maxContentDiff := element.mainSize child - element.flexBaseSize child in
  element.set_maxContentFlexFraction
    (if gtb maxContentDiff 0
     then maxContentDiff / math.Max 1 (Grow (element.view child))
     else maxContentDiff
          / math.Max 1 (Shrink (element.view child) * element.mainSize child))
    child.

Definition lineFlexFraction (children : list element.t) : float :=
  fold_left
    (fun m child =>
       if gtb (element.maxContentFlexFraction child) m
       then element.maxContentFlexFraction child else m)
    children 0.

Definition lineMaxMainSize (maxContentFlexFraction : float)
    (children : list element.t) : float :=
  fold_left
    (fun maxMainSize child =>
       let mainSize :=
         if gtb maxContentFlexFraction 0
         then element.flexBaseSize child
              + Grow (element.view child) * maxContentFlexFraction
         else element.flexBaseSize child
              - Shrink (element.view child) * element.mainSize child
                * maxContentFlexFraction in
       if gtb mainSize maxMainSize then mainSize else maxMainSize)
    children 0.

(** The [range lines] loop copies each line, but a line's children are
    pointers, so the fractions stored in the elements stay. *)
Definition intrinsicMain (lines : list flexLine.t) : list flexLine.t * float :=
  let lines := map (flexLine.map_child flexFraction) lines in
  (lines,
   fold_left
     (fun intrinsicMainSize line =>
        intrinsicMainSize
        + lineMaxMainSize (lineFlexFraction (flexLine.child line))
                          (flexLine.child line))
     lines 0).

Definition crossExtent (children : list element.t) : float * float :=
  fold_left
    (fun '(min, max) child =>
       let min := if element.crossOffset child <? min
                  then element.crossOffset child else min in
       let max :=
         if (max =? -1)
            || gtb (element.crossOffset child + element.crossSize child) max
         then element.crossOffset child + element.crossSize child else max in
       (min, max))
    children (math.Inf1, -1).

Definition intrinsicCross (lines : list flexLine.t) : float :=
  fold_left
    (fun intrinsicCrossSize line =>
       let intrinsicCrossSize :=
         if intrinsicCrossSize
            <? flexLine.crossOffset line + flexLine.crossSize line
         then flexLine.crossOffset line + flexLine.crossSize line
         else intrinsicCrossSize in
       let '(min, max) := crossExtent (flexLine.child line) in
       if intrinsicCrossSize <? max - min then max - min
       else intrinsicCrossSize)
    lines 0.

(* ================================================================= *)
(** ** Frame commit and the whole pass (flex.go:671-694) *)

Definition commitChild (f : View) (child : element.t) : element.t :=
  let b :=
    match Direction f with
    | Row =>
        geo.Rect (element.mainOffset child) (element.crossOffset child)
                 (element.mainOffset child + element.mainSize child)
                 (element.crossOffset child + element.crossSize child)
    | Column =>
        geo.Rect (element.crossOffset child) (element.mainOffset child)
                 (element.crossOffset child + element.crossSize child)
                 (element.mainOffset child + element.mainSize child)
    end in
  element.set_node
    (mkChild (setFrame (geo.Add b (geo.Min (frame f)))
                       (item (element.node child)))
             b (absolute (element.node child)))
    child.

(** The lines as they stand when the pass reaches the commit loop. *)
Definition layoutLines (f : View) (width height : float)
    (children : list element.t) : list flexLine.t :=
  let containerMainSize := mainSize f width height in
  let containerCrossSize := crossSize f width height in
  let children := resolvePercent f width height children in
  let lines := collectLines f containerMainSize children in
  let lines := map (resolveFlexibleLengths f width height) lines in
  let lines := map (flexLine.map_child (hypotheticalCross f)) lines in
  let lines := lineCrossSizes containerCrossSize lines in
  let '(lines, off) := stackLines 0 lines in
  let lines := alignContentStretch f containerCrossSize off lines in
  let lines := map (stretchItems f) lines in
  let lines := map (alignMain f containerMainSize) lines in
  let lines := map (alignCross f) lines in
  alignLines f containerCrossSize lines.

(** [flexEmbed.layout(width, height, container)] with [container] the
    receiver's own [containerEmbed], as [startLayout] calls it.  The
    debugging line printed in the absolute branch is not modelled. *)
Definition layout (f : View) (width height : float) : View :=
  let scanned := map (scanChild f) (children f) in
  let children := omap snd scanned in
  let lines := layoutLines f width height children in
  let '(lines, intrinsicMainSize) := intrinsicMain lines in
  let intrinsicCrossSize := intrinsicCross lines in
  let lines := map (flexLine.map_child (commitChild f)) lines in
  let nodes := map element.node (concat (map flexLine.child lines)) in
  set_children (writeBack (map fst scanned) nodes)
    (setCrossSize intrinsicCrossSize (setMainSize intrinsicMainSize f)).

(* ================================================================= *)
(** ** view.go: [startLayout] and [Update] *)

(** [View.startLayout].  The mutex only serialises re-entrant calls. *)
Fixpoint startLayout (v : View) : View :=
  let fr :=
    if negb (hasParent v)
    then geo.Rect (Left v) (Top v) (Left v + Width v) (Top v + Height v)
    else frame v in
  let cs :=
    map (fun c : child View =>
           match Position (item c) with
           | PositionStatic => map_item startLayout c
           | PositionAbsolute => c
           end)
        (children v) in
  let v := set_children cs (set_frame fr v) in
  set_isDirty false (layout v (geo.Dx (frame v)) (geo.Dy (frame v))).

(** The depth of the tree under a view. *)
Fixpoint depth (v : View) : nat :=
  S (fold_right Nat.max O (map (fun c => depth (item c)) (children v))).

(** [View.Update], for views without handlers (the handlers and the
    root's event dispatch are collaborators outside the layout core).
    The children are updated in the state the view's own layout left them
    in, so the recursion is not structural in [v]: it is driven by a
    bound on the depth of the tree, and [None] means the bound was too
    small. *)
Fixpoint Update (n : nat) (v : View) : option View :=
  match n with
  | O => None
  | S n =>
      let v := if isDirty v then startLayout v else v in
      cs ← mapM (fun c : child View => it ← Update n (item c);
                           Some (mkChild it (bounds c) (absolute c)))
                (children v);
      Some (set_children cs v)
  end.

(** The elements the first loop of [layout] makes for a container. *)
Definition flowElements (f : View) : list element.t :=
  omap snd (map (scanChild f) (children f)).

(** The receiver of [startLayout] at the moment it calls [layout]: its
    frame seeded when it is a root, its static children laid out. *)
Definition beforeLayout (v : View) : View :=
  let fr :=
    if negb (hasParent v)
    then geo.Rect (Left v) (Top v) (Left v + Width v) (Top v + Height v)
    else frame v in
  set_children
    (map (fun c : child View =>
            match Position (item c) with
            | PositionStatic => map_item startLayout c
            | PositionAbsolute => c
            end)
         (children v))
    (set_frame fr v).

(** The committed frames of the children of a view. *)
Definition childFrames (v : View) : list geo.Rectangle :=
  map (fun c : child View => frame (item c)) (children v).

(* ================================================================= *)
(** ** view.go at the level of pointers

    The operations that build and edit a hierarchy work on [*View]
    values and follow the [parent] back-reference, so two containers can
    come to hold the same view.  Here a view lives at an address of a
    heap; the [nil] pointer is an address the heap does not hold, and a
    call that dereferences it, or that panics by itself, returns [None]. *)

Module Heap.

Definition ptr := nat.

Record View := mkView {
  style :> Style;
  children : list (child ptr);
  isDirty : bool;
  frame : geo.Rectangle;
  calculatedWidth : float;
  calculatedHeight : float;
  hasParent : bool;
  parent : option ptr
}.

Abbreviation heap := (gmap ptr View).

Definition set_style (s : Style) (v : View) : View :=
  mkView s (children v) (isDirty v) (frame v) (calculatedWidth v)
         (calculatedHeight v) (hasParent v) (parent v).

Definition set_children (cs : list (child ptr)) (v : View) : View :=
  mkView (style v) cs (isDirty v) (frame v) (calculatedWidth v)
         (calculatedHeight v) (hasParent v) (parent v).

Definition set_isDirty (b : bool) (v : View) : View :=
  mkView (style v) (children v) b (frame v) (calculatedWidth v)
         (calculatedHeight v) (hasParent v) (parent v).

(** [v.hasParent = b; v.parent = p]. *)
Definition set_parent (b : bool) (p : option ptr) (v : View) : View :=
  mkView (style v) (children v) (isDirty v) (frame v) (calculatedWidth v)
         (calculatedHeight v) b p.

(** A freshly allocated [&View{...}]. *)
Definition newView (s : Style) : View :=
  mkView s [] false geo.ZR 0 0 false None.

(** [&child{item: cv, handledTouchID: -1}]. *)
Definition newChild (cv : ptr) : child ptr := mkChild cv geo.ZR false.

(** An assignment through the pointer [v]. *)
Definition store (v : ptr) (g : View -> View) (h : heap) : option heap :=
  r ← h !! v; Some (<[v := g r]> h).

(** [View.Layout]: marks the view dirty, and its parent when it has one. *)
Definition Layout (v : ptr) (h : heap) : option heap :=
  r ← h !! v;
  h ← store v (set_isDirty true) h;
  if hasParent r then p ← parent r; store p (set_isDirty true) h
  else Some h.

(** [View.addChild]. *)
Definition addChild (v cv : ptr) (h : heap) : option heap :=
  r ← h !! v;
  h ← store v (set_children (children r ++ [newChild cv])) h;
  h ← store v (set_isDirty true) h;
  store cv (set_parent true (Some v)) h.

(** [View.AddChild(views...)]. *)
Fixpoint AddChild (v : ptr) (views : list ptr) (h : heap) : option heap :=
  match views with
  | [] => Some h
  | vv :: rest => h ← addChild v vv h; AddChild v rest h
  end.

(** [View.AddTo]: panics when the view already has a parent. *)
Definition AddTo (v parent : ptr) (h : heap) : option heap :=
  r ← h !! v;
  if hasParent r then None
  else AddChild parent [v] h.

(** [View.PopChild]: the new heap and the returned pointer, [None]
    being [nil]. *)
Definition PopChild (v : ptr) (h : heap) : option (heap * option ptr) :=
  r ← h !! v;
  if (length (children r) =? 0)%nat then Some (h, None)
  else
    c ← last (children r);
    h ← store v (set_children (removelast (children r))) h;
    h ← store v (set_isDirty true) h;
    h ← store (item c) (set_parent false None) h;
    Some (h, Some (item c)).

(** The index of the first child whose item is [cv]. *)
Fixpoint indexOf (cv : ptr) (cs : list (child ptr)) : option nat :=
  match cs with
  | [] => None
  | c :: rest => if (item c =? cv)%nat then Some O
                 else S <$> indexOf cv rest
  end.

(** [View.RemoveChild]: the new heap and whether a child was removed. *)
Definition RemoveChild (v cv : ptr) (h : heap) : option (heap * bool) :=
  r ← h !! v;
  match indexOf cv (children r) with
  | Some i =>
      h ← store v (set_children (take i (children r) ++ drop (S i) (children r))) h;
      h ← store v (set_isDirty true) h;
      h ← store cv (set_parent false None) h;
      Some (h, true)
  | None => Some (h, false)
  end.

(** The style setters: assign the field, then [v.Layout()]. *)
Definition assign (g : Style -> Style) (v : ptr) (h : heap) : option heap :=
  h ← store v (fun r => set_style (g r) r) h; Layout v h.

Definition SetLeft (left : float) := assign (with_Left left).
Definition SetRight (right : float) := assign (with_Right (Some right)).
Definition SetTop (top : float) := assign (with_Top top).
Definition SetBottom (bottom : float) := assign (with_Bottom (Some bottom)).
Definition SetWidth (width : float) := assign (with_Width width).
Definition SetHeight (height : float) := assign (with_Height height).
Definition SetMarginLeft (m : float) := assign (with_MarginLeft m).
Definition SetMarginTop (m : float) := assign (with_MarginTop m).
Definition SetMarginRight (m : float) := assign (with_MarginRight m).
Definition SetMarginBottom (m : float) := assign (with_MarginBottom m).
Definition SetPosition (p : flex.Position) := assign (with_Position p).
Definition SetDirection (d : flex.Direction) := assign (with_Direction d).
Definition SetWrap (w : flex.FlexWrap) := assign (with_Wrap w).
Definition SetJustify (j : flex.Justify) := assign (with_Justify j).
Definition SetAlignItems (a : flex.AlignItem) := assign (with_AlignItems a).
Definition SetAlignContent (a : flex.AlignContent) := assign (with_AlignContent a).
Definition SetGrow (grow : float) := assign (with_Grow grow).
Definition SetShrink (shrink : float) := assign (with_Shrink shrink).
Definition SetDisplay (d : flex.Display) := assign (with_Display d).
Definition SetHidden (hidden : bool) := assign (with_Hidden hidden).

(** A call of one of the twenty setters of view.go. *)
Inductive setter :=
| CallSetLeft (x : float) | CallSetRight (x : float)
| CallSetTop (x : float) | CallSetBottom (x : float)
| CallSetWidth (x : float) | CallSetHeight (x : float)
| CallSetMarginLeft (x : float) | CallSetMarginTop (x : float)
| CallSetMarginRight (x : float) | CallSetMarginBottom (x : float)
| CallSetPosition (p : flex.Position) | CallSetDirection (d : flex.Direction)
| CallSetWrap (w : flex.FlexWrap) | CallSetJustify (j : flex.Justify)
| CallSetAlignItems (a : flex.AlignItem)
| CallSetAlignContent (a : flex.AlignContent)
| CallSetGrow (x : float) | CallSetShrink (x : float)
| CallSetDisplay (d : flex.Display) | CallSetHidden (b : bool).

Definition call (s : setter) : ptr -> heap -> option heap :=
  match s with
  | CallSetLeft x => SetLeft x | CallSetRight x => SetRight x
  | CallSetTop x => SetTop x | CallSetBottom x => SetBottom x
  | CallSetWidth x => SetWidth x | CallSetHeight x => SetHeight x
  | CallSetMarginLeft x => SetMarginLeft x
  | CallSetMarginTop x => SetMarginTop x
  | CallSetMarginRight x => SetMarginRight x
  | CallSetMarginBottom x => SetMarginBottom x
  | CallSetPosition p => SetPosition p
  | CallSetDirection d => SetDirection d
  | CallSetWrap w => SetWrap w | CallSetJustify j => SetJustify j
  | CallSetAlignItems a => SetAlignItems a
  | CallSetAlignContent a => SetAlignContent a
  | CallSetGrow x => SetGrow x | CallSetShrink x => SetShrink x
  | CallSetDisplay d => SetDisplay d | CallSetHidden b => SetHidden b
  end.

(** The attribute a setter is meant to write, read off its name and
    argument; the statement about the setters compares the program
    against it. *)
Definition written (s : setter) (st : Style) : Style :=
  match s with
  | CallSetLeft x => with_Left x st
  | CallSetRight x => with_Right (Some x) st
  | CallSetTop x => with_Top x st
  | CallSetBottom x => with_Bottom (Some x) st
  | CallSetWidth x => with_Width x st
  | CallSetHeight x => with_Height x st
  | CallSetMarginLeft x => with_MarginLeft x st
  | CallSetMarginTop x => with_MarginTop x st
  | CallSetMarginRight x => with_MarginRight x st
  | CallSetMarginBottom x => with_MarginBottom x st
  | CallSetPosition p => with_Position p st
  | CallSetDirection d => with_Direction d st
  | CallSetWrap w => with_Wrap w st
  | CallSetJustify j => with_Justify j st
  | CallSetAlignItems a => with_AlignItems a st
  | CallSetAlignContent a => with_AlignContent a st
  | CallSetGrow x => with_Grow x st
  | CallSetShrink x => with_Shrink x st
  | CallSetDisplay d => with_Display d st
  | CallSetHidden b => with_Hidden b st
  end.

(** The loop of [RemoveAll]: every child loses its back-reference. *)
Fixpoint detachAll (cs : list (child ptr)) (h : heap) : option heap :=
  match cs with
  | [] => Some h
  | c :: rest => h ← store (item c) (set_parent false None) h; detachAll rest h
  end.

(** [View.RemoveAll]. *)
Definition RemoveAll (v : ptr) (h : heap) : option heap :=
  r ← h !! v;
  h ← store v (set_isDirty true) h;
  h ← detachAll (children r) h;
  store v (set_children []) h.

End Heap.

(* ================================================================= *)
(** ** Hierarchies on the heap *)

(** The views a view holds, [v.getChildren()]. *)
Definition held (r : Heap.View) : list Heap.ptr := map item (Heap.children r).

(** A heap whose child lists and back-references agree: no view is twice
    in a child list, every held view points back to its holder, and
    every view that says it has a parent is held by it.  Such a heap has
    every view in at most one child list. *)
Definition consistent (h : Heap.heap) : Prop :=
  forall (v : Heap.ptr) (r : Heap.View),
    h !! v = Some r ->
    NoDup (held r)
    /\ (forall cv, cv ∈ held r ->
          exists rc, h !! cv = Some rc
                     /\ Heap.hasParent rc = true /\ Heap.parent rc = Some v)
    /\ (Heap.hasParent r = true ->
          exists p rp, Heap.parent r = Some p /\ h !! p = Some rp /\ v ∈ held rp).

(** What the operations that edit a hierarchy do to the view at address
    [x]: the holder [v] gets the child list [L] and becomes dirty, and the
    views of [D] get the back-reference [(b, p)]. *)
Definition edit (v : Heap.ptr) (L : list (child Heap.ptr)) (D : list Heap.ptr)
    (b : bool) (p : option Heap.ptr) (x : Heap.ptr) (rx : Heap.View)
  : Heap.View :=
  let rx := if decide (x = v)
            then Heap.set_isDirty true (Heap.set_children L rx) else rx in
  if decide (x ∈ D) then Heap.set_parent b p rx else rx.

(** Two states of a view with the same links: child list, [hasParent]
    mark and back-reference. *)
Definition same_links (r r' : Heap.View) : Prop :=
  Heap.children r' = Heap.children r
  /\ Heap.hasParent r' = Heap.hasParent r
  /\ Heap.parent r' = Heap.parent r.

(** [ancestor h x a]: following the back-references from [x], one step
    or more, leads to [a]. *)
Inductive ancestor (h : Heap.heap) : Heap.ptr -> Heap.ptr -> Prop :=
| ancestor_parent (x p : Heap.ptr) (r : Heap.View) :
    h !! x = Some r -> Heap.hasParent r = true -> Heap.parent r = Some p ->
    ancestor h x p
| ancestor_step (x p a : Heap.ptr) (r : Heap.View) :
    h !! x = Some r -> Heap.hasParent r = true -> Heap.parent r = Some p ->
    ancestor h p a -> ancestor h x a.

(* ================================================================= *)
(** ** view.go: [UpdateWithSize] *)

Definition set_style (s : Style) (v : View) : View :=
  mkView s (children v) (isDirty v) (frame v) (calculatedWidth v)
         (calculatedHeight v) (hasParent v).

(** [View.UpdateWithSize], with the fuel of [Update]. *)
Definition UpdateWithSize (n : nat) (width height : float) (v : View)
  : option View :=
  let v :=
    if negb (hasParent v) && (neqb (Width v) width || neqb (Height v) height)
    then set_isDirty true
           (set_style (with_Width width (with_Height height (style v))) v)
    else v in
  Update n v.

(** What a tick has no business changing: the style attributes and the
    [hasParent] mark of every view, and the shape of the tree. *)
Inductive Skeleton := SkeletonNode (s : Style) (hp : bool) (cs : list Skeleton).

Fixpoint skeleton (v : View) : Skeleton :=
  SkeletonNode (style v) (hasParent v)
    (map (fun c : child View => skeleton (item c)) (children v)).

(* ================================================================= *)
(** ** The two axes exchanged

    [transpose] mirrors a tree of views in the diagonal: every row
    becomes a column and every column a row, widths and heights, left and
    top, right and bottom, and the margins change places, and so do the
    coordinates of every rectangle. *)

Definition flipDirection (d : flex.Direction) : flex.Direction :=
  match d with Row => Column | Column => Row end.

Definition transposeStyle (s : Style) : Style :=
  mkStyle (Top s) (Bottom s) (Left s) (Right s)
          (Height s) (HeightInPct s) (Width s) (WidthInPct s)
          (MarginTop s) (MarginLeft s) (MarginBottom s) (MarginRight s)
          (Position s) (flipDirection (Direction s)) (Wrap s) (Justify s)
          (AlignItems s) (AlignContent s) (Grow s) (Shrink s) (Display s)
          (Hidden s).

Definition transposePoint (p : geo.Point) : geo.Point :=
  geo.Pt (geo.Y p) (geo.X p).

Definition transposeRect (r : geo.Rectangle) : geo.Rectangle :=
  geo.mkRectangle (transposePoint (geo.Min r)) (transposePoint (geo.Max r)).

Fixpoint transpose (v : View) : View :=
  mkView (transposeStyle (style v))
         (map (fun c : child View =>
                 mkChild (transpose (item c)) (transposeRect (bounds c))
                         (absolute c))
              (children v))
         (isDirty v) (transposeRect (frame v))
         (calculatedHeight v) (calculatedWidth v) (hasParent v).

Definition transposeChild (c : child View) : child View :=
  mkChild (transpose (item c)) (transposeRect (bounds c)) (absolute c).

(** An element of the pass over the transposed container: the node is
    transposed, the two percentages change places, and the sizes and
    offsets along the main and the cross axis stay. *)
Definition transposeElement (e : element.t) : element.t :=
  element.mk (transposeChild (element.node e)) (element.flexBaseSize e)
    (element.mainSize e) (element.mainOffset e) (element.mainMargin e)
    (element.crossSize e) (element.crossOffset e) (element.crossMargin e)
    (element.frozen e) (element.maxContentFlexFraction e)
    (element.heightInPct e) (element.widthInPct e).

Definition transposeLine (l : flexLine.t) : flexLine.t :=
  flexLine.map_child transposeElement l.

(* ================================================================= *)
(** ** Attribute names and values as text

    The [String] methods of flex.go and the style parser of parser.go
    work on Go strings, which are byte sequences; they are modelled by
    [String.string].  The enumerations are the inductive types above, so
    the [default] branches of the [String] methods, which print a number
    that is none of the declared constants, have no counterpart. *)

Module parser.

Import String.
#[local] Open Scope string_scope.

(** The [String] methods of flex.go. *)

Definition Direction_String (d : flex.Direction) : string :=
  match d with Row => "row" | Column => "column" end.

Definition Justify_String (f : flex.Justify) : string :=
  match f with
  | JustifyStart => "flex-start"
  | JustifyEnd => "flex-end"
  | JustifyCenter => "center"
  | JustifySpaceBetween => "space-between"
  | JustifySpaceAround => "space-around"
  end.

Definition AlignItem_String (f : flex.AlignItem) : string :=
  match f with
  | AlignItemStretch => "stretch"
  | AlignItemStart => "flex-start"
  | AlignItemEnd => "flex-end"
  | AlignItemCenter => "center"
  end.

Definition FlexWrap_String (f : flex.FlexWrap) : string :=
  match f with
  | NoWrap => "nowrap"
  | flex.Wrap => "wrap"
  | WrapReverse => "wrap-reverse"
  end.

Definition AlignContent_String (f : flex.AlignContent) : string :=
  match f with
  | AlignContentStart => "start"
  | AlignContentEnd => "end"
  | AlignContentCenter => "center"
  | AlignContentSpaceBetween => "space-between"
  | AlignContentSpaceAround => "space-around"
  | AlignContentStretch => "stretch"
  end.

Definition Position_String (p : flex.Position) : string :=
  match p with PositionStatic => "static" | PositionAbsolute => "absolute" end.

Definition Display_String (d : flex.Display) : string :=
  match d with DisplayFlex => "flex" | DisplayNone => "none" end.

(** [strings.HasSuffix] and [strings.TrimSuffix]. *)

Definition HasSuffix (s suffix : string) : bool :=
  (String.length suffix <=? String.length s)%nat
  && (substring (String.length s - String.length suffix)
                (String.length suffix) s =? suffix).

Definition TrimSuffix (s suffix : string) : string :=
  if HasSuffix s suffix
  then substring 0 (String.length s - String.length suffix) s
  else s.

(** A Go [error]: [None] is [nil], [Some msg] an error with that text. *)
Definition error := option string.

Inductive cssUnit := cssUnitPx | cssUnitPct.

Record cssLength := mkCssLength { unit : cssUnit; val : float }.

(** The values the parse functions box into [any], with their dynamic
    type, and the [nil] interface. *)
Inductive any :=
| AnyNil
| AnyInt (n : Z)
| AnyFloat64 (x : float)
| AnyLength (l : cssLength)
| AnyPosition (p : flex.Position)
| AnyDirection (d : flex.Direction)
| AnyFlexWrap (w : flex.FlexWrap)
| AnyJustify (j : flex.Justify)
| AnyAlignItem (a : flex.AlignItem)
| AnyAlignContent (a : flex.AlignContent)
| AnyDisplay (d : flex.Display).

(** The types the setter functions of [styleMapper] take their value in;
    none of them is a pointer type. *)
Inductive kind :=
| KFloat64 | KLength | KPosition | KDirection | KFlexWrap
| KJustify | KAlignItem | KAlignContent | KDisplay.

Definition dyn (U : kind) : Type :=
  match U with
  | KFloat64 => float
  | KLength => cssLength
  | KPosition => flex.Position
  | KDirection => flex.Direction
  | KFlexWrap => flex.FlexWrap
  | KJustify => flex.Justify
  | KAlignItem => flex.AlignItem
  | KAlignContent => flex.AlignContent
  | KDisplay => flex.Display
  end.

(** The zero value of a type. *)
Definition zero (U : kind) : dyn U :=
  match U with
  | KFloat64 => 0%float
  | KLength => mkCssLength cssUnitPx 0
  | KPosition => PositionStatic
  | KDirection => Row
  | KFlexWrap => NoWrap
  | KJustify => JustifyStart
  | KAlignItem => AlignItemStretch
  | KAlignContent => AlignContentStart
  | KDisplay => DisplayFlex
  end.

(** The type assertion [v.(U)]: the value when the dynamic type of [v]
    is [U]. *)
Definition assert (U : kind) (v : any) : option (dyn U) :=
  match U return option (dyn U) with
  | KFloat64 => match v with AnyFloat64 x => Some x | _ => None end
  | KLength => match v with AnyLength l => Some l | _ => None end
  | KPosition => match v with AnyPosition p => Some p | _ => None end
  | KDirection => match v with AnyDirection d => Some d | _ => None end
  | KFlexWrap => match v with AnyFlexWrap w => Some w | _ => None end
  | KJustify => match v with AnyJustify j => Some j | _ => None end
  | KAlignItem => match v with AnyAlignItem a => Some a | _ => None end
  | KAlignContent => match v with AnyAlignContent a => Some a | _ => None end
  | KDisplay => match v with AnyDisplay d => Some d | _ => None end
  end.

(** [setFunc]: the setter [f] behind a type assertion.  A [nil] value
    gives [f] the zero value of its type; a value of another dynamic
    type panics ([None]).  The branch for pointer types is not taken by
    any setter of [styleMapper].  The entity is the view, of which the
    setters write style attributes only. *)
Definition setFunc (U : kind) (f : Style -> dyn U -> Style)
    (e : Style) (v : any) : option Style :=
  match v with
  | AnyNil => Some (f e (zero U))
  | _ => match assert U v with
         | Some u => Some (f e u)
         | None => None
         end
  end.

Record mapper := mkMapper {
  parseFunc : string -> any * error;
  setFunc' : Style -> any -> option Style
}.

Definition parsePosition (val : string) : any * error :=
  if val =? "absolute" then (AnyPosition PositionAbsolute, None)
  else if (val =? "static") || (val =? "relative")
  then (AnyPosition PositionStatic, None)
  else (AnyPosition PositionStatic, Some ("unknown position: " ++ val)).

Definition parseDirection (val : string) : any * error :=
  if val =? "row" then (AnyDirection Row, None)
  else if val =? "column" then (AnyDirection Column, None)
  else (AnyDirection Column, Some ("unknown direction: " ++ val)).

Definition parseWrap (val : string) : any * error :=
  if val =? "wrap" then (AnyFlexWrap flex.Wrap, None)
  else if val =? "nowrap" then (AnyFlexWrap NoWrap, None)
  else (AnyFlexWrap NoWrap, Some ("unknown wrap: " ++ val)).

Definition parseJustify (val : string) : any * error :=
  if (val =? "flex-start") || (val =? "start")
  then (AnyJustify JustifyStart, None)
  else if (val =? "flex-end") || (val =? "end")
  then (AnyJustify JustifyEnd, None)
  else if val =? "space-between" then (AnyJustify JustifySpaceBetween, None)
  else if val =? "space-around" then (AnyJustify JustifySpaceAround, None)
  else if val =? "center" then (AnyJustify JustifyCenter, None)
  else (AnyJustify JustifyStart, Some ("unknown justify: " ++ val)).

Definition parseAlignItem (val : string) : any * error :=
  if (val =? "flex-start") || (val =? "start")
  then (AnyAlignItem AlignItemStart, None)
  else if (val =? "flex-end") || (val =? "end")
  then (AnyAlignItem AlignItemEnd, None)
  else if val =? "center" then (AnyAlignItem AlignItemCenter, None)
  else if val =? "stretch" then (AnyAlignItem AlignItemStretch, None)
  else (AnyAlignItem AlignItemStretch, Some ("unknown align-items: " ++ val)).

Definition parseAlignContent (val : string) : any * error :=
  if (val =? "flex-start") || (val =? "start")
  then (AnyAlignContent AlignContentStart, None)
  else if (val =? "flex-end") || (val =? "end")
  then (AnyAlignContent AlignContentEnd, None)
  else if val =? "center" then (AnyAlignContent AlignContentCenter, None)
  else if val =? "stretch" then (AnyAlignContent AlignContentStretch, None)
  else if val =? "space-between"
  then (AnyAlignContent AlignContentSpaceBetween, None)
  else if val =? "space-around"
  then (AnyAlignContent AlignContentSpaceAround, None)
  else (AnyAlignContent AlignContentStart,
        Some ("unknown align-content: " ++ val)).

Definition parseDisplay (val : string) : any * error :=
  if val =? "none" then (AnyDisplay DisplayNone, None)
  else if (val =? "") || (val =? "flex") then (AnyDisplay DisplayFlex, None)
  else (AnyDisplay DisplayFlex, Some ("unknown display: " ++ val)).

Definition parseBool (val : string) : bool := val =? "true".

Section Conversions.

(** [strconv.Atoi] and [strconv.ParseFloat(_, 64)] are library code:
    the parser is modelled over any pair of functions of their types. *)
Variable Atoi : string -> Z * error.
Variable ParseFloat : string -> float * error.

(** [parseNumber]: the [int] that [Atoi] returns, boxed. *)
Definition parseNumber (val : string) : any * error :=
  let val := TrimSuffix val "px" in
  let '(n, err) := Atoi val in (AnyInt n, err).

Definition parseFloat (val : string) : any * error :=
  let '(x, err) := ParseFloat val in (AnyFloat64 x, err).

(** [parseLength]; [v.(float64)] is the float that [parseFloat] boxed. *)
Definition parseLength (val : string) : any * error :=
  if HasSuffix val "%" then
    let val := TrimSuffix val "%" in
    let '(x, err) := ParseFloat val in
    match err with
    | Some _ => (AnyLength (mkCssLength cssUnitPx 0), None)
    | None =>
        if (x <=? 0)%float then (AnyLength (mkCssLength cssUnitPx 0), None)
        else (AnyLength (mkCssLength cssUnitPct x), None)
    end
  else
    let val := TrimSuffix val "px" in
    let '(x, err) := ParseFloat val in
    match err with
    | Some _ => (AnyLength (mkCssLength cssUnitPx 0), None)
    | None => (AnyLength (mkCssLength cssUnitPx x), None)
    end.

(** The map [styleMapper]: the mapper filed under a key, if any. *)
Definition styleMapper (k : string) : option mapper :=
  if k =? "left" then
    Some (mkMapper parseNumber (setFunc KFloat64 (fun v val => with_Left val v)))
  else if k =? "right" then
    Some (mkMapper parseNumber
            (setFunc KFloat64 (fun v val => with_Right (Some val) v)))
  else if k =? "top" then
    Some (mkMapper parseNumber (setFunc KFloat64 (fun v val => with_Top val v)))
  else if k =? "bottom" then
    Some (mkMapper parseNumber
            (setFunc KFloat64 (fun v val => with_Bottom (Some val) v)))
  else if k =? "width" then
    Some (mkMapper parseLength
            (setFunc KLength
               (fun v l => match unit l with
                           | cssUnitPx => with_Width (val l) v
                           | cssUnitPct => with_WidthInPct (val l) v
                           end)))
  else if k =? "height" then
    Some (mkMapper parseLength
            (setFunc KLength
               (fun v l => match unit l with
                           | cssUnitPx => with_Height (val l) v
                           | cssUnitPct => with_HeightInPct (val l) v
                           end)))
  else if k =? "margin-left" then
    Some (mkMapper parseNumber
            (setFunc KFloat64 (fun v val => with_MarginLeft val v)))
  else if k =? "margin-top" then
    Some (mkMapper parseNumber
            (setFunc KFloat64 (fun v val => with_MarginTop val v)))
  else if k =? "margin-right" then
    Some (mkMapper parseNumber
            (setFunc KFloat64 (fun v val => with_MarginRight val v)))
  else if k =? "margin-bottom" then
    Some (mkMapper parseNumber
            (setFunc KFloat64 (fun v val => with_MarginBottom val v)))
  else if k =? "position" then
    Some (mkMapper parsePosition
            (setFunc KPosition (fun v val => with_Position val v)))
  else if (k =? "direction") || (k =? "flex-direction") then
    Some (mkMapper parseDirection
            (setFunc KDirection (fun v val => with_Direction val v)))
  else if (k =? "flex-wrap") || (k =? "wrap") then
    Some (mkMapper parseWrap (setFunc KFlexWrap (fun v val => with_Wrap val v)))
  else if (k =? "justify") || (k =? "justify-content") then
    Some (mkMapper parseJustify
            (setFunc KJustify (fun v val => with_Justify val v)))
  else if k =? "align-items" then
    Some (mkMapper parseAlignItem
            (setFunc KAlignItem (fun v val => with_AlignItems val v)))
  else if k =? "align-content" then
    Some (mkMapper parseAlignContent
            (setFunc KAlignContent (fun v val => with_AlignContent val v)))
  else if (k =? "flex-grow") || (k =? "grow") then
    Some (mkMapper parseFloat (setFunc KFloat64 (fun v val => with_Grow val v)))
  else if (k =? "flex-shrink") || (k =? "shrink") then
    Some (mkMapper parseFloat
            (setFunc KFloat64 (fun v val => with_Shrink val v)))
  else if k =? "display" then
    Some (mkMapper parseDisplay
            (setFunc KDisplay (fun v val => with_Display val v)))
  else None.

(** The body of the loop of [parseStyle] from the map lookup on, for a
    pair already split and trimmed into the key [k] and the value [v]:
    the view after it and the error it adds to the list, if any.  [None]
    is a panic. *)
Definition parseStylePair (k v : string) (view : Style)
  : option (Style * error) :=
  match styleMapper k with
  | None => Some (view, Some ("unknown style: " ++ k))
  | Some m =>
      let '(parsed, err) := parseFunc m v in
      match err with
      | Some e => Some (view, Some e)
      | None =>
          match setFunc' m view parsed with
          | Some view' => Some (view', None)
          | None => None
          end
      end
  end.

End Conversions.

(** The keys whose value goes through [parseNumber]. *)
Definition pixelKeys : list string :=
  ["left"; "right"; "top"; "bottom";
   "margin-left"; "margin-top"; "margin-right"; "margin-bottom"].

End parser.

(* ================================================================= *)
(** ** Vocabulary of the statements *)

(** What a layout pass never writes of a child entry: the style of the
    view, the list of its children and its [hasParent] mark. *)
Definition core (c : child View) : Style * list (child View) * bool :=
  (style (item c), children (item c), hasParent (item c)).

Definition ecore (e : element.t) := core (element.node e).

(** The entries held by the elements of a list of lines, in flow order. *)
Definition lnodes (lines : list flexLine.t) : list (child View) :=
  map element.node (concat (map flexLine.child lines)).

(** The entries [layout] writes back: those of the lines after the commit
    loop. *)
Definition committedNodes (f : View) (w h : float) : list (child View) :=
  lnodes
    (map (flexLine.map_child (commitChild f))
         (fst (intrinsicMain (layoutLines f w h (flowElements f))))).

(** The rectangle with the given corners, taken as they are. *)
Definition rect (x0 y0 x1 y1 : float) : geo.Rectangle :=
  geo.mkRectangle (geo.Pt x0 y0) (geo.Pt x1 y1).

(** The frames of a view and of everything below it, parents first. *)
Fixpoint allFrames (v : View) : list geo.Rectangle :=
  frame v :: concat (map (fun c : child View => allFrames (item c)) (children v)).

(** All dirty flags under a view are clear. *)
Fixpoint cleanb (v : View) : bool :=
  negb (isDirty v) && forallb (fun c => cleanb (item c)) (children v).

(** What the multi-line loop keeps true of [(lines, line)]: the finished
    lines have children, and a running line without children has the
    main size zero. *)
Definition wrapInv (st : list flexLine.t * flexLine.t) : Prop :=
  Forall (fun l => flexLine.child l <> []) (fst st)
  /\ (flexLine.child (snd st) = [] -> flexLine.mainSize (snd st) = 0).

(* ================================================================= *)
(** ** Hierarchies used in the statements below *)

Module Examples.

(** Three fresh views at the addresses 0, 1 and 2. *)
Definition threeViews : Heap.heap :=
  <[2%nat := Heap.newView zeroStyle]>
    (<[1%nat := Heap.newView zeroStyle]> {[ 0%nat := Heap.newView zeroStyle ]}).

(** View 1 attached to view 0. *)
Definition parentAndChild : Heap.heap :=
  <[1%nat := Heap.set_parent true (Some 0%nat) (Heap.newView zeroStyle)]>
    {[ 0%nat := Heap.set_isDirty true
                  (Heap.set_children [Heap.newChild 1%nat]
                     (Heap.newView zeroStyle)) ]}.

(** A [w] by [h] box with every other field at its zero value. *)
Definition box (w h : float) : Style := with_Height h (with_Width w zeroStyle).

(** Three 100 by 100 children in a wrapping 200 by 200 row, aligned
    start/start (TestFlexWrap). *)
Definition wrapRow : View :=
  AddChild
    (newView (with_Wrap flex.Wrap (with_AlignItems AlignItemStart (box 200 200))))
    [newView (box 100 100); newView (box 100 100); newView (box 100 100)].

(** A wrapping 200 by 200 row whose first child has no main size and
    whose second is 300 wide. *)
Definition zeroThenWide : View :=
  AddChild
    (newView (with_Wrap flex.Wrap (box 200 200)))
    [newView zeroStyle; newView (box 300 100)].

(** A wrapping row without children. *)
Definition emptyWrap : View :=
  newView (with_Wrap flex.Wrap (box 200 200)).

(** A 100 by 100 container with an absolute 10 by 10 child at right 40,
    bottom 50 (TestAbsolutePosRightBottom). *)
Definition absoluteCorner : View :=
  AddChild
    (newView (box 100 100))
    [newView (with_Bottom (Some 50) (with_Right (Some 40)
                (with_Position PositionAbsolute (box 10 10))))].

(** The same container with the child not displayed, and given a left
    offset. *)
Definition absoluteHidden : View :=
  AddChild
    (newView (box 100 100))
    [newView (with_Display DisplayNone (with_Left 10
                (with_Position PositionAbsolute (box 10 10))))].

(** A 500 by 500 row, aligned end/end, with a child of width 100% and a
    child of width 50 (TestWidthInPctRow). *)
Definition percentRow : View :=
  AddChild
    (newView (with_AlignItems AlignItemEnd (with_Justify JustifyEnd (box 500 500))))
    [newView (with_WidthInPct 100 (box 0 100)); newView (box 50 100)].


(** A 100 by 100 row with justify space-between and one 50 by 50 child. *)
Definition spaceBetweenRow : View :=
  AddChild (newView (with_Justify JustifySpaceBetween (box 100 100)))
    [newView (box 50 50)].

(** The hierarchies of some tests of flex_test.go. *)

Definition testNesting : View :=
  AddChild
    (newView (with_Position PositionAbsolute (with_Top 50 (with_Left 100
       (with_AlignItems AlignItemCenter (with_Justify JustifyCenter
          (with_Direction Column (box 300 500))))))))
    [AddChild
       (newView (with_AlignItems AlignItemEnd (with_Justify JustifyEnd
          (with_Direction Column (box 100 200)))))
       [newView (box 30 40)]].

Definition testNestedChildrenGrow : View :=
  AddChild (newView (with_Justify JustifyCenter (box 1000 1000)))
    [AddChild
       (newView (with_Grow 1 (with_Justify JustifyCenter
          (with_Direction Column zeroStyle))))
       [AddChild (newView (with_Grow 1 (with_Justify JustifyCenter zeroStyle)))
          [newView (with_Grow 1 zeroStyle); newView (with_Grow 1 zeroStyle)]]].

Definition testMerginWithChild : View :=
  AddChild
    (newView (with_Justify JustifyEnd (with_AlignItems AlignItemEnd
       (with_Direction Column (box 1000 1000)))))
    [AddChild
       (newView (with_Justify JustifyEnd (with_AlignItems AlignItemEnd
          (with_Direction Column (with_MarginBottom 100
             (with_MarginRight 50 zeroStyle))))))
       [newView (with_Grow 1 (box 100 100))]].

Definition testAbsolutePosNested : View :=
  AddChild
    (newView (with_Wrap flex.Wrap (with_AlignItems AlignItemCenter (box 150 200))))
    [AddChild
       (newView (with_Wrap flex.Wrap (with_AlignItems AlignItemCenter
          (with_Justify JustifyCenter (with_Position PositionAbsolute
             (with_Top 50 (with_Left 100 (box 50 150))))))))
       [newView (box 30 40)]].

Definition testMultiMarginedWrapRowItems : View :=
  AddChild
    (newView (with_Wrap flex.Wrap (with_AlignContent AlignContentCenter
       (with_AlignItems AlignItemCenter (box 200 200)))))
    [newView (with_MarginLeft 10 (with_MarginTop 10 (box 85 85)));
     newView (with_MarginLeft 10 (with_MarginTop 10 (box 85 85)));
     newView (with_MarginLeft 10 (with_MarginTop 10 (box 85 85)));
     newView (with_MarginLeft 10 (with_MarginTop 10 (box 85 85)))].

Definition testShrink : View :=
  AddChild
    (newView (with_AlignItems AlignItemCenter (box 1000 1000)))
    [AddChild
       (newView (with_Justify JustifyCenter (with_Direction Column
          (with_Wrap flex.Wrap (with_Shrink 1 (box 128 0))))))
       [newView (box 128 64); newView (box 128 64); newView (box 128 64);
        newView (box 128 64); newView (box 128 64)]].

End Examples.

(* ================================================================= *)
(** * Properties *)

(* ================================================================= *)
(** ** Facts about float64 comparison *)

Section FloatOrder.

Lemma SFcompare_antisym (x y : spec_float) :
  SFcompare y x = option_map CompOpp (SFcompare x y).
Proof.
  destruct x as [[]|[]| |[] mx ex], y as [[]|[]| |[] my ey]; simpl;
    try reflexivity;
    rewrite (Z.compare_antisym ex ey);
    destruct (ex ?= ey)%Z eqn:E; simpl; try reflexivity;
    pose proof (Pos.compare_cont_antisym mx my Eq) as A; simpl in A;
    rewrite <- A; destruct (Pos.compare_cont Eq mx my); reflexivity.
Qed.

Lemma is_nan_false_spec (x : float) :
  is_nan x = false -> Prim2SF x <> S754_nan.
Proof.
  unfold is_nan. rewrite FloatAxioms.eqb_spec. intros H E.
  rewrite E in H. discriminate.
Qed.

Lemma SFcompare_defined (x y : spec_float) :
  x <> S754_nan -> y <> S754_nan -> exists c, SFcompare x y = Some c.
Proof.
  destruct x, y; simpl; intros; try congruence; eauto.
Qed.

(** On numbers, [!(y < x)] is [x <= y]. *)
Lemma float_not_gt_le (x y : float) :
  is_nan x = false -> is_nan y = false ->
  gtb x y = false -> (x <=? y) = true.
Proof.
  intros Hx Hy. unfold gtb.
  rewrite FloatAxioms.ltb_spec, FloatAxioms.leb_spec. unfold SFltb, SFleb.
  rewrite (SFcompare_antisym (Prim2SF x) (Prim2SF y)).
  destruct (SFcompare_defined _ _ (is_nan_false_spec _ Hx)
              (is_nan_false_spec _ Hy)) as [c ->].
  destruct c; simpl; congruence.
Qed.

Lemma float_gt_le (x y : float) : gtb x y = true -> (y <=? x) = true.
Proof.
  unfold gtb. rewrite FloatAxioms.ltb_spec, FloatAxioms.leb_spec.
  unfold SFltb, SFleb. destruct (SFcompare _ _) as [[]|]; congruence.
Qed.

Lemma Prim2SF_zero : Prim2SF 0 = S754_zero false.
Proof. reflexivity. Qed.

Lemma Prim2SF_infinity : Prim2SF infinity = S754_infinity false.
Proof. reflexivity. Qed.

(** A quotient by zero is an infinity or NaN, whatever the dividend. *)
Lemma div_zero_not_finite (x : float) : is_finite (x / 0) = false.
Proof.
  unfold is_finite, is_nan, is_infinity.
  rewrite !FloatAxioms.eqb_spec, FloatAxioms.abs_spec, FloatAxioms.div_spec,
    Prim2SF_zero, Prim2SF_infinity.
  destruct (Prim2SF x) as [[]|[]| |[] m e]; reflexivity.
Qed.








End FloatOrder.

(* ================================================================= *)
(** ** geo.Rect *)

(** One axis of [geo.Rect]: the pair comes out ordered and holds the two
    arguments. *)
Lemma Rect_axis (a b : float) :
  is_nan a = false -> is_nan b = false ->
  let p := if gtb a b then (b, a) else (a, b) in
  (fst p <=? snd p) = true
  /\ ((fst p = a /\ snd p = b) \/ (fst p = b /\ snd p = a)).
Proof.
  intros Ha Hb. destruct (gtb a b) eqn:E; simpl.
  - split; [now apply float_gt_le | now right].
  - split; [now apply float_not_gt_le | now left].
Qed.

(** C9. For all coordinates that are numbers, [geo.Rect x0 y0 x1 y1]
    returns a rectangle with [Min.X <= Max.X] and [Min.Y <= Max.Y] whose
    corner coordinates are the two given ones on each axis, in either
    argument order; the constructor is a total function. *)
Theorem Rect_normalized (x0 y0 x1 y1 : float) :
  is_nan x0 = false -> is_nan y0 = false ->
  is_nan x1 = false -> is_nan y1 = false ->
  let r := geo.Rect x0 y0 x1 y1 in
  (geo.X (geo.Min r) <=? geo.X (geo.Max r)) = true
  /\ (geo.Y (geo.Min r) <=? geo.Y (geo.Max r)) = true
  /\ ((geo.X (geo.Min r) = x0 /\ geo.X (geo.Max r) = x1)
      \/ (geo.X (geo.Min r) = x1 /\ geo.X (geo.Max r) = x0))
  /\ ((geo.Y (geo.Min r) = y0 /\ geo.Y (geo.Max r) = y1)
      \/ (geo.Y (geo.Min r) = y1 /\ geo.Y (geo.Max r) = y0)).
Proof.
  intros Hx0 Hy0 Hx1 Hy1 r.
  destruct (Rect_axis x0 x1 Hx0 Hx1) as [Lx Px].
  destruct (Rect_axis y0 y1 Hy0 Hy1) as [Ly Py].
  subst r. unfold geo.Rect.
  destruct (gtb x0 x1), (gtb y0 y1); simpl in *; auto.
Qed.

Lemma Rect_normalized_witness :
  let r := geo.Rect 60 50 50 40 in
  (geo.X (geo.Min r) <=? geo.X (geo.Max r)) = true
  /\ (geo.Y (geo.Min r) <=? geo.Y (geo.Max r)) = true
  /\ ((geo.X (geo.Min r) = 60 /\ geo.X (geo.Max r) = 50)
      \/ (geo.X (geo.Min r) = 50 /\ geo.X (geo.Max r) = 60))
  /\ ((geo.Y (geo.Min r) = 50 /\ geo.Y (geo.Max r) = 40)
      \/ (geo.Y (geo.Min r) = 40 /\ geo.Y (geo.Max r) = 50)).
Proof.
  apply (Rect_normalized 60 50 50 40); reflexivity.
Defined.

(* ================================================================= *)
(** ** The node operations of view.go *)

Section NodeOperations.

Import Heap.

Lemma store_Some (v : ptr) (g : View -> View) (h : heap) (r : View) :
  h !! v = Some r -> store v g h = Some (<[v := g r]> h).
Proof. intros E. unfold store. rewrite E. reflexivity. Qed.

(** C10. On a view with an empty child list [PopChild] returns [nil] and
    leaves the heap as it was: the child list stays empty and the dirty
    flag keeps its value. *)
Theorem PopChild_empty (v : ptr) (h : heap) (r : View) :
  h !! v = Some r -> children r = [] ->
  PopChild v h = Some (h, None).
Proof.
  intros Hv Hc. unfold PopChild. rewrite Hv. simpl. rewrite Hc. reflexivity.
Qed.

Lemma PopChild_empty_witness :
  PopChild 0%nat {[ 0%nat := newView zeroStyle ]}
  = Some ({[ 0%nat := newView zeroStyle ]}, None).
Proof.
  apply (PopChild_empty 0%nat {[ 0%nat := newView zeroStyle ]}
           (newView zeroStyle)).
  - reflexivity.
  - reflexivity.
Defined.

(** [Layout] on a view without a parent touches that view alone. *)
Lemma Layout_root (v : ptr) (h : heap) (r : View) :
  h !! v = Some r -> hasParent r = false ->
  Layout v h = Some (<[v := set_isDirty true r]> h).
Proof.
  intros Hv Hp. unfold Layout. rewrite Hv. simpl.
  rewrite (store_Some _ _ _ _ Hv). simpl. rewrite Hp. reflexivity.
Qed.

(** [Layout] on a view with a parent marks both. *)
Lemma Layout_child (v p : ptr) (h : heap) (r rp : View) :
  h !! v = Some r -> hasParent r = true -> parent r = Some p ->
  <[v := set_isDirty true r]> h !! p = Some rp ->
  Layout v h
  = Some (<[p := set_isDirty true rp]> (<[v := set_isDirty true r]> h)).
Proof.
  intros Hv Hp Hpar Hrp. unfold Layout. rewrite Hv. simpl.
  rewrite (store_Some _ _ _ _ Hv). simpl. rewrite Hp, Hpar. simpl.
  rewrite (store_Some _ _ _ _ Hrp). reflexivity.
Qed.

(** What an assignment followed by [Layout] does to the heap. *)
Lemma assign_spec (g : Style -> Style) (v : ptr) (h : heap) (r : View) :
  h !! v = Some r ->
  (hasParent r = true -> exists p, parent r = Some p /\ is_Some (h !! p)) ->
  exists h',
    assign g v h = Some h'
    /\ h' !! v = Some (set_isDirty true (set_style (g r) r))
    /\ (forall p rp, hasParent r = true -> parent r = Some p -> p <> v ->
        h !! p = Some rp -> h' !! p = Some (set_isDirty true rp))
    /\ (forall q, q <> v -> (hasParent r = true -> parent r <> Some q) ->
        h' !! q = h !! q).
Proof.
  intros Hv Hpar. unfold assign.
  rewrite (store_Some _ _ _ _ Hv). simpl.
  set (r1 := set_style (g r) r).
  assert (H1 : <[v := r1]> h !! v = Some r1) by apply lookup_insert_eq.
  destruct (hasParent r) eqn:Hp.
  - destruct (Hpar eq_refl) as (p & Ep & [rp Hrp]).
    destruct (decide (p = v)) as [->|Hne].
    + eexists. split.
      * apply (Layout_child v v _ r1 (set_isDirty true r1)); auto.
        apply lookup_insert_eq.
      * rewrite !insert_insert_eq. split; [apply lookup_insert_eq|].
        split.
        -- intros p rp' _ Ep'. congruence.
        -- intros q Hq _. now rewrite lookup_insert_ne.
    + eexists. split.
      * apply (Layout_child v p _ r1 rp); auto.
        rewrite !lookup_insert_ne by auto. exact Hrp.
      * split; [|split].
        -- rewrite lookup_insert_ne by auto. rewrite insert_insert_eq.
           apply lookup_insert_eq.
        -- intros p' rp' _ Ep' _ Hrp'.
           assert (p' = p) as -> by congruence.
           rewrite lookup_insert_eq. congruence.
        -- intros q Hq Hq'.
           assert (p <> q) by (intros ->; now apply Hq').
           now rewrite !lookup_insert_ne.
  - eexists. split; [apply (Layout_root v _ r1); auto|].
    rewrite insert_insert_eq. split; [apply lookup_insert_eq|]. split.
    + intros p rp Habs. discriminate.
    + intros q Hq _. now rewrite lookup_insert_ne.
Qed.

(** C8. Each of the setters writes its attribute and sets the dirty flag
    of its view; when the view has a parent it sets the parent's dirty
    flag as well; nothing else of the two views changes, and no other
    view changes. *)
Theorem setter_marks_dirty (s : setter) (v : ptr) (h : heap) (r : View) :
  h !! v = Some r ->
  (hasParent r = true -> exists p, parent r = Some p /\ is_Some (h !! p)) ->
  exists h',
    call s v h = Some h'
    /\ h' !! v = Some (set_isDirty true (set_style (written s r) r))
    /\ (forall p rp, hasParent r = true -> parent r = Some p -> p <> v ->
        h !! p = Some rp -> h' !! p = Some (set_isDirty true rp))
    /\ (forall q, q <> v -> (hasParent r = true -> parent r <> Some q) ->
        h' !! q = h !! q).
Proof.
  intros Hv Hpar. destruct s; simpl; now apply assign_spec.
Qed.

Lemma setter_marks_dirty_witness :
  exists h',
    call (CallSetWidth 50) 1%nat Examples.parentAndChild = Some h'
    /\ h' !! 1%nat
       = Some (set_isDirty true
                 (set_style
                    (written (CallSetWidth 50)
                       (set_parent true (Some 0%nat) (newView zeroStyle)))
                    (set_parent true (Some 0%nat) (newView zeroStyle))))
    /\ (forall p rp,
          hasParent (set_parent true (Some 0%nat) (newView zeroStyle)) = true ->
          parent (set_parent true (Some 0%nat) (newView zeroStyle)) = Some p ->
          p <> 1%nat ->
          Examples.parentAndChild !! p = Some rp ->
          h' !! p = Some (set_isDirty true rp))
    /\ (forall q, q <> 1%nat ->
          (hasParent (set_parent true (Some 0%nat) (newView zeroStyle)) = true ->
           parent (set_parent true (Some 0%nat) (newView zeroStyle)) <> Some q) ->
          h' !! q = Examples.parentAndChild !! q).
Proof.
  apply (setter_marks_dirty (CallSetWidth 50) 1%nat Examples.parentAndChild
           (set_parent true (Some 0%nat) (newView zeroStyle))).
  - reflexivity.
  - intros _. exists 0%nat. split; [reflexivity|]. eexists. reflexivity.
Defined.

(** [AddTo] refuses a view that has a parent. *)
Lemma AddTo_parented_panics (v p : ptr) (h : heap) (r : View) :
  h !! v = Some r -> hasParent r = true -> AddTo v p h = None.
Proof.
  intros Hv Hp. unfold AddTo. rewrite Hv. simpl. now rewrite Hp.
Qed.

(** [addChild] has no such test: it appends the view to the new
    container and redirects the back-reference, whatever parent the view
    had, and the former parent's child list is left as it was. *)
Lemma addChild_parented (v cv : ptr) (h : heap) (r rc : View) :
  h !! v = Some r -> h !! cv = Some rc -> cv <> v ->
  exists h',
    addChild v cv h = Some h'
    /\ h' !! v = Some (set_isDirty true
                         (set_children (children r ++ [newChild cv]) r))
    /\ h' !! cv = Some (set_parent true (Some v) rc)
    /\ (forall q, q <> v -> q <> cv -> h' !! q = h !! q).
Proof.
  intros Hv Hc Hne. unfold addChild. rewrite Hv. simpl.
  rewrite (store_Some _ _ _ _ Hv). simpl.
  rewrite (store_Some v _ _ (set_children (children r ++ [newChild cv]) r))
    by apply lookup_insert_eq.
  simpl. rewrite insert_insert_eq.
  rewrite (store_Some cv _ _ rc) by (now rewrite lookup_insert_ne).
  eexists. split; [reflexivity|]. split; [|split].
  - rewrite lookup_insert_ne by auto. apply lookup_insert_eq.
  - apply lookup_insert_eq.
  - intros q Hq Hq'. now rewrite !lookup_insert_ne.
Qed.

(** C1, evaluated. View 2 is attached to view 0 with [AddTo].  A second
    [AddTo] to view 1 panics, but [AddChild] and [addChild] on view 1
    accept it: view 2 is then held by both containers and its
    back-reference points to view 1. *)
Theorem AddChild_parented_attaches :
  exists h1 h2,
    AddTo 2%nat 0%nat Examples.threeViews = Some h1
    /\ (hasParent <$> h1 !! 2%nat) = Some true
    /\ AddTo 2%nat 1%nat h1 = None
    /\ AddChild 1%nat [2%nat] h1 = Some h2
    /\ addChild 1%nat 2%nat h1 = Some h2
    /\ (children <$> h2 !! 0%nat) = Some [newChild 2%nat]
    /\ (children <$> h2 !! 1%nat) = Some [newChild 2%nat]
    /\ (parent <$> h2 !! 2%nat) = Some (Some 1%nat).
Proof.
  do 2 eexists. repeat split; vm_compute; reflexivity.
Qed.

End NodeOperations.

(* ================================================================= *)
(** ** What a layout pass leaves alone

    A pass rewrites frames, bounds, dirty flags and calculated sizes.  The
    style of every view, the list of its children and its [hasParent]
    mark are never written; [core] collects them for a child entry.
    Between percentage resolution and the commit loop the entries are not
    written at all. *)

Lemma View_nested_ind (P : View -> Prop) :
  (forall v, Forall (fun c => P (item c)) (children v) -> P v) ->
  forall v, P v.
Proof.
  intros H. fix IH 1. intros v. apply H.
  destruct v as [s cs d fr cw ch hp]. simpl.
  revert cs. fix IHcs 1. intros [|c cs].
  - constructor.
  - constructor; [apply IH | apply IHcs].
Qed.

Lemma cons_eq_split {A} (a b : A) (l l' : list A) :
  a :: l = b :: l' -> a = b /\ l = l'.
Proof. intros H. now inversion H. Qed.

Lemma lnodes_map_child (g : element.t -> element.t) (lines : list flexLine.t) :
  (forall e, element.node (g e) = element.node e) ->
  lnodes (map (flexLine.map_child g) lines) = lnodes lines.
Proof.
  intros Hg. unfold lnodes. induction lines as [|l ls IH]; [reflexivity|].
  simpl. rewrite !map_app, IH. f_equal.
  rewrite map_map. apply map_ext. exact Hg.
Qed.

Lemma lnodes_map_line (g : flexLine.t -> flexLine.t) (lines : list flexLine.t) :
  (forall l, map element.node (flexLine.child (g l))
             = map element.node (flexLine.child l)) ->
  lnodes (map g lines) = lnodes lines.
Proof.
  intros Hg. unfold lnodes. induction lines as [|l ls IH]; [reflexivity|].
  simpl. rewrite !map_app, IH, Hg. reflexivity.
Qed.

Lemma lnodes_same_children (lines lines' : list flexLine.t) :
  map flexLine.child lines' = map flexLine.child lines ->
  lnodes lines' = lnodes lines.
Proof. unfold lnodes. now intros ->. Qed.

(** *** Line collection: the lines partition the children in flow order *)

Lemma wrapStep_concat (f : View) (cms : float) (es : list element.t)
    (lines : list flexLine.t) (line : flexLine.t) :
  let '(lines', line') := fold_left (wrapStep f cms) es (lines, line) in
  concat (map flexLine.child lines') ++ flexLine.child line'
  = concat (map flexLine.child lines) ++ flexLine.child line
    ++ map (withMainMargin f) es.
Proof.
  revert lines line. induction es as [|e es IH]; intros lines line; simpl.
  - now rewrite app_nil_r.
  - destruct (startsNewLine cms line (withMainMargin f e)).
    + specialize (IH (lines ++ [line])
                     (flexLine.mk
                        (flexLine.mainSize flexLine.zero
                         + hypotheticalMainSize (withMainMargin f e))
                        (flexLine.crossSize flexLine.zero)
                        (flexLine.crossOffset flexLine.zero)
                        (flexLine.child flexLine.zero ++ [withMainMargin f e]))).
      destruct (fold_left _ _ _) as [lines' line']. rewrite IH.
      rewrite map_app, concat_app. simpl.
      rewrite app_nil_r, <- !app_assoc. reflexivity.
    + specialize (IH lines
                     (flexLine.mk
                        (flexLine.mainSize line
                         + hypotheticalMainSize (withMainMargin f e))
                        (flexLine.crossSize line) (flexLine.crossOffset line)
                        (flexLine.child line ++ [withMainMargin f e]))).
      destruct (fold_left _ _ _) as [lines' line']. rewrite IH.
      simpl. rewrite <- !app_assoc. reflexivity.
Qed.

Lemma collectLines_concat (f : View) (cms : float) (es : list element.t) :
  concat (map flexLine.child (collectLines f cms es))
  = map (withMainMargin f) es.
Proof.
  assert (M : concat (map flexLine.child (multiLine f cms es))
              = map (withMainMargin f) es).
  { unfold multiLine.
    pose proof (wrapStep_concat f cms es [] flexLine.zero) as H.
    destruct (fold_left _ _ _) as [lines line]. simpl in H.
    destruct (0 <? length (flexLine.child line))%nat eqn:E; simpl.
    - rewrite map_app, concat_app. simpl. now rewrite app_nil_r.
    - apply Nat.ltb_ge in E.
      assert (flexLine.child line = []) as E0
          by (destruct (flexLine.child line); simpl in *; [auto|lia]).
      rewrite E0, app_nil_r in H.
      destruct (length es =? 0)%nat; [|exact H].
      rewrite map_app, concat_app. simpl. now rewrite E0, !app_nil_r. }
  unfold collectLines. destruct (Wrap f); auto.
  simpl. now rewrite app_nil_r.
Qed.

Lemma lnodes_collectLines (f : View) (cms : float) (es : list element.t) :
  lnodes (collectLines f cms es) = map element.node es.
Proof.
  unfold lnodes. rewrite collectLines_concat, map_map. reflexivity.
Qed.

(** *** The passes over the lines *)

Ltac node_cases :=
  intros;
  repeat match goal with
         | |- context [if ?b then _ else _] => destruct b
         | |- context [match ?x with _ => _ end] => destruct x
         end;
  reflexivity.

Lemma map_node_ext (g : element.t -> element.t) (es : list element.t) :
  (forall e, element.node (g e) = element.node e) ->
  map element.node (map g es) = map element.node es.
Proof. intros Hg. rewrite map_map. now apply map_ext. Qed.

Lemma node_freeze f grow e :
  element.node (freeze f grow e) = element.node e.
Proof. unfold freeze. node_cases. Qed.

Lemma node_growChild f r u e :
  element.node (growChild f r u e) = element.node e.
Proof. unfold growChild. node_cases. Qed.

Lemma node_shrinkChild f r s e :
  element.node (shrinkChild f r s e) = element.node e.
Proof. unfold shrinkChild. node_cases. Qed.

Lemma node_flexLoop f grow w h fs es :
  map element.node (flexLoop f grow w h fs es) = map element.node es.
Proof.
  unfold flexLoop. destruct (forallb _ _); [reflexivity|].
  unfold distribute. destruct (remainingFreeSpace _ _ _ _ _) as [r u].
  rewrite map_node_ext by reflexivity.
  destruct grow; apply map_node_ext; intros e;
    [apply node_growChild | apply node_shrinkChild].
Qed.

Lemma node_resolveFlexibleLengths f w h line :
  map element.node (flexLine.child (resolveFlexibleLengths f w h line))
  = map element.node (flexLine.child line).
Proof.
  unfold resolveFlexibleLengths. simpl. rewrite node_flexLoop.
  apply map_node_ext. intros e. apply node_freeze.
Qed.

Lemma child_lineCrossSizes ccs lines :
  map flexLine.child (lineCrossSizes ccs lines) = map flexLine.child lines.
Proof.
  unfold lineCrossSizes. destruct lines as [|l [|l' ls]]; try reflexivity.
  rewrite map_map. reflexivity.
Qed.

Lemma child_stackLines off lines :
  map flexLine.child (fst (stackLines off lines)) = map flexLine.child lines.
Proof.
  revert off. induction lines as [|l ls IH]; intros off; [reflexivity|].
  simpl. specialize (IH (off + flexLine.crossSize l)).
  destruct (stackLines _ ls) as [rest off']. simpl in *. now rewrite IH.
Qed.

Lemma child_alignContentStretch f ccs off lines :
  map flexLine.child (alignContentStretch f ccs off lines)
  = map flexLine.child lines.
Proof.
  unfold alignContentStretch.
  destruct (AlignContent f); try reflexivity.
  destruct (gtb _ _); [|reflexivity].
  generalize ((ccs - off) / float64_of_int (Z.of_nat (length lines))).
  intros add. change (map flexLine.child) with (fmap (M := list) flexLine.child).
  rewrite fmap_imap. rewrite <- imap_const. apply imap_ext. reflexivity.
Qed.

Lemma node_stretchItem f line e :
  element.node (stretchItem f line e) = element.node e.
Proof. unfold stretchItem. node_cases. Qed.

Lemma node_placeMain off spacing es :
  map element.node (placeMain off spacing es) = map element.node es.
Proof.
  revert off. induction es as [|e es IH]; intros off; [reflexivity|].
  simpl. now rewrite IH.
Qed.

Lemma node_alignMain f cms line :
  map element.node (flexLine.child (alignMain f cms line))
  = map element.node (flexLine.child line).
Proof.
  unfold alignMain. destruct (justify _ _ _) as [off spacing]. simpl.
  apply node_placeMain.
Qed.

Lemma node_alignCrossChild f line e :
  element.node (alignCrossChild f line e) = element.node e.
Proof. unfold alignCrossChild. node_cases. Qed.

Lemma lnodes_shiftLines off spacing lines :
  lnodes (shiftLines off spacing lines) = lnodes lines.
Proof.
  unfold lnodes. revert off.
  induction lines as [|l ls IH]; intros off; [reflexivity|].
  simpl. rewrite !map_app, IH. f_equal. now apply map_node_ext.
Qed.

Lemma lnodes_alignLines f ccs lines :
  lnodes (alignLines f ccs lines) = lnodes lines.
Proof.
  unfold alignLines. destruct (gtb _ _); [|reflexivity].
  destruct (alignContentSpacing _ _ _) as [spacing off].
  destruct (AlignContent f); try reflexivity; apply lnodes_shiftLines.
Qed.

(** When the pass reaches the commit loop the lines hold the entries, in
    flow order, as percentage resolution left them. *)
Lemma lnodes_layoutLines f w h es :
  lnodes (layoutLines f w h es) = map element.node (resolvePercent f w h es).
Proof.
  unfold layoutLines.
  destruct (stackLines 0 _) as [lines off] eqn:E.
  rewrite lnodes_alignLines.
  rewrite (lnodes_map_line (alignCross f))
    by (intros l; apply map_node_ext, node_alignCrossChild).
  rewrite (lnodes_map_line (alignMain f _)) by apply node_alignMain.
  rewrite (lnodes_map_line (stretchItems f))
    by (intros l; apply map_node_ext, node_stretchItem).
  rewrite (lnodes_same_children _ _ (child_alignContentStretch f _ off lines)).
  assert (lines = fst (stackLines 0
            (lineCrossSizes (crossSize f w h)
               (map (flexLine.map_child (hypotheticalCross f))
                  (map (resolveFlexibleLengths f w h)
                     (collectLines f (mainSize f w h)
                        (resolvePercent f w h es))))))) as ->
      by now rewrite E.
  rewrite (lnodes_same_children _ _ (child_stackLines _ _)).
  rewrite (lnodes_same_children _ _ (child_lineCrossSizes _ _)).
  rewrite lnodes_map_child by reflexivity.
  rewrite (lnodes_map_line _ _ (node_resolveFlexibleLengths f w h)).
  apply lnodes_collectLines.
Qed.

(** *** Percentage resolution *)

Lemma ecore_map_view (g : View -> View) (e : element.t) :
  (forall v, style (g v) = style v /\ children (g v) = children v
             /\ hasParent (g v) = hasParent v) ->
  ecore (element.map_view g e) = ecore e.
Proof.
  intros Hg. unfold ecore, core. simpl.
  destruct (Hg (item (element.node e))) as (-> & -> & ->). reflexivity.
Qed.

Lemma ecore_resolvePercent (f : View) (w h : float) (es : list element.t) :
  map ecore (resolvePercent f w h es) = map ecore es.
Proof.
  assert (A : forall (g : element.t -> element.t) l,
             (forall e, ecore (g e) = ecore e) -> map ecore (map g l) = map ecore l).
  { intros g l Hg. rewrite map_map. now apply map_ext. }
  assert (W : forall x e, ecore (resolveMainWidth w x e) = ecore e).
  { intros x e. unfold resolveMainWidth. destruct (gtb _ _); [|reflexivity].
    now apply ecore_map_view. }
  assert (Hh : forall x e, ecore (resolveMainHeight h x e) = ecore e).
  { intros x e. unfold resolveMainHeight. destruct (gtb _ _); [|reflexivity].
    now apply ecore_map_view. }
  assert (CH : forall e, ecore (resolveCrossHeight h e) = ecore e).
  { intros e. unfold resolveCrossHeight. destruct (gtb _ _); [|reflexivity].
    now apply ecore_map_view. }
  assert (CW : forall e, ecore (resolveCrossWidth w e) = ecore e).
  { intros e. unfold resolveCrossWidth. destruct (gtb _ _); [|reflexivity].
    now apply ecore_map_view. }
  unfold resolvePercent. destruct (Direction f).
  - rewrite (A _ _ CH). destruct (gtb _ _); [now apply A | reflexivity].
  - rewrite (A _ _ CW). destruct (gtb _ _); [now apply A | reflexivity].
Qed.

(** *** Scan, commit and write-back *)

Lemma core_scanChild f c : core (fst (scanChild f c)) = core c.
Proof. unfold scanChild. node_cases. Qed.

Lemma inFlow_core c c' : core c = core c' -> inFlow c = inFlow c'.
Proof. unfold core, inFlow. intros E. injection E as -> _ _. reflexivity. Qed.

(** The elements stand for the in-flow entries, in order. *)
Lemma flowElements_eq f :
  flowElements f
  = map (fun c => newElement f (mkChild (item c) (bounds c) false))
        (List.filter inFlow (children f)).
Proof.
  unfold flowElements. induction (children f) as [|c cs IH]; [reflexivity|].
  simpl. unfold scanChild at 1, inFlow at 1.
  destruct (Display (item c)), (Position (item c)); simpl;
    [f_equal|..]; apply IH.
Qed.

Lemma scan_elements f :
  map ecore (flowElements f) = map core (List.filter inFlow (children f)).
Proof. rewrite flowElements_eq, map_map. reflexivity. Qed.

Lemma core_writeBack cs nodes :
  map core nodes = map core (List.filter inFlow cs) ->
  map core (writeBack cs nodes) = map core cs.
Proof.
  revert nodes. induction cs as [|c cs IH]; intros nodes H; [reflexivity|].
  simpl in *. destruct (inFlow c).
  - destruct nodes as [|n ns]; simpl in *; [discriminate|].
    apply cons_eq_split in H as [Hn Hns]. now rewrite Hn, IH.
  - simpl. now rewrite IH.
Qed.

(** The in-flow entries of the written-back list are the nodes. *)
Lemma filter_writeBack cs nodes :
  map core nodes = map core (List.filter inFlow cs) ->
  List.filter inFlow (writeBack cs nodes) = nodes.
Proof.
  revert nodes. induction cs as [|c cs IH]; intros nodes H.
  - destruct nodes; [reflexivity | discriminate].
  - simpl in *. destruct (inFlow c) eqn:E.
    + destruct nodes as [|n ns]; simpl in *; [discriminate|].
      apply cons_eq_split in H as [Hn Hns].
      rewrite (inFlow_core _ _ Hn), E. now rewrite IH.
    + simpl. rewrite E. now apply IH.
Qed.

Lemma filter_inFlow_core cs cs' :
  map core cs = map core cs' ->
  map core (List.filter inFlow cs) = map core (List.filter inFlow cs').
Proof.
  revert cs'. induction cs as [|c cs IH]; intros [|c' cs'] H;
    try discriminate; [reflexivity|].
  simpl in *. apply cons_eq_split in H as [Hc Hcs].
  rewrite (inFlow_core _ _ Hc). destruct (inFlow c'); simpl;
    now rewrite ?Hc, (IH _ Hcs).
Qed.

Lemma layout_children_eq (f : View) (w h : float) :
  children (layout f w h)
  = writeBack (map fst (map (scanChild f) (children f))) (committedNodes f w h).
Proof.
  unfold layout, committedNodes, flowElements.
  destruct (intrinsicMain _) as [lines ims]. reflexivity.
Qed.

Lemma core_scanned f :
  map core (map fst (map (scanChild f) (children f))) = map core (children f).
Proof. rewrite !map_map. apply map_ext. intros c. apply core_scanChild. Qed.

(** Committing writes the frame, the dirty flag and the bounds. *)
Lemma committedNodes_eq f w h :
  committedNodes f w h
  = map (fun e => element.node (commitChild f e))
        (concat (map flexLine.child
           (fst (intrinsicMain (layoutLines f w h (flowElements f)))))).
Proof.
  unfold committedNodes, lnodes.
  induction (fst (intrinsicMain _)) as [|l ls IH]; [reflexivity|].
  simpl. rewrite !map_app, IH. f_equal. now rewrite map_map.
Qed.

Lemma committedNodes_project {T} (p : child View -> T) f w h :
  (forall e, p (element.node (commitChild f e)) = p (element.node e)) ->
  map p (committedNodes f w h)
  = map p (map element.node (resolvePercent f w h (flowElements f))).
Proof.
  intros Hp. rewrite committedNodes_eq, <- lnodes_layoutLines.
  unfold intrinsicMain. simpl.
  rewrite <- (lnodes_map_child flexFraction) by reflexivity.
  unfold lnodes. rewrite !map_map. apply map_ext. exact Hp.
Qed.

Lemma core_committedNodes f w h :
  map core (committedNodes f w h)
  = map core (List.filter inFlow (map fst (map (scanChild f) (children f)))).
Proof.
  rewrite (committedNodes_project core) by reflexivity.
  rewrite map_map. change (fun x => core (element.node x)) with ecore.
  rewrite ecore_resolvePercent, scan_elements.
  symmetry. apply filter_inFlow_core, core_scanned.
Qed.

(** A pass leaves the core of every entry of the child list as it was. *)
Lemma layout_core f w h :
  map core (children (layout f w h)) = map core (children f).
Proof.
  rewrite layout_children_eq, core_writeBack by apply core_committedNodes.
  apply core_scanned.
Qed.

(** The in-flow entries after a pass are the committed nodes. *)
Lemma layout_flow_children f w h :
  List.filter inFlow (children (layout f w h)) = committedNodes f w h.
Proof.
  rewrite layout_children_eq. apply filter_writeBack, core_committedNodes.
Qed.

(* ================================================================= *)
(** ** The tick *)

Lemma startLayout_eq (v : View) :
  startLayout v
  = let fr :=
      if negb (hasParent v)
      then geo.Rect (Left v) (Top v) (Left v + Width v) (Top v + Height v)
      else frame v in
    let cs :=
      map (fun c : child View =>
             match Position (item c) with
             | PositionStatic => map_item startLayout c
             | PositionAbsolute => c
             end)
          (children v) in
    let v := set_children cs (set_frame fr v) in
    set_isDirty false (layout v (geo.Dx (frame v)) (geo.Dy (frame v))).
Proof. destruct v; reflexivity. Qed.

(** [startLayout] ends by clearing the flag of its receiver. *)
Lemma startLayout_clean (v : View) : isDirty (startLayout v) = false.
Proof. rewrite startLayout_eq. reflexivity. Qed.

Lemma depth_eq (v : View) :
  depth v = S (fold_right Nat.max O (map (fun c => depth (item c)) (children v))).
Proof. destruct v; reflexivity. Qed.

Lemma depth_of_core (l l' : list (child View)) :
  map core l = map core l' ->
  map (fun c => depth (item c)) l = map (fun c => depth (item c)) l'.
Proof.
  revert l'. induction l as [|c l IH]; intros [|c' l'] H; try discriminate;
    [reflexivity|].
  simpl in H. apply cons_eq_split in H as [Hc Hl].
  simpl. rewrite (IH _ Hl). f_equal.
  rewrite (depth_eq (item c)), (depth_eq (item c')).
  unfold core in Hc. now inversion Hc.
Qed.

(** A layout pass keeps the shape of the tree. *)
Lemma depth_startLayout (v : View) : depth (startLayout v) = depth v.
Proof.
  induction v as [v IH] using View_nested_ind.
  rewrite startLayout_eq. cbv zeta.
  rewrite depth_eq, (depth_eq v). f_equal. f_equal.
  change (children (set_isDirty false ?x)) with (children x).
  rewrite (depth_of_core _ _ (layout_core _ _ _)).
  change (children (set_children ?cs _)) with cs.
  rewrite map_map. apply map_ext_Forall.
  eapply Forall_impl; [exact IH|]. intros c Hc. simpl in Hc |- *.
  destruct (Position (item c)); [exact Hc | reflexivity].
Qed.

Lemma Update_total (n : nat) (v : View) :
  (depth v <= n)%nat -> is_Some (Update n v).
Proof.
  revert v. induction n as [|n IH]; intros v Hd.
  - rewrite depth_eq in Hd. lia.
  - simpl.
    set (v0 := if isDirty v then startLayout v else v).
    assert (D0 : depth v0 = depth v)
      by (subst v0; destruct (isDirty v); [apply depth_startLayout|reflexivity]).
    assert (S0 : is_Some (mapM (fun c : child View =>
                   it ← Update n (item c);
                   Some (mkChild it (bounds c) (absolute c))) (children v0))).
    { apply mapM_is_Some. rewrite depth_eq in D0. rewrite <- D0 in Hd.
      apply Nat.succ_le_mono in Hd. clear D0.
      induction (children v0) as [|c cs IHcs]; constructor.
      - simpl in Hd. destruct (IH (item c)) as [it Hit]; [lia|].
        simpl. rewrite Hit. simpl. eauto.
      - apply IHcs. simpl in Hd. lia. }
    destruct S0 as [cs ->]. simpl. eauto.
Qed.

Lemma Update_stable (n : nat) (v v1 : View) :
  Update n v = Some v1 -> Update n v1 = Some v1 /\ cleanb v1 = true.
Proof.
  revert v v1. induction n as [|n IH]; intros v v1 H; [discriminate|].
  simpl in H.
  set (v0 := if isDirty v then startLayout v else v) in H.
  assert (C0 : isDirty v0 = false).
  { subst v0. destruct (isDirty v) eqn:E; [apply startLayout_clean|exact E]. }
  destruct (mapM _ (children v0)) as [cs|] eqn:M; [|discriminate].
  simpl in H. injection H as <-.
  apply mapM_Some_1 in M.
  assert (F : Forall (fun c : child View =>
                Update n (item c) = Some (item c) /\ cleanb (item c) = true) cs).
  { clear -M IH. induction M as [|c c' l l' Hc _ IHM]; constructor; [|exact IHM].
    destruct (Update n (item c)) as [it|] eqn:E; [|discriminate].
    simpl in Hc. injection Hc as <-. simpl. now apply (IH (item c)). }
  split.
  - simpl. change (isDirty (set_children cs v0)) with (isDirty v0). rewrite C0.
    change (children (set_children cs v0)) with cs.
    assert (M' : mapM (fun c : child View =>
                   it ← Update n (item c);
                   Some (mkChild it (bounds c) (absolute c))) cs = Some cs).
    { apply mapM_Some_2. clear -F.
      induction F as [|c l [Hc _] _ IHF]; constructor; [|exact IHF].
      rewrite Hc. simpl. now destruct c. }
    rewrite M'. reflexivity.
  - destruct v0 as [s0 cs0 d0 f0 cw0 ch0 hp0]. simpl in C0. subst d0.
    simpl. clear -F. induction F as [|c l [_ Hc] _ IHF]; [reflexivity|].
    simpl. now rewrite Hc.
Qed.

(** More fuel does not change the result of a tick. *)
Lemma Update_fuel (n m : nat) (v v1 : View) :
  Update n v = Some v1 -> (n <= m)%nat -> Update m v = Some v1.
Proof.
  revert m v v1. induction n as [|n IH]; intros m v v1 H Hm; [discriminate|].
  destruct m as [|m]; [lia|]. simpl in H |- *.
  destruct (mapM _ _) as [cs|] eqn:M; [|discriminate].
  apply mapM_Some_1 in M.
  assert (M' : mapM (fun c : child View =>
                 it ← Update m (item c);
                 Some (mkChild it (bounds c) (absolute c)))
                 (children (if isDirty v then startLayout v else v)) = Some cs).
  { apply mapM_Some_2. eapply Forall2_impl; [exact M|].
    intros c c' Hc. simpl in Hc |- *.
    destruct (Update n (item c)) as [it|] eqn:E; [|discriminate].
    rewrite (IH m _ _ E) by lia. exact Hc. }
  rewrite M'. exact H.
Qed.

(** C7. One tick over a view tree ends with a result (any fuel from the
    depth of the tree on gives the same one); a second tick over that
    result changes nothing, so every frame is what the first tick made
    it; and the first tick leaves the dirty flag of the root, and of
    every view below it, clear, so the second tick lays nothing out. *)
Theorem Update_idempotent (v : View) :
  exists v1,
    (forall n, (depth v <= n)%nat ->
               Update n v = Some v1 /\ Update n v1 = Some v1)
    /\ isDirty v1 = false
    /\ cleanb v1 = true.
Proof.
  destruct (Update_total (depth v) v (Nat.le_refl _)) as [v1 H].
  exists v1. destruct (Update_stable _ _ _ H) as [H1 H2].
  repeat split; auto.
  - now apply (Update_fuel (depth v)).
  - now apply (Update_fuel (depth v)).
  - destruct v1; simpl in *. apply andb_true_iff in H2 as [H2 _].
    now apply negb_true_iff in H2.
Qed.

(* ================================================================= *)
(** ** Main-axis alignment of a line with one child *)

(** Two floats that [==] tells apart are different. *)
Lemma float_neq (x y : float) : (x =? y) = negb (x =? x) -> x <> y.
Proof.
  intros H E. subst y. destruct (x =? x); discriminate.
Qed.

(** C2, where the program departs from the specification: with 50 left
    over, the spacing that space-between computes for a line of one child
    is [50 / 0], which is [+Inf] and not zero. *)
Lemma spaceBetween_single_child_spacing :
  justify JustifySpaceBetween 50 1 = (0, infinity)
  /\ snd (justify JustifySpaceBetween 50 1) <> 0.
Proof.
  split; [reflexivity|]. apply float_neq. reflexivity.
Qed.

(** C2, as the program has it. For a line with exactly one child under
    space-between the initial offset is zero and the child is placed at
    zero plus its leading margin; the spacing is the left-over divided by
    zero, an infinity or NaN, which is added to the running offset only
    after the child has been placed and so reaches no child.  A 50 by 50
    child alone in a 100 by 100 space-between row gets the frame
    [0,0,50,50]. *)
Theorem spaceBetween_single_child :
  (forall (f : View) (containerMainSize : float) (line : flexLine.t)
          (e : element.t),
      Justify f = JustifySpaceBetween ->
      flexLine.child line = [e] ->
      let remFree := containerMainSize - lineTotal [e] in
      justify (Justify f) remFree (length (flexLine.child line))
      = (0, remFree / 0)
      /\ is_finite (remFree / 0) = false
      /\ flexLine.child (alignMain f containerMainSize line)
         = [element.set_mainOffset (0 + fst (element.mainMargin e)) e])
  /\ childFrames <$> Update 2 Examples.spaceBetweenRow
     = Some [geo.mkRectangle (geo.Pt 0 0) (geo.Pt 50 50)].
Proof.
  split; [|vm_compute; reflexivity].
  intros f containerMainSize line e Hj Hc remFree. split; [|split].
  - rewrite Hj, Hc. reflexivity.
  - apply div_zero_not_finite.
  - unfold alignMain. rewrite Hc, Hj. reflexivity.
Qed.

Lemma spaceBetween_single_child_witness :
  let f := beforeLayout Examples.spaceBetweenRow in
  let e := element.set_mainSize 50
             (newElement f (mkChild (newView (Examples.box 50 50)) geo.ZR false)) in
  flexLine.child (alignMain f 100 (flexLine.mk 50 0 0 [e]))
  = [element.set_mainOffset (0 + fst (element.mainMargin e)) e].
Proof.
  intros f e.
  apply (proj1 spaceBetween_single_child f 100 (flexLine.mk 50 0 0 [e]) e);
    reflexivity.
Defined.

(* ================================================================= *)
(** ** Absolute positioning *)

Lemma writeBack_lookup_outside (cs nodes : list (child View)) (i : nat)
    (c : child View) :
  cs !! i = Some c -> inFlow c = false -> writeBack cs nodes !! i = Some c.
Proof.
  revert nodes i. induction cs as [|c0 cs IH]; intros nodes i Hi Hf;
    [discriminate|].
  destruct i as [|i]; simpl in *.
  - injection Hi as ->. now rewrite Hf.
  - destruct (inFlow c0); [destruct nodes|]; simpl; now apply IH.
Qed.

(** C3, where the program departs from the specification: an absolute
    child that is not displayed is skipped by the pass, so its frame stays
    what it was (here the zero rectangle) although its left offset is
    set. *)
Lemma absolute_hidden_child_not_placed :
  let f := beforeLayout Examples.absoluteHidden in
  (fun c : child View => Position (item c)) <$> children f !! 0%nat
  = Some PositionAbsolute
  /\ (fun c : child View => absoluteFrame f (item c)) <$> children f !! 0%nat
     = Some (geo.mkRectangle (geo.Pt 10 0) (geo.Pt 20 10))
  /\ (fun c : child View => frame (item c))
       <$> children (layout f 100 100) !! 0%nat
     = Some (geo.mkRectangle (geo.Pt 0 0) (geo.Pt 0 0))
  /\ childFrames <$> Update 2 Examples.absoluteHidden
     = Some [geo.mkRectangle (geo.Pt 0 0) (geo.Pt 0 0)]
  /\ geo.X (geo.Min (geo.mkRectangle (geo.Pt 10 0) (geo.Pt 20 10))) <> 0.
Proof.
  repeat split; try (vm_compute; reflexivity).
  apply float_neq. reflexivity.
Qed.

(** C3, as the program has it. For every container and every displayed
    child with [Position = absolute], a layout pass sets the child's frame
    to [Rect(x, y, x+Width, y+Height)], where [x] is the container's left
    edge plus the left offset when that offset is not zero, else the
    container's right edge minus the right offset minus the width when a
    right offset is present, else the container's left edge, and [y] is
    found the same way from top and bottom.  A 100 by 100 container at
    the origin with an absolute 10 by 10 child at right 40, bottom 50
    gives the frame [50,40,60,50]. *)
Theorem absolute_child_frame :
  (forall (f : View) (w h : float) (i : nat) (c : child View),
      children f !! i = Some c ->
      Position (item c) = PositionAbsolute ->
      Display (item c) = DisplayFlex ->
      let x :=
        if neqb (Left (item c)) 0
        then geo.X (geo.Min (frame f)) + Left (item c)
        else match Right (item c) with
             | Some r => geo.X (geo.Max (frame f)) - r - Width (item c)
             | None => geo.X (geo.Min (frame f))
             end in
      let y :=
        if neqb (Top (item c)) 0
        then geo.Y (geo.Min (frame f)) + Top (item c)
        else match Bottom (item c) with
             | Some b => geo.Y (geo.Max (frame f)) - b - Height (item c)
             | None => geo.Y (geo.Min (frame f))
             end in
      exists c',
        children (layout f w h) !! i = Some c'
        /\ frame (item c')
           = geo.Rect x y (x + Width (item c)) (y + Height (item c))
        /\ bounds c' = frame (item c')
        /\ absolute c' = true)
  /\ childFrames <$> Update 2 Examples.absoluteCorner
     = Some [geo.mkRectangle (geo.Pt 50 40) (geo.Pt 60 50)].
Proof.
  split; [|vm_compute; reflexivity].
  intros f w h i c Hi Hp Hd x y.
  rewrite layout_children_eq.
  exists (placeAbsolute f c). split; [|repeat split].
  apply writeBack_lookup_outside.
  - rewrite !list_lookup_fmap, Hi. simpl. unfold scanChild.
    now rewrite Hd, Hp.
  - unfold inFlow, placeAbsolute. simpl. now rewrite Hd, Hp.
Qed.

Lemma absolute_child_frame_witness :
  exists c',
    children (layout (beforeLayout Examples.absoluteCorner) 100 100) !! 0%nat
    = Some c'
    /\ frame (item c') = geo.mkRectangle (geo.Pt 50 40) (geo.Pt 60 50).
Proof.
  destruct (proj1 absolute_child_frame
              (beforeLayout Examples.absoluteCorner) 100 100 0%nat
              (mkChild
                 (set_hasParent true
                    (newView (with_Bottom (Some 50) (with_Right (Some 40)
                                (with_Position PositionAbsolute
                                   (Examples.box 10 10))))))
                 geo.ZR false)
              eq_refl eq_refl eq_refl) as (c' & H1 & H2 & _).
  exists c'. split; [exact H1|]. rewrite H2. reflexivity.
Defined.

(* ================================================================= *)
(** ** Line collection under wrap *)

Lemma wrapStep_inv f cms st c :
  wrapInv st ->
  wrapInv (wrapStep f cms st c) /\ flexLine.child (snd (wrapStep f cms st c)) <> [].
Proof.
  destruct st as [lines line]. intros [Hl Hz]. simpl in Hl, Hz.
  unfold wrapStep, wrapInv.
  destruct (startsNewLine cms line (withMainMargin f c)) eqn:E; simpl.
  - repeat split.
    + apply Forall_app. split; [exact Hl|]. constructor; [|constructor].
      intros Hn. unfold startsNewLine in E. rewrite (Hz Hn) in E.
      discriminate.
    + discriminate.
    + discriminate.
  - repeat split; auto.
    + intros Hn. now destruct (flexLine.child line).
    + now destruct (flexLine.child line).
Qed.

Lemma wrapFold_inv f cms es st :
  wrapInv st ->
  wrapInv (fold_left (wrapStep f cms) es st)
  /\ (es <> [] -> flexLine.child (snd (fold_left (wrapStep f cms) es st)) <> []).
Proof.
  revert st. induction es as [|e es IH]; intros st Hst; simpl.
  - split; [exact Hst | congruence].
  - destruct (wrapStep_inv f cms st e Hst) as [H1 H2].
    destruct (IH _ H1) as [H3 H4]. split; [exact H3|]. intros _.
    destruct es as [|e' es]; [exact H2 | apply H4; discriminate].
Qed.

(** C5, where the program departs from the specification: in a wrapping
    row 200 wide whose first child has no main size and whose second is
    300 wide, the running line is not empty and the second child would
    make it exceed 200, yet no new line is started: both children share
    one line.  And a wrapping container without children gets one line,
    which is empty. *)
Lemma wrap_zero_basis_no_break :
  let f := beforeLayout Examples.zeroThenWide in
  map hypotheticalMainSize (map (withMainMargin f) (flowElements f)) = [0; 300]
  /\ map (fun l => length (flexLine.child l))
         (layoutLines f 200 200 (flowElements f)) = [2%nat]
  /\ map (fun l => length (flexLine.child l))
         (layoutLines (beforeLayout Examples.emptyWrap) 200 200
            (flowElements (beforeLayout Examples.emptyWrap)))
     = [0%nat].
Proof. repeat split; vm_compute; reflexivity. Qed.

(** C5, as the program has it. With wrap enabled a new line is started
    exactly when the main size accumulated on the running line is above
    zero and adding the next child's flex basis plus main margins would
    exceed the container's main size; the lines hold the children in flow
    order, and when the container has a flow child every line holds at
    least one.  Three 100 by 100 children in a 200 by 200 row aligned
    start/start form two lines and the third child's frame is
    [0,100,100,200]. *)
Theorem wrap_lines_greedy :
  (forall (f : View) (cms : float) (lines : list flexLine.t)
          (line : flexLine.t) (c : element.t),
      let child := withMainMargin f c in
      wrapStep f cms (lines, line) c
      = if gtb (flexLine.mainSize line) 0
           && gtb (flexLine.mainSize line + hypotheticalMainSize child) cms
        then (lines ++ [line],
              flexLine.mk (0 + hypotheticalMainSize child) 0 0 [child])
        else (lines,
              flexLine.mk (flexLine.mainSize line + hypotheticalMainSize child)
                          (flexLine.crossSize line) (flexLine.crossOffset line)
                          (flexLine.child line ++ [child])))
  /\ (forall (f : View) (cms : float) (es : list element.t),
         Wrap f <> NoWrap ->
         concat (map flexLine.child (collectLines f cms es))
         = map (withMainMargin f) es
         /\ (es <> [] ->
             Forall (fun l => flexLine.child l <> []) (collectLines f cms es)))
  /\ (let f := beforeLayout Examples.wrapRow in
      length (layoutLines f 200 200 (flowElements f)) = 2%nat)
  /\ childFrames <$> Update 2 Examples.wrapRow
     = Some [geo.mkRectangle (geo.Pt 0 0) (geo.Pt 100 100);
             geo.mkRectangle (geo.Pt 100 0) (geo.Pt 200 100);
             geo.mkRectangle (geo.Pt 0 100) (geo.Pt 100 200)].
Proof.
  split; [|split; [|split; vm_compute; reflexivity]].
  - intros f cms lines line c child. unfold wrapStep, startsNewLine.
    fold child. destruct (_ && _); reflexivity.
  - intros f cms es Hw. split; [apply collectLines_concat|].
    intros Hes.
    assert (M : Forall (fun l => flexLine.child l <> []) (multiLine f cms es)).
    { unfold multiLine.
      destruct (wrapFold_inv f cms es ([], flexLine.zero)) as [[H1 _] H2].
      { split; [constructor | reflexivity]. }
      destruct (fold_left _ _ _) as [lines line]. simpl in *.
      specialize (H2 Hes).
      destruct (flexLine.child line) as [|e0 l0] eqn:E; [congruence|].
      simpl. apply Forall_app. split; [exact H1|].
      constructor; [|constructor]. now rewrite E. }
    unfold collectLines. destruct (Wrap f); [congruence | exact M | exact M].
Qed.

Lemma wrap_lines_greedy_witness :
  let f := beforeLayout Examples.wrapRow in
  Forall (fun l => flexLine.child l <> [])
         (collectLines f 200 (flowElements f)).
Proof.
  intros f.
  apply (proj1 (proj2 wrap_lines_greedy) f 200 (flowElements f));
    discriminate.
Defined.

(* ================================================================= *)
(** ** Percentage resolution on the main axis of a row *)

Lemma calculatedWidth_resolveCrossHeight h e :
  calculatedWidth (element.view (resolveCrossHeight h e))
  = calculatedWidth (element.view e).
Proof. unfold resolveCrossHeight. destruct (gtb _ _); reflexivity. Qed.

(** The percentage pass of a row, on the elements. *)
Lemma resolvePercent_row_widths (f : View) (width height : float)
    (children : list element.t) :
  Direction f = Row ->
  map (fun e => calculatedWidth (element.view e))
      (resolvePercent f width height children)
  = if gtb (rowRemFree width children) 0
    then map (fun e =>
                if gtb (element.widthInPct e) 0
                then math.Min (width * element.widthInPct e / 100)
                              (rowRemFree width children)
                else calculatedWidth (element.view e))
             children
    else map (fun e => calculatedWidth (element.view e)) children.
Proof.
  intros Hd. unfold resolvePercent. rewrite Hd.
  rewrite map_map.
  erewrite map_ext by (intros e; apply calculatedWidth_resolveCrossHeight).
  destruct (gtb (rowRemFree width children) 0); [|reflexivity].
  rewrite map_map. apply map_ext. intros e.
  unfold resolveMainWidth. destruct (gtb (element.widthInPct e) 0); reflexivity.
Qed.

Lemma rowRemFree_flow (f : View) (width : float) :
  rowRemFree width (flowElements f)
  = fold_left
      (fun remFree (c : child View) =>
         remFree - (Width (item c) + MarginLeft (item c) + MarginRight (item c)))
      (List.filter inFlow (children f)) width.
Proof.
  rewrite flowElements_eq. unfold rowRemFree.
  generalize width. induction (List.filter inFlow (children f)) as [|c cs IH];
    intros r; [reflexivity|]. simpl. apply IH.
Qed.

(** C6. In a row the widths in percent are resolved only when the
    container width less every flow child's explicit width and horizontal
    margins is above zero; after the pass each flow child with a
    percentage then has the calculated width
    min(width * percentage / 100, that remainder), and the other
    calculated widths are as they were.  A 500 wide row with a child of
    width 100% and a child of width 50 resolves the first to 450, and its
    committed frame is 450 wide. *)
Theorem percent_width_resolution :
  (forall (f : View) (width height : float),
      Direction f = Row ->
      let flow := List.filter inFlow (children f) in
      let remFree :=
        fold_left
          (fun remFree (c : child View) =>
             remFree - (Width (item c) + MarginLeft (item c)
                        + MarginRight (item c)))
          flow width in
      map (fun c : child View => calculatedWidth (item c))
          (List.filter inFlow (children (layout f width height)))
      = if gtb remFree 0
        then map (fun c : child View =>
                    if gtb (WidthInPct (item c)) 0
                    then math.Min (width * WidthInPct (item c) / 100) remFree
                    else calculatedWidth (item c))
                 flow
        else map (fun c : child View => calculatedWidth (item c)) flow)
  /\ (let f := beforeLayout Examples.percentRow in
      map (fun c : child View => calculatedWidth (item c))
          (List.filter inFlow (children (layout f 500 500))) = [450; 0])
  /\ childFrames <$> Update 2 Examples.percentRow
     = Some [geo.mkRectangle (geo.Pt 0 400) (geo.Pt 450 500);
             geo.mkRectangle (geo.Pt 450 400) (geo.Pt 500 500)].
Proof.
  split; [|split; vm_compute; reflexivity].
  intros f width height Hd flow remFree.
  rewrite layout_flow_children.
  rewrite (committedNodes_project
             (fun c : child View => calculatedWidth (item c)))
    by reflexivity.
  rewrite map_map.
  change (fun x : element.t => calculatedWidth (item (element.node x)))
    with (fun e => calculatedWidth (element.view e)).
  rewrite (resolvePercent_row_widths f width height _ Hd).
  rewrite rowRemFree_flow. fold flow. fold remFree.
  rewrite flowElements_eq. fold flow. rewrite !map_map. reflexivity.
Qed.

Lemma percent_width_resolution_witness :
  let f := beforeLayout Examples.percentRow in
  map (fun c : child View => calculatedWidth (item c))
      (List.filter inFlow (children (layout f 500 500))) = [450; 0].
Proof.
  intros f.
  rewrite (proj1 percent_width_resolution f 500 500 eq_refl).
  reflexivity.
Defined.

(* ================================================================= *)
(** ** Frames across a tick *)

Lemma startLayout_before (v : View) :
  startLayout v
  = set_isDirty false
      (layout (beforeLayout v) (geo.Dx (frame (beforeLayout v)))
              (geo.Dy (frame (beforeLayout v)))).
Proof. rewrite startLayout_eq. reflexivity. Qed.

(** A pass writes the calculated sizes and the children of its
    receiver, not its frame nor its [hasParent] mark. *)
Lemma layout_frame (f : View) (w h : float) :
  frame (layout f w h) = frame f /\ hasParent (layout f w h) = hasParent f.
Proof.
  unfold layout. destruct (intrinsicMain _) as [lines ims].
  unfold setCrossSize, setMainSize.
  destruct f as [s ? ? ? ? ? ?].
  destruct s as [? ? ? ? ? ? ? ? ? ? ? ? ? dir ? ? ? ? ? ? ? ?].
  destruct dir; split; reflexivity.
Qed.






(* ================================================================= *)
(** ** Grow distribution *)







(* ================================================================= *)
(** ** Agreement with flex_test.go

    The frames each test expects of its hierarchy after one tick. *)

Example TestNesting :
  allFrames <$> Update 3 Examples.testNesting
  = Some [rect 100 50 400 550; rect 200 200 300 400; rect 270 360 300 400].
Proof. vm_compute. reflexivity. Qed.

Example TestNestedChildrenGrow :
  allFrames <$> Update 4 Examples.testNestedChildrenGrow
  = Some [rect 0 0 1000 1000; rect 0 0 1000 1000; rect 0 0 1000 1000;
          rect 0 0 500 1000; rect 500 0 1000 1000].
Proof. vm_compute. reflexivity. Qed.

Example TestMerginWithChild :
  allFrames <$> Update 3 Examples.testMerginWithChild
  = Some [rect 0 0 1000 1000; rect 850 800 950 900; rect 850 800 950 900].
Proof. vm_compute. reflexivity. Qed.

Example TestAbsolutePosNested :
  allFrames <$> Update 3 Examples.testAbsolutePosNested
  = Some [rect 0 0 150 200; rect 100 50 150 200; rect 110 105 140 145].
Proof. vm_compute. reflexivity. Qed.

Example TestMultiMarginedWrapRowItems :
  childFrames <$> Update 2 Examples.testMultiMarginedWrapRowItems
  = Some [rect 10 15 95 100; rect 105 15 190 100;
          rect 10 110 95 195; rect 105 110 190 195].
Proof. vm_compute. reflexivity. Qed.

Example TestShrink :
  map geo.Size <$> (childFrames <$> Update 3 Examples.testShrink)
  = Some [geo.Pt 128 320].
Proof. vm_compute. reflexivity. Qed.

(* ================================================================= *)
(** * Further properties *)

(* ================================================================= *)
(** ** Editing a hierarchy: what each operation does to the heap *)

Section HeapEdits.

Import Heap.

Lemma store_lookup (x : ptr) (g : View -> View) (h h' : heap) :
  store x g h = Some h' ->
  forall y, h' !! y = (if decide (y = x) then g else id) <$> h !! y.
Proof.
  unfold store. destruct (h !! x) as [rx|] eqn:E; [|discriminate].
  simpl. intros [= <-] y. destruct (decide (y = x)) as [->|Hne].
  - now rewrite lookup_insert_eq, E.
  - rewrite lookup_insert_ne by auto. now destruct (h !! y).
Qed.

Lemma store_is_Some (x : ptr) (g : View -> View) (h : heap) :
  is_Some (h !! x) -> is_Some (store x g h).
Proof. intros [rx E]. unfold store. rewrite E. simpl. eauto. Qed.

Lemma lookup_is_Some_fmap (g : View -> View) (h h' : heap) (y : ptr) :
  h' !! y = g <$> h !! y -> is_Some (h !! y) -> is_Some (h' !! y).
Proof. intros -> [r ->]. simpl. eauto. Qed.

(** [addChild], pointwise. *)
Lemma addChild_edit (v cv : ptr) (h : heap) (r : View) :
  h !! v = Some r -> is_Some (h !! cv) ->
  exists h',
    addChild v cv h = Some h'
    /\ forall x, h' !! x
                 = edit v (children r ++ [newChild cv]) [cv] true (Some v) x
                   <$> h !! x.
Proof.
  intros Hv [rc Hcv]. unfold addChild. rewrite Hv. simpl.
  destruct (store v (set_children (children r ++ [newChild cv])) h)
    as [h1|] eqn:E1; [|unfold store in E1; rewrite Hv in E1; discriminate].
  pose proof (store_lookup _ _ _ _ E1) as L1. simpl.
  destruct (store v (set_isDirty true) h1) as [h2|] eqn:E2.
  2:{ unfold store in E2. rewrite L1, Hv in E2. discriminate. }
  pose proof (store_lookup _ _ _ _ E2) as L2. simpl.
  destruct (store cv (set_parent true (Some v)) h2) as [h3|] eqn:E3.
  2:{ unfold store in E3. rewrite L2, L1, Hcv in E3. discriminate. }
  pose proof (store_lookup _ _ _ _ E3) as L3.
  eexists. split; [reflexivity|]. intros x.
  rewrite L3, L2, L1. unfold edit.
  destruct (h !! x) as [rx|]; [|reflexivity]. simpl.
  destruct (decide (x ∈ [cv])) as [Hin|Hnin];
    [apply list_elem_of_singleton in Hin
    |rewrite list_elem_of_singleton in Hnin];
    destruct (decide (x = v)), (decide (x = cv)); try reflexivity; congruence.
Qed.

Lemma held_edit v L D b p x rx :
  held (edit v L D b p x rx) = if decide (x = v) then map item L else held rx.
Proof.
  unfold edit, held. destruct (decide (x = v)), (decide (x ∈ D)); reflexivity.
Qed.

Lemma hasParent_edit v L D b p x rx :
  hasParent (edit v L D b p x rx) = if decide (x ∈ D) then b else hasParent rx.
Proof.
  unfold edit. destruct (decide (x = v)), (decide (x ∈ D)); reflexivity.
Qed.

Lemma parent_edit v L D b p x rx :
  parent (edit v L D b p x rx) = if decide (x ∈ D) then p else parent rx.
Proof.
  unfold edit. destruct (decide (x = v)), (decide (x ∈ D)); reflexivity.
Qed.

Lemma edit_lookup_inv (h h' : heap) v L D b p :
  (forall x, h' !! x = edit v L D b p x <$> h !! x) ->
  forall x rx', h' !! x = Some rx' ->
                exists rx, h !! x = Some rx /\ rx' = edit v L D b p x rx.
Proof.
  intros E x rx' Hx. rewrite E in Hx.
  destruct (h !! x) as [rx|]; [|discriminate].
  simpl in Hx. injection Hx as <-. eauto.
Qed.

(** [PopChild] on a view with children, pointwise. *)
Lemma PopChild_edit (v : ptr) (h : heap) (r : View) (l : list (child ptr))
    (c : child ptr) :
  h !! v = Some r -> children r = l ++ [c] -> is_Some (h !! item c) ->
  exists h',
    PopChild v h = Some (h', Some (item c))
    /\ forall x, h' !! x = edit v l [item c] false None x <$> h !! x.
Proof.
  intros Hv Hc [rc Hcv]. unfold PopChild. rewrite Hv. simpl. rewrite Hc.
  rewrite length_app. simpl. rewrite Nat.add_1_r. simpl.
  rewrite last_snoc. simpl. rewrite removelast_last.
  destruct (store v (set_children l) h)
    as [h1|] eqn:E1; [|unfold store in E1; rewrite Hv in E1; discriminate].
  pose proof (store_lookup _ _ _ _ E1) as L1. simpl.
  destruct (store v (set_isDirty true) h1) as [h2|] eqn:E2.
  2:{ unfold store in E2. rewrite L1, Hv in E2. discriminate. }
  pose proof (store_lookup _ _ _ _ E2) as L2. simpl.
  destruct (store (item c) (set_parent false None) h2) as [h3|] eqn:E3.
  2:{ unfold store in E3. rewrite L2, L1, Hcv in E3. discriminate. }
  pose proof (store_lookup _ _ _ _ E3) as L3. simpl.
  eexists. split; [reflexivity|]. intros x.
  rewrite L3, L2, L1. unfold edit.
  destruct (h !! x) as [rx|]; [|reflexivity]. simpl.
  destruct (decide (x ∈ [item c])) as [Hin|Hnin];
    [apply list_elem_of_singleton in Hin
    |rewrite list_elem_of_singleton in Hnin];
    destruct (decide (x = v)), (decide (x = item c));
    try reflexivity; congruence.
Qed.

Lemma indexOf_Some (cv : ptr) (cs : list (child ptr)) (i : nat) :
  indexOf cv cs = Some i ->
  (item <$> cs !! i) = Some cv /\ cv ∉ map item (take i cs).
Proof.
  revert i. induction cs as [|c cs IH]; intros i H; [discriminate|].
  simpl in H. destruct (item c =? cv)%nat eqn:E.
  - injection H as <-. apply Nat.eqb_eq in E. simpl. rewrite E.
    split; [reflexivity | apply not_elem_of_nil].
  - apply Nat.eqb_neq in E.
    destruct (indexOf cv cs) as [j|]; [|discriminate].
    simpl in H. injection H as <-.
    destruct (IH j eq_refl) as [H1 H2]. split; [exact H1|].
    simpl. rewrite not_elem_of_cons. auto.
Qed.

Lemma indexOf_None (cv : ptr) (cs : list (child ptr)) :
  indexOf cv cs = None <-> cv ∉ map item cs.
Proof.
  induction cs as [|c cs IH]; simpl.
  - split; [intros _; apply not_elem_of_nil | reflexivity].
  - rewrite not_elem_of_cons. destruct (item c =? cv)%nat eqn:E.
    + apply Nat.eqb_eq in E. split; [discriminate | intros [H _]; congruence].
    + apply Nat.eqb_neq in E. destruct (indexOf cv cs); simpl.
      * split; [discriminate|]. intros [_ H]. now apply IH in H.
      * split; [|reflexivity]. intros _. split; [congruence | now apply IH].
Qed.

(** [RemoveChild] of a held view, pointwise. *)
Lemma RemoveChild_edit (v cv : ptr) (h : heap) (r : View) (i : nat) :
  h !! v = Some r -> indexOf cv (children r) = Some i -> is_Some (h !! cv) ->
  exists h',
    RemoveChild v cv h = Some (h', true)
    /\ forall x,
        h' !! x
        = edit v (take i (children r) ++ drop (S i) (children r)) [cv]
               false None x <$> h !! x.
Proof.
  intros Hv Hi [rc Hcv]. unfold RemoveChild. rewrite Hv. simpl. rewrite Hi.
  destruct (store v (set_children
              (take i (children r) ++ drop (S i) (children r))) h)
    as [h1|] eqn:E1; [|unfold store in E1; rewrite Hv in E1; discriminate].
  pose proof (store_lookup _ _ _ _ E1) as L1. simpl.
  destruct (store v (set_isDirty true) h1) as [h2|] eqn:E2.
  2:{ unfold store in E2. rewrite L1, Hv in E2. discriminate. }
  pose proof (store_lookup _ _ _ _ E2) as L2. simpl.
  destruct (store cv (set_parent false None) h2) as [h3|] eqn:E3.
  2:{ unfold store in E3. rewrite L2, L1, Hcv in E3. discriminate. }
  pose proof (store_lookup _ _ _ _ E3) as L3. simpl.
  eexists. split; [reflexivity|]. intros x.
  rewrite L3, L2, L1. unfold edit.
  destruct (h !! x) as [rx|]; [|reflexivity]. simpl.
  destruct (decide (x ∈ [cv])) as [Hin|Hnin];
    [apply list_elem_of_singleton in Hin
    |rewrite list_elem_of_singleton in Hnin];
    destruct (decide (x = v)), (decide (x = cv));
    try reflexivity; congruence.
Qed.

(** The loop of [RemoveAll], pointwise. *)
Lemma detachAll_lookup (cs : list (child ptr)) (h : heap) :
  (forall c, c ∈ cs -> is_Some (h !! item c)) ->
  exists h',
    detachAll cs h = Some h'
    /\ forall x, h' !! x
                 = (if decide (x ∈ map item cs) then set_parent false None
                    else id) <$> h !! x.
Proof.
  revert h. induction cs as [|c cs IH]; intros h Hval.
  - exists h. split; [reflexivity|]. intros x. simpl.
    destruct (decide (x ∈ [])) as [Hin|_]; [now apply elem_of_nil in Hin|].
    now destruct (h !! x).
  - simpl. destruct (Hval c (list_elem_of_here _ _)) as [rc Hc].
    destruct (store (item c) (set_parent false None) h) as [h1|] eqn:E1;
      [|unfold store in E1; rewrite Hc in E1; discriminate].
    pose proof (store_lookup _ _ _ _ E1) as L1. simpl.
    destruct (IH h1) as (h' & E' & L').
    { intros c' Hc'. eapply lookup_is_Some_fmap; [apply L1|].
      apply Hval. now apply list_elem_of_further. }
    exists h'. split; [exact E'|]. intros x. rewrite L', L1.
    destruct (h !! x) as [rx|]; [|reflexivity]. simpl.
    destruct (decide (x ∈ item c :: map item cs)) as [Hin|Hnin].
    + apply elem_of_cons in Hin.
      destruct (decide (x ∈ map item cs)), (decide (x = item c));
        try reflexivity. tauto.
    + rewrite not_elem_of_cons in Hnin. destruct Hnin.
      destruct (decide (x ∈ map item cs)), (decide (x = item c));
        try reflexivity; tauto.
Qed.

(** [RemoveAll], pointwise. *)
Lemma RemoveAll_edit (v : ptr) (h : heap) (r : View) :
  h !! v = Some r ->
  (forall cv, cv ∈ held r -> is_Some (h !! cv)) ->
  exists h',
    RemoveAll v h = Some h'
    /\ forall x, h' !! x = edit v [] (held r) false None x <$> h !! x.
Proof.
  intros Hv Hval. unfold RemoveAll. rewrite Hv. simpl.
  destruct (store v (set_isDirty true) h) as [h1|] eqn:E1;
    [|unfold store in E1; rewrite Hv in E1; discriminate].
  pose proof (store_lookup _ _ _ _ E1) as L1. simpl.
  destruct (detachAll_lookup (children r) h1) as (h2 & E2 & L2).
  { intros c Hc. eapply lookup_is_Some_fmap; [apply L1|].
    apply Hval. unfold held. apply list_elem_of_fmap. eauto. }
  rewrite E2. simpl.
  destruct (store v (set_children []) h2) as [h3|] eqn:E3.
  2:{ unfold store in E3. rewrite L2, L1, Hv in E3. discriminate. }
  pose proof (store_lookup _ _ _ _ E3) as L3.
  eexists. split; [reflexivity|]. intros x.
  rewrite L3, L2, L1. unfold edit, held.
  destruct (h !! x) as [rx|]; [|reflexivity]. simpl.
  destruct (decide (x = v)), (decide (x ∈ map item (children r)));
    reflexivity.
Qed.

(* ----------------------------------------------------------------- *)
(** *** Child lists and back-references stay in agreement *)

(** In a consistent heap a view is in at most one child list. *)
Lemma consistent_single_holder (h : heap) (v1 v2 cv : ptr) (r1 r2 : View) :
  consistent h -> h !! v1 = Some r1 -> h !! v2 = Some r2 ->
  cv ∈ held r1 -> cv ∈ held r2 -> v1 = v2.
Proof.
  intros C H1 H2 I1 I2.
  destruct (C _ _ H1) as (_ & A1 & _). destruct (C _ _ H2) as (_ & A2 & _).
  destruct (A1 _ I1) as (rc & E1 & _ & P1).
  destruct (A2 _ I2) as (rc' & E2 & _ & P2). congruence.
Qed.

Lemma consistent_attach (h h' : heap) (v cv : ptr) (r rc : View) :
  consistent h -> h !! v = Some r -> h !! cv = Some rc ->
  hasParent rc = false ->
  (forall x, h' !! x
             = edit v (children r ++ [newChild cv]) [cv] true (Some v) x
               <$> h !! x) ->
  consistent h'.
Proof.
  intros C Hv Hcv Hp E.
  assert (Fresh : forall x rx, h !! x = Some rx -> cv ∉ held rx).
  { intros x rx Hx Hin. destruct (C _ _ Hx) as (_ & A & _).
    destruct (A _ Hin) as (rc' & E1 & E2 & _). congruence. }
  assert (Hheld : held (set_children (children r ++ [newChild cv]) r)
                  = held r ++ [cv]).
  { unfold held. simpl. now rewrite map_app. }
  intros x rx' Hx'.
  destruct (edit_lookup_inv _ _ _ _ _ _ _ E _ _ Hx') as (rx & Hx & ->).
  destruct (C _ _ Hx) as (N & A & B).
  rewrite held_edit, hasParent_edit, parent_edit.
  change (map item (children r ++ [newChild cv]))
    with (held (set_children (children r ++ [newChild cv]) r)).
  rewrite Hheld. split; [|split].
  - destruct (decide (x = v)) as [->|_]; [|exact N].
    assert (rx = r) as -> by congruence.
    apply NoDup_app. split; [exact N|]. split; [|apply NoDup_singleton].
    intros y Hy Hy'. apply list_elem_of_singleton in Hy'. subst y.
    now apply (Fresh _ _ Hv).
  - intros c Hc.
    assert (Hc' : (c ∈ held rx /\ c <> cv) \/ (c = cv /\ x = v)).
    { destruct (decide (x = v)) as [->|Hne].
      - assert (rx = r) as -> by congruence.
        apply elem_of_app in Hc as [Hc|Hc].
        + left. split; [exact Hc|]. intros ->. now apply (Fresh _ _ Hv).
        + apply list_elem_of_singleton in Hc. now right.
      - left. split; [exact Hc|]. intros ->. now apply (Fresh _ _ Hx). }
    destruct Hc' as [[Hc1 Hc2]|[-> ->]].
    + destruct (A _ Hc1) as (rc0 & E0 & P0 & Q0).
      exists (edit v (children r ++ [newChild cv]) [cv] true (Some v) c rc0).
      rewrite E, E0, hasParent_edit, parent_edit.
      destruct (decide (c ∈ [cv])) as [Hin|_];
        [apply list_elem_of_singleton in Hin; congruence|]. auto.
    + exists (edit v (children r ++ [newChild cv]) [cv] true (Some v) cv rc).
      rewrite E, Hcv, hasParent_edit, parent_edit.
      destruct (decide (cv ∈ [cv])) as [_|Hn];
        [auto | exfalso; apply Hn, list_elem_of_singleton; reflexivity].
  - destruct (decide (x ∈ [cv])) as [Hin|Hnin].
    + apply list_elem_of_singleton in Hin. subst x. intros _.
      exists v, (edit v (children r ++ [newChild cv]) [cv] true (Some v) v r).
      rewrite E, Hv, held_edit. split; [reflexivity|]. split; [reflexivity|].
      destruct (decide (v = v)); [|congruence].
      change (map item (children r ++ [newChild cv]))
        with (held (set_children (children r ++ [newChild cv]) r)).
      rewrite Hheld. apply elem_of_app. right. now apply list_elem_of_singleton.
    + intros Hpx. destruct (B Hpx) as (p & rp & P1 & P2 & P3).
      exists p, (edit v (children r ++ [newChild cv]) [cv] true (Some v) p rp).
      rewrite E, P2, held_edit. split; [exact P1|]. split; [reflexivity|].
      destruct (decide (p = v)) as [->|_]; [|exact P3].
      assert (rp = r) as -> by congruence.
      change (map item (children r ++ [newChild cv]))
        with (held (set_children (children r ++ [newChild cv]) r)).
      rewrite Hheld. apply elem_of_app. now left.
Qed.

Lemma consistent_detach (h h' : heap) (v : ptr) (r : View)
    (L : list (child ptr)) (D : list ptr) :
  consistent h -> h !! v = Some r ->
  NoDup (map item L) ->
  (forall c, c ∈ map item L <-> c ∈ held r /\ c ∉ D) ->
  (forall c, c ∈ D -> c ∈ held r) ->
  (forall x, h' !! x = edit v L D false None x <$> h !! x) ->
  consistent h'.
Proof.
  intros C Hv NL HL HD E x rx' Hx'.
  destruct (edit_lookup_inv _ _ _ _ _ _ _ E _ _ Hx') as (rx & Hx & ->).
  destruct (C _ _ Hx) as (N & A & B).
  rewrite held_edit, hasParent_edit, parent_edit. split; [|split].
  - destruct (decide (x = v)); [exact NL | exact N].
  - intros c Hc.
    assert (Hc' : c ∈ held rx /\ c ∉ D).
    { destruct (decide (x = v)) as [->|Hne].
      - assert (rx = r) as -> by congruence. now apply HL.
      - split; [exact Hc|]. intros Hin. apply HD in Hin.
        apply Hne. eapply consistent_single_holder; eauto. }
    destruct Hc' as [Hc1 Hc2]. destruct (A _ Hc1) as (rc0 & E0 & P0 & Q0).
    exists (edit v L D false None c rc0).
    rewrite E, E0, hasParent_edit, parent_edit.
    destruct (decide (c ∈ D)); [tauto | auto].
  - destruct (decide (x ∈ D)) as [Hin|Hnin]; [discriminate|].
    intros Hpx. destruct (B Hpx) as (p & rp & P1 & P2 & P3).
    exists p, (edit v L D false None p rp).
    rewrite E, P2, held_edit. split; [exact P1|]. split; [reflexivity|].
    destruct (decide (p = v)) as [->|_]; [|exact P3].
    assert (rp = r) as -> by congruence. apply HL. auto.
Qed.

(** Views that hold nothing and are held by nothing are consistent. *)
Lemma consistent_fresh (h : heap) :
  (forall v r, h !! v = Some r -> children r = [] /\ hasParent r = false) ->
  consistent h.
Proof.
  intros F v r Hv. destruct (F _ _ Hv) as [Hc Hp]. unfold held. rewrite Hc.
  split; [apply NoDup_nil_2|]. split.
  - intros cv Hin. now apply elem_of_nil in Hin.
  - rewrite Hp. discriminate.
Qed.

Lemma consistent_threeViews : consistent Examples.threeViews.
Proof.
  apply consistent_fresh. intros v r Hv. unfold Examples.threeViews in Hv.
  repeat (apply lookup_insert_Some in Hv as [[_ <-]|[_ Hv]]; [now split|]).
  apply lookup_singleton_Some in Hv as [_ <-]. now split.
Qed.

Lemma consistent_parentAndChild : consistent Examples.parentAndChild.
Proof.
  intros v r Hv. unfold Examples.parentAndChild in Hv.
  apply lookup_insert_Some in Hv as [[<- <-]|[Hne Hv]].
  - split; [apply NoDup_nil_2|]. split.
    + intros cv Hin. now apply elem_of_nil in Hin.
    + intros _. exists 0%nat. eexists. split; [reflexivity|].
      split; [reflexivity|]. apply list_elem_of_singleton. reflexivity.
  - apply lookup_singleton_Some in Hv as [<- <-]. split; [|split].
    + apply NoDup_singleton.
    + intros cv Hin. apply list_elem_of_singleton in Hin. subst cv.
      eexists. split; [reflexivity|]. split; reflexivity.
    + discriminate.
Qed.

Lemma consistent_parentAndChild_more :
  consistent (<[2%nat := newView zeroStyle]> Examples.parentAndChild).
Proof.
  intros v r Hv. apply lookup_insert_Some in Hv as [[<- <-]|[Hne Hv]].
  - split; [apply NoDup_nil_2|]. split.
    + intros cv Hin. now apply elem_of_nil in Hin.
    + discriminate.
  - destruct (consistent_parentAndChild v r Hv) as (N & A & B).
    split; [exact N|]. split.
    + intros cv Hin. destruct (A cv Hin) as (rc & Hrc & P).
      exists rc. split; [|exact P].
      rewrite lookup_insert_ne; [exact Hrc|].
      intros <-. unfold Examples.parentAndChild in Hrc.
      rewrite lookup_insert_ne in Hrc by lia.
      rewrite lookup_singleton_ne in Hrc by lia. discriminate.
    + intros Hp. destruct (B Hp) as (p & rp & P1 & P2 & P3).
      exists p, rp. split; [exact P1|]. split; [|exact P3].
      rewrite lookup_insert_ne; [exact P2|].
      intros <-. unfold Examples.parentAndChild in P2.
      rewrite lookup_insert_ne in P2 by lia.
      rewrite lookup_singleton_ne in P2 by lia. discriminate.
Qed.

(* ----------------------------------------------------------------- *)
(** *** The operations, one by one *)


Lemma children_edit v L D b p rx :
  children (edit v L D b p v rx) = L.
Proof.
  unfold edit. destruct (decide (v = v)); [|congruence].
  now destruct (decide (v ∈ D)).
Qed.

Lemma isDirty_edit v L D b p rx :
  isDirty (edit v L D b p v rx) = true.
Proof.
  unfold edit. destruct (decide (v = v)); [|congruence].
  now destruct (decide (v ∈ D)).
Qed.

Lemma edit_outside v L D b p x rx :
  x <> v -> x ∉ D -> edit v L D b p x rx = rx.
Proof.
  intros H1 H2. unfold edit.
  destruct (decide (x = v)); [congruence|].
  destruct (decide (x ∈ D)); [contradiction | reflexivity].
Qed.




(** Adding a view that has no parent and popping it again gives the view
    back and restores the heap, but for the dirty flag of the container. *)
Theorem addChild_PopChild (v cv : ptr) (h : heap) (r rc : View) :
  h !! v = Some r -> h !! cv = Some rc ->
  hasParent rc = false -> parent rc = None ->
  exists h1,
    addChild v cv h = Some h1
    /\ PopChild v h1 = Some (<[v := set_isDirty true r]> h, Some cv).
Proof.
  intros Hv Hcv Hp Hpar.
  destruct (addChild_edit v cv h r Hv (ex_intro _ rc Hcv)) as (h1 & E1 & L1).
  exists h1. split; [exact E1|].
  set (r1 := edit v (children r ++ [newChild cv]) [cv] true (Some v) v r).
  assert (Hv1 : h1 !! v = Some r1) by (rewrite L1, Hv; reflexivity).
  destruct (PopChild_edit v h1 r1 (children r) (newChild cv) Hv1)
    as (h2 & E2 & L2).
  { apply children_edit. }
  { simpl. rewrite L1, Hcv. simpl. eauto. }
  simpl in E2, L2. rewrite E2. do 2 f_equal.
  apply map_eq. intros x. rewrite L2, L1.
  destruct (decide (x = v)) as [->|Hne].
  - rewrite lookup_insert_eq, Hv. simpl. f_equal. unfold edit.
    destruct (decide (v = v)); [|congruence].
    destruct (decide (v ∈ [cv])) as [Hin|_].
    + apply list_elem_of_singleton in Hin. subst cv.
      assert (rc = r) as -> by congruence.
      destruct r; simpl in *; subst; reflexivity.
    + destruct r; reflexivity.
  - rewrite lookup_insert_ne by auto.
    destruct (h !! x) as [rx|] eqn:Hx; [|reflexivity]. simpl. f_equal.
    unfold edit. destruct (decide (x = v)); [congruence|].
    destruct (decide (x ∈ [cv])) as [Hin|_]; [|reflexivity].
    apply list_elem_of_singleton in Hin. subst x.
    assert (rx = rc) as -> by congruence.
    destruct rc; simpl in *; subst; reflexivity.
Qed.

Lemma addChild_PopChild_witness :
  exists h1,
    addChild 0%nat 2%nat Examples.threeViews = Some h1
    /\ PopChild 0%nat h1
       = Some (<[0%nat := set_isDirty true (newView zeroStyle)]>
                 Examples.threeViews, Some 2%nat).
Proof.
  apply (addChild_PopChild 0%nat 2%nat Examples.threeViews
           (newView zeroStyle) (newView zeroStyle)); reflexivity.
Defined.

(** [RemoveChild] of a view the container does not hold reports [false]
    and changes nothing, the dirty flag included. *)
Theorem RemoveChild_absent (v cv : ptr) (h : heap) (r : View) :
  h !! v = Some r -> cv ∉ held r ->
  RemoveChild v cv h = Some (h, false).
Proof.
  intros Hv Hn. unfold RemoveChild. rewrite Hv. simpl.
  apply indexOf_None in Hn. now rewrite Hn.
Qed.

Lemma RemoveChild_absent_witness :
  RemoveChild 0%nat 2%nat Examples.parentAndChild
  = Some (Examples.parentAndChild, false).
Proof.
  apply (RemoveChild_absent 0%nat 2%nat Examples.parentAndChild
           (set_isDirty true
              (set_children [newChild 1%nat] (newView zeroStyle)))).
  - reflexivity.
  - unfold held. simpl. intros H. apply list_elem_of_singleton in H. lia.
Defined.

(** [RemoveChild] of a view the container holds reports [true], takes the
    first entry of that view out of the child list and keeps the order of
    the others, clears the back-reference of the view, marks the
    container dirty and touches no other view. *)
Theorem RemoveChild_held (v cv : ptr) (h : heap) (r : View) :
  h !! v = Some r -> cv ∈ held r -> is_Some (h !! cv) ->
  exists h' l1 c l2,
    RemoveChild v cv h = Some (h', true)
    /\ children r = l1 ++ c :: l2 /\ item c = cv /\ (cv ∉ map item l1)
    /\ (children <$> h' !! v) = Some (l1 ++ l2)
    /\ (isDirty <$> h' !! v) = Some true
    /\ (hasParent <$> h' !! cv) = Some false
    /\ (parent <$> h' !! cv) = Some None
    /\ (forall q, q <> v -> q <> cv -> h' !! q = h !! q).
Proof.
  intros Hv Hin Hcv.
  destruct (indexOf cv (children r)) as [i|] eqn:Hi.
  2:{ apply indexOf_None in Hi. contradiction. }
  destruct (indexOf_Some _ _ _ Hi) as [Hl Hbefore].
  destruct (children r !! i) as [c|] eqn:Hc; [|discriminate].
  simpl in Hl. injection Hl as Hitem.
  destruct (RemoveChild_edit v cv h r i Hv Hi Hcv) as (h' & E & L).
  exists h', (take i (children r)), c, (drop (S i) (children r)).
  split; [exact E|]. split; [symmetry; now apply take_drop_middle|].
  split; [exact Hitem|]. split; [exact Hbefore|].
  destruct Hcv as [rc Hrc].
  split; [rewrite L, Hv; simpl; now rewrite children_edit|].
  split; [rewrite L, Hv; simpl; now rewrite isDirty_edit|].
  split; [|split].
  - rewrite L, Hrc. simpl. rewrite hasParent_edit.
    destruct (decide (cv ∈ [cv])) as [_|Hn]; [reflexivity|].
    exfalso. apply Hn, list_elem_of_singleton. reflexivity.
  - rewrite L, Hrc. simpl. rewrite parent_edit.
    destruct (decide (cv ∈ [cv])) as [_|Hn]; [reflexivity|].
    exfalso. apply Hn, list_elem_of_singleton. reflexivity.
  - intros q Hq Hq'. rewrite L. destruct (h !! q) as [rq|]; [|reflexivity].
    simpl. rewrite edit_outside; auto.
    intros H. now apply list_elem_of_singleton in H.
Qed.

Lemma RemoveChild_held_witness :
  exists h' l1 c l2,
    RemoveChild 0%nat 1%nat Examples.parentAndChild = Some (h', true)
    /\ children (set_isDirty true
                   (set_children [newChild 1%nat] (newView zeroStyle)))
       = l1 ++ c :: l2
    /\ item c = 1%nat /\ (1%nat ∉ map item l1)
    /\ (children <$> h' !! 0%nat) = Some (l1 ++ l2)
    /\ (isDirty <$> h' !! 0%nat) = Some true
    /\ (hasParent <$> h' !! 1%nat) = Some false
    /\ (parent <$> h' !! 1%nat) = Some None
    /\ (forall q, q <> 0%nat -> q <> 1%nat ->
          h' !! q = Examples.parentAndChild !! q).
Proof.
  apply (RemoveChild_held 0%nat 1%nat Examples.parentAndChild
           (set_isDirty true
              (set_children [newChild 1%nat] (newView zeroStyle)))).
  - reflexivity.
  - unfold held. simpl. apply list_elem_of_singleton. reflexivity.
  - eexists. reflexivity.
Defined.

(** [RemoveAll] empties the child list of the container, marks it dirty,
    clears the back-reference of every view it held and touches no other
    view. *)
Theorem RemoveAll_detaches (v : ptr) (h : heap) (r : View) :
  h !! v = Some r ->
  (forall cv, cv ∈ held r -> is_Some (h !! cv)) ->
  exists h',
    RemoveAll v h = Some h'
    /\ (children <$> h' !! v) = Some []
    /\ (isDirty <$> h' !! v) = Some true
    /\ (forall cv, cv ∈ held r ->
          (hasParent <$> h' !! cv) = Some false
          /\ (parent <$> h' !! cv) = Some None)
    /\ (forall q, q <> v -> q ∉ held r -> h' !! q = h !! q).
Proof.
  intros Hv Hval. destruct (RemoveAll_edit v h r Hv Hval) as (h' & E & L).
  exists h'. split; [exact E|].
  split; [rewrite L, Hv; simpl; now rewrite children_edit|].
  split; [rewrite L, Hv; simpl; now rewrite isDirty_edit|]. split.
  - intros cv Hin. destruct (Hval cv Hin) as [rc Hrc].
    rewrite L, Hrc. simpl. rewrite hasParent_edit, parent_edit.
    destruct (decide (cv ∈ held r)); [auto | contradiction].
  - intros q Hq Hq'. rewrite L. destruct (h !! q) as [rq|]; [|reflexivity].
    simpl. now rewrite edit_outside.
Qed.

Lemma RemoveAll_detaches_witness :
  exists h',
    RemoveAll 0%nat Examples.parentAndChild = Some h'
    /\ (children <$> h' !! 0%nat) = Some []
    /\ (isDirty <$> h' !! 0%nat) = Some true
    /\ (forall cv,
          cv ∈ held (set_isDirty true
                       (set_children [newChild 1%nat] (newView zeroStyle))) ->
          (hasParent <$> h' !! cv) = Some false
          /\ (parent <$> h' !! cv) = Some None)
    /\ (forall q, q <> 0%nat ->
          q ∉ held (set_isDirty true
                      (set_children [newChild 1%nat] (newView zeroStyle))) ->
          h' !! q = Examples.parentAndChild !! q).
Proof.
  apply (RemoveAll_detaches 0%nat Examples.parentAndChild
           (set_isDirty true
              (set_children [newChild 1%nat] (newView zeroStyle)))).
  - reflexivity.
  - intros cv Hin. unfold held in Hin. simpl in Hin.
    apply list_elem_of_singleton in Hin. subst cv. eexists. reflexivity.
Defined.



(** [AddTo] keeps child lists and back-references in agreement. *)
Theorem AddTo_consistent (v p : ptr) (h : heap) (r : View) :
  consistent h -> h !! v = Some r -> hasParent r = false ->
  is_Some (h !! p) ->
  exists h', AddTo v p h = Some h' /\ consistent h'.
Proof.
  intros C Hv Hp [rp Hrp].
  destruct (addChild_edit p v h rp Hrp (ex_intro _ r Hv)) as (h' & E & L).
  exists h'. split.
  - unfold AddTo. rewrite Hv. simpl. rewrite Hp. simpl. now rewrite E.
  - exact (consistent_attach h h' p v rp r C Hrp Hv Hp L).
Qed.

Lemma AddTo_consistent_witness :
  exists h', AddTo 2%nat 0%nat Examples.threeViews = Some h' /\ consistent h'.
Proof.
  apply (AddTo_consistent 2%nat 0%nat Examples.threeViews (newView zeroStyle)).
  - exact consistent_threeViews.
  - reflexivity.
  - reflexivity.
  - eexists. reflexivity.
Defined.

Lemma NoDup_snoc_elem {A} (l : list A) (a x : A) :
  NoDup (l ++ [a]) -> (x ∈ l <-> x ∈ l ++ [a] /\ x ∉ [a]).
Proof.
  intros N. apply NoDup_app in N as (_ & N & _). split.
  - intros Hx. split; [apply elem_of_app; now left|].
    intros Hx'. exact (N _ Hx Hx').
  - intros [Hx Hn]. apply elem_of_app in Hx as [Hx|Hx]; [exact Hx|contradiction].
Qed.

(** [PopChild] keeps child lists and back-references in agreement. *)
Theorem PopChild_consistent (v : ptr) (h : heap) :
  consistent h -> is_Some (h !! v) ->
  exists h' res, PopChild v h = Some (h', res) /\ consistent h'.
Proof.
  intros C [r Hv]. destruct (C _ _ Hv) as (N & A & _).
  assert (Hcs : children r = [] \/ exists l c, children r = l ++ [c])
    by (destruct (children r) using rev_ind; eauto).
  destruct Hcs as [Hc|(l & c & Hc)].
  - exists h, None. split; [|exact C].
    unfold PopChild. rewrite Hv. simpl. now rewrite Hc.
  - assert (Hheld : held r = map item l ++ [item c])
      by (unfold held; rewrite Hc, map_app; reflexivity).
    destruct (A (item c)) as (rc & Hrc & _).
    { rewrite Hheld. apply elem_of_app. right.
      apply list_elem_of_singleton. reflexivity. }
    destruct (PopChild_edit v h r l c Hv Hc (ex_intro _ rc Hrc))
      as (h' & E & L).
    exists h', (Some (item c)). split; [exact E|].
    apply (consistent_detach h h' v r l [item c] C Hv).
    + rewrite Hheld in N. now apply NoDup_app in N as (N & _).
    + intros x. rewrite Hheld. apply NoDup_snoc_elem. now rewrite <- Hheld.
    + intros x Hx. apply list_elem_of_singleton in Hx. subst x.
      rewrite Hheld. apply elem_of_app. right.
      apply list_elem_of_singleton. reflexivity.
    + exact L.
Qed.

Lemma PopChild_consistent_witness :
  exists h' res,
    PopChild 0%nat Examples.parentAndChild = Some (h', res) /\ consistent h'.
Proof.
  apply (PopChild_consistent 0%nat Examples.parentAndChild).
  - exact consistent_parentAndChild.
  - eexists. reflexivity.
Defined.

Lemma NoDup_middle_elem {A} (l1 l2 : list A) (a x : A) :
  NoDup (l1 ++ a :: l2) ->
  NoDup (l1 ++ l2) /\ (x ∈ l1 ++ l2 <-> x ∈ l1 ++ a :: l2 /\ x ∉ [a]).
Proof.
  intros N. apply NoDup_app in N as (N1 & N12 & N2).
  apply NoDup_cons in N2 as [Na N2]. split.
  - apply NoDup_app. split; [exact N1|]. split; [|exact N2].
    intros y Hy Hy'. apply (N12 y Hy). now apply list_elem_of_further.
  - rewrite !elem_of_app, elem_of_cons, list_elem_of_singleton. split.
    + intros [Hx|Hx].
      * split; [now left|]. intros ->. apply (N12 a Hx), list_elem_of_here.
      * split; [right; now right|]. intros ->. contradiction.
    + intros [[Hx|[Hx|Hx]] Hn]; [now left | contradiction | now right].
Qed.

(** [RemoveChild] keeps child lists and back-references in agreement. *)
Theorem RemoveChild_consistent (v cv : ptr) (h : heap) :
  consistent h -> is_Some (h !! v) ->
  exists h' b, RemoveChild v cv h = Some (h', b) /\ consistent h'.
Proof.
  intros C [r Hv]. destruct (C _ _ Hv) as (N & A & _).
  destruct (indexOf cv (children r)) as [i|] eqn:Hi.
  - destruct (indexOf_Some _ _ _ Hi) as [Hl _].
    destruct (children r !! i) as [c|] eqn:Hc; [|discriminate].
    simpl in Hl. injection Hl as Hitem.
    pose proof (take_drop_middle _ _ _ Hc) as Hsplit.
    assert (Hheld : held r
                    = map item (take i (children r))
                      ++ cv :: map item (drop (S i) (children r))).
    { unfold held. rewrite <- Hsplit at 1. rewrite map_app. simpl.
      now rewrite Hitem. }
    destruct (A cv) as (rc & Hrc & _).
    { rewrite Hheld. apply elem_of_app. right. apply list_elem_of_here. }
    destruct (RemoveChild_edit v cv h r i Hv Hi (ex_intro _ rc Hrc))
      as (h' & E & L).
    exists h', true. split; [exact E|].
    rewrite Hheld in N.
    apply (consistent_detach h h' v r
             (take i (children r) ++ drop (S i) (children r)) [cv] C Hv).
    + rewrite map_app. exact (proj1 (NoDup_middle_elem _ _ _ cv N)).
    + intros x. rewrite map_app, Hheld.
      exact (proj2 (NoDup_middle_elem _ _ _ x N)).
    + intros x Hx. apply list_elem_of_singleton in Hx. subst x.
      rewrite Hheld. apply elem_of_app. right. apply list_elem_of_here.
    + exact L.
  - exists h, false. split; [|exact C].
    unfold RemoveChild. rewrite Hv. simpl. now rewrite Hi.
Qed.

Lemma RemoveChild_consistent_witness :
  exists h' b,
    RemoveChild 0%nat 1%nat Examples.parentAndChild = Some (h', b)
    /\ consistent h'.
Proof.
  apply (RemoveChild_consistent 0%nat 1%nat Examples.parentAndChild).
  - exact consistent_parentAndChild.
  - eexists. reflexivity.
Defined.

(** [RemoveAll] keeps child lists and back-references in agreement. *)
Theorem RemoveAll_consistent (v : ptr) (h : heap) :
  consistent h -> is_Some (h !! v) ->
  exists h', RemoveAll v h = Some h' /\ consistent h'.
Proof.
  intros C [r Hv]. destruct (C _ _ Hv) as (N & A & _).
  destruct (RemoveAll_edit v h r Hv) as (h' & E & L).
  { intros cv Hin. destruct (A cv Hin) as (rc & Hrc & _). eauto. }
  exists h'. split; [exact E|].
  apply (consistent_detach h h' v r [] (held r) C Hv).
  - apply NoDup_nil_2.
  - intros x. simpl. split; [intros Hx; now apply elem_of_nil in Hx | tauto].
  - auto.
  - exact L.
Qed.

Lemma RemoveAll_consistent_witness :
  exists h', RemoveAll 0%nat Examples.parentAndChild = Some h' /\ consistent h'.
Proof.
  apply (RemoveAll_consistent 0%nat Examples.parentAndChild).
  - exact consistent_parentAndChild.
  - eexists. reflexivity.
Defined.

(** Assignments that leave the links of every view alone keep the heap
    consistent. *)
Lemma consistent_same_links (h h' : heap) :
  (forall x, option_Forall2 same_links (h !! x) (h' !! x)) ->
  consistent h -> consistent h'.
Proof.
  intros R C v r' Hv'. pose proof (R v) as Rv. rewrite Hv' in Rv.
  inversion Rv as [r r0 (Hc & Hp & Hpar) Hv|]; subst.
  symmetry in Hv. destruct (C _ _ Hv) as (N & A & B).
  unfold held in *. rewrite Hc, Hp, Hpar. split; [exact N|]. split.
  - intros cv Hin. destruct (A cv Hin) as (rc & Hrc & P1 & P2).
    pose proof (R cv) as Rc. rewrite Hrc in Rc.
    inversion Rc as [r1 rc' (Hc' & Hp' & Hpar') E1 E2|]; subst.
    exists rc'. split; [congruence|]. split; congruence.
  - intros Hpt. destruct (B Hpt) as (p & rp & P1 & P2 & P3).
    pose proof (R p) as Rp. rewrite P2 in Rp.
    inversion Rp as [r1 rp' (Hc' & Hp' & Hpar') E1 E2|]; subst.
    exists p, rp'. split; [exact P1|]. split; [congruence|]. now rewrite Hc'.
Qed.

Lemma store_same_links (x : ptr) (g : View -> View) (h h' : heap) :
  (forall r, same_links r (g r)) -> store x g h = Some h' ->
  forall y, option_Forall2 same_links (h !! y) (h' !! y).
Proof.
  intros G E y. rewrite (store_lookup _ _ _ _ E).
  destruct (h !! y) as [ry|]; simpl; constructor.
  destruct (decide (y = x)); [apply G | repeat split].
Qed.

Lemma same_links_trans (h1 h2 h3 : heap) :
  (forall y, option_Forall2 same_links (h1 !! y) (h2 !! y)) ->
  (forall y, option_Forall2 same_links (h2 !! y) (h3 !! y)) ->
  forall y, option_Forall2 same_links (h1 !! y) (h3 !! y).
Proof.
  intros R1 R2 y. specialize (R1 y). specialize (R2 y).
  destruct R1 as [a b (A1 & A2 & A3)|]; inversion R2 as [b' c (B1 & B2 & B3)|];
    subst; constructor.
  repeat split; congruence.
Qed.

Lemma Layout_same_links (v : ptr) (h h' : heap) :
  Layout v h = Some h' ->
  forall y, option_Forall2 same_links (h !! y) (h' !! y).
Proof.
  unfold Layout. destruct (h !! v) as [r|]; [|discriminate]. simpl.
  destruct (store v (set_isDirty true) h) as [h1|] eqn:E1; [|discriminate].
  simpl. pose proof (store_same_links v (set_isDirty true) _ _
                       (fun r => conj eq_refl (conj eq_refl eq_refl)) E1) as R1.
  destruct (hasParent r).
  - destruct (parent r) as [p|]; [|discriminate]. simpl. intros E2.
    apply (same_links_trans _ _ _ R1).
    exact (store_same_links p (set_isDirty true) _ _
             (fun r => conj eq_refl (conj eq_refl eq_refl)) E2).
  - intros [= <-]. exact R1.
Qed.

Lemma assign_total (g : Style -> Style) (v : ptr) (h : heap) (r : View) :
  h !! v = Some r ->
  (hasParent r = true -> exists p, parent r = Some p /\ is_Some (h !! p)) ->
  is_Some (assign g v h).
Proof.
  intros Hv Hpar. destruct (assign_spec g v h r Hv Hpar) as (h' & E & _).
  rewrite E. eauto.
Qed.

Lemma setter_total (s : setter) (v : ptr) (h : heap) (r : View) :
  h !! v = Some r ->
  (hasParent r = true -> exists p, parent r = Some p /\ is_Some (h !! p)) ->
  is_Some (call s v h).
Proof.
  intros Hv Hpar. destruct s; simpl; now apply (assign_total _ v h r).
Qed.

(** In a consistent heap no setter panics on an existing view, and the
    setters keep child lists and back-references in agreement: they
    leave the child list, the [hasParent] mark and the back-reference of
    every view as they were. *)
Theorem setter_consistent (s : setter) (v : ptr) (h : heap) :
  consistent h -> is_Some (h !! v) ->
  exists h',
    call s v h = Some h'
    /\ consistent h'
    /\ forall x, option_Forall2 same_links (h !! x) (h' !! x).
Proof.
  intros C [r Hv].
  destruct (setter_total s v h r Hv) as [h' E].
  { intros Hp. destruct (C _ _ Hv) as (_ & _ & B).
    destruct (B Hp) as (p & rp & P1 & P2 & _). eauto. }
  exists h'. split; [exact E|].
  assert (R : forall x, option_Forall2 same_links (h !! x) (h' !! x)).
  { assert (A : exists g, assign g v h = Some h')
      by (destruct s; simpl in E; eauto).
    destruct A as [g A]. unfold assign in A.
    destruct (store v (fun r => set_style (g r) r) h) as [h1|] eqn:E1;
      [|discriminate].
    simpl in A. eapply same_links_trans; [|exact (Layout_same_links _ _ _ A)].
    exact (store_same_links v (fun r => set_style (g r) r) _ _
             (fun r => conj eq_refl (conj eq_refl eq_refl)) E1). }
  split; [|exact R]. exact (consistent_same_links _ _ R C).
Qed.

Lemma setter_consistent_witness :
  exists h',
    call (CallSetGrow 1) 1%nat Examples.parentAndChild = Some h'
    /\ consistent h'
    /\ forall x, option_Forall2 same_links
                   (Examples.parentAndChild !! x) (h' !! x).
Proof.
  apply (setter_consistent (CallSetGrow 1) 1%nat Examples.parentAndChild).
  - exact consistent_parentAndChild.
  - eexists. reflexivity.
Defined.

(** [addChild] does not look at the parent the view may have: handing
    it a view that another container holds leaves that container's
    child list as it was, so the view ends up in two child lists and the
    hierarchy is no longer consistent. *)
Theorem addChild_shared_view (v p cv : ptr) (h : heap) (rp : View) :
  consistent h -> is_Some (h !! v) ->
  h !! p = Some rp -> cv ∈ held rp -> p <> v ->
  exists h' rv' rp',
    addChild v cv h = Some h'
    /\ h' !! v = Some rv' /\ cv ∈ held rv'
    /\ h' !! p = Some rp' /\ cv ∈ held rp'
    /\ ~ consistent h'.
Proof.
  intros C [rv Hv] Hp Hin Hne.
  destruct (C _ _ Hp) as (_ & A & _).
  destruct (A cv Hin) as (rc & Hc & _).
  destruct (addChild_edit v cv h rv Hv (ex_intro _ rc Hc)) as (h' & E & L).
  exists h'. do 2 eexists. split; [exact E|].
  assert (Hv' : h' !! v
                = Some (edit v (children rv ++ [newChild cv]) [cv] true
                          (Some v) v rv))
    by (rewrite L, Hv; reflexivity).
  assert (Hp' : h' !! p
                = Some (edit v (children rv ++ [newChild cv]) [cv] true
                          (Some v) p rp))
    by (rewrite L, Hp; reflexivity).
  assert (I1 : cv ∈ held (edit v (children rv ++ [newChild cv]) [cv] true
                            (Some v) v rv)).
  { rewrite held_edit. destruct (decide (v = v)); [|congruence].
    rewrite map_app. apply elem_of_app. right.
    apply list_elem_of_singleton. reflexivity. }
  assert (I2 : cv ∈ held (edit v (children rv ++ [newChild cv]) [cv] true
                            (Some v) p rp)).
  { rewrite held_edit. destruct (decide (p = v)); [congruence|exact Hin]. }
  split; [exact Hv'|]. split; [exact I1|]. split; [exact Hp'|].
  split; [exact I2|].
  intros C'. apply Hne. symmetry.
  exact (consistent_single_holder h' v p cv _ _ C' Hv' Hp' I1 I2).
Qed.

Lemma addChild_shared_view_witness :
  exists h' rv' rp',
    addChild 2%nat 1%nat
      (<[2%nat := newView zeroStyle]> Examples.parentAndChild) = Some h'
    /\ h' !! 2%nat = Some rv' /\ 1%nat ∈ held rv'
    /\ h' !! 0%nat = Some rp' /\ 1%nat ∈ held rp'
    /\ ~ consistent h'.
Proof.
  apply (addChild_shared_view 2%nat 0%nat 1%nat
           (<[2%nat := newView zeroStyle]> Examples.parentAndChild)
           (set_isDirty true
              (set_children [newChild 1%nat] (newView zeroStyle)))).
  - exact consistent_parentAndChild_more.
  - eexists. reflexivity.
  - reflexivity.
  - unfold held. simpl. apply list_elem_of_singleton. reflexivity.
  - lia.
Defined.

Lemma indexOf_last (cv : ptr) (l : list (child ptr)) (c : child ptr) :
  item c = cv -> cv ∉ map item l ->
  indexOf cv (l ++ [c]) = Some (length l).
Proof.
  intros Hc Hn. induction l as [|c0 l IH]; simpl.
  - subst cv. now rewrite Nat.eqb_refl.
  - simpl in Hn. apply not_elem_of_cons in Hn as [Hne Hn].
    destruct (item c0 =? cv)%nat eqn:E;
      [apply Nat.eqb_eq in E; congruence|].
    now rewrite (IH Hn).
Qed.

(** In a consistent hierarchy [PopChild] is [RemoveChild] of the last
    child: when [PopChild] returns a view, removing that view by name
    gives the same heap. *)
Theorem PopChild_is_RemoveChild (v cv : ptr) (h h' : heap) :
  consistent h -> PopChild v h = Some (h', Some cv) ->
  RemoveChild v cv h = Some (h', true).
Proof.
  intros C HP. destruct (h !! v) as [r|] eqn:Hv;
    [|unfold PopChild in HP; rewrite Hv in HP; discriminate].
  destruct (C _ _ Hv) as (N & A & _).
  assert (Hcs : children r = [] \/ exists l c, children r = l ++ [c])
    by (destruct (children r) using rev_ind; eauto).
  destruct Hcs as [Hc|(l & c & Hc)].
  { unfold PopChild in HP. rewrite Hv in HP. simpl in HP.
    rewrite Hc in HP. discriminate. }
  assert (Hheld : held r = map item l ++ [item c])
    by (unfold held; rewrite Hc, map_app; reflexivity).
  destruct (A (item c)) as (rc & Hrc & _).
  { rewrite Hheld. apply elem_of_app. right.
    apply list_elem_of_singleton. reflexivity. }
  destruct (PopChild_edit v h r l c Hv Hc (ex_intro _ rc Hrc))
    as (h1 & E1 & L1).
  rewrite E1 in HP. injection HP as <- <-.
  assert (Hfresh : item c ∉ map item l).
  { rewrite Hheld in N. apply NoDup_app in N as (_ & N & _).
    intros Hin. apply (N _ Hin), list_elem_of_singleton. reflexivity. }
  assert (Hi : indexOf (item c) (children r) = Some (length l))
    by (rewrite Hc; now apply indexOf_last).
  destruct (RemoveChild_edit v (item c) h r (length l) Hv Hi
              (ex_intro _ rc Hrc)) as (h2 & E2 & L2).
  rewrite E2. do 2 f_equal. apply map_eq. intros x.
  rewrite L1, L2, Hc.
  rewrite take_app_length, drop_app_ge by lia.
  replace (S (length l) - length l)%nat with 1%nat by lia.
  simpl. rewrite app_nil_r. reflexivity.
Qed.

Lemma PopChild_is_RemoveChild_witness :
  exists h',
    PopChild 0%nat Examples.parentAndChild = Some (h', Some 1%nat)
    /\ RemoveChild 0%nat 1%nat Examples.parentAndChild = Some (h', true).
Proof.
  eexists. split; [vm_compute; reflexivity|].
  apply (PopChild_is_RemoveChild 0%nat 1%nat Examples.parentAndChild).
  - exact consistent_parentAndChild.
  - vm_compute. reflexivity.
Defined.

Lemma ancestor_is_Some (h : heap) (x a : ptr) :
  ancestor h x a -> is_Some (h !! x).
Proof. intros [? ? ? E _ _|? ? ? ? E _ _ _]; eauto. Qed.

(** The chain of back-references from [p] up to a view without parent
    does not pass through that view, so attaching the view leaves the
    chain in place. *)
Lemma ancestor_attach (h h' : heap) (v cv x : ptr) (L : list (child ptr))
    (rc : View) :
  h !! cv = Some rc -> hasParent rc = false ->
  (forall y, h' !! y = edit v L [cv] true (Some v) y <$> h !! y) ->
  ancestor h x cv -> ancestor h' x cv.
Proof.
  intros Hc Hp E A.
  assert (Keep : forall y r, h !! y = Some r -> hasParent r = true ->
                 exists r', h' !! y = Some r'
                            /\ hasParent r' = true /\ parent r' = parent r).
  { intros y r Hy Hr. eexists. split; [rewrite E, Hy; reflexivity|].
    rewrite hasParent_edit, parent_edit.
    destruct (decide (y ∈ [cv])) as [Hin|_]; [|auto].
    apply list_elem_of_singleton in Hin. subst y. congruence. }
  induction A as [x p r Hx Hr Hpar|x p a r Hx Hr Hpar _ IH].
  - destruct (Keep x r Hx Hr) as (r' & E1 & E2 & E3).
    apply (ancestor_parent h' x p r'); congruence.
  - destruct (Keep x r Hx Hr) as (r' & E1 & E2 & E3).
    apply (ancestor_step h' x p a r'); try congruence. now apply IH.
Qed.

(** [AddTo] does not look for cycles: a view without parent can be
    attached to itself or to a view below it, and is then its own
    ancestor. *)
Theorem AddTo_makes_cycle (v p : ptr) (h : heap) (r : View) :
  h !! v = Some r -> hasParent r = false ->
  p = v \/ ancestor h p v ->
  exists h', AddTo v p h = Some h' /\ ancestor h' v v.
Proof.
  intros Hv Hp Hpv.
  assert (Sp : is_Some (h !! p))
    by (destruct Hpv as [->|A]; [eauto | exact (ancestor_is_Some _ _ _ A)]).
  destruct Sp as [rp Hrp].
  destruct (addChild_edit p v h rp Hrp (ex_intro _ r Hv)) as (h' & E & L).
  exists h'. split.
  - unfold AddTo. rewrite Hv. simpl. rewrite Hp. simpl. now rewrite E.
  - assert (Hv' : exists r', h' !! v = Some r'
                             /\ hasParent r' = true /\ parent r' = Some p).
    { eexists. split; [rewrite L, Hv; reflexivity|].
      rewrite hasParent_edit, parent_edit.
      destruct (decide (v ∈ [v])) as [_|Hn]; [auto|].
      exfalso. apply Hn, list_elem_of_singleton. reflexivity. }
    destruct Hv' as (r' & E1 & E2 & E3).
    destruct Hpv as [->|A].
    + exact (ancestor_parent h' v v r' E1 E2 E3).
    + apply (ancestor_step h' v p v r' E1 E2 E3).
      exact (ancestor_attach h h' p v p _ r Hv Hp L A).
Qed.

Lemma AddTo_makes_cycle_witness :
  exists h',
    AddTo 0%nat 1%nat Examples.parentAndChild = Some h'
    /\ ancestor h' 0%nat 0%nat.
Proof.
  apply (AddTo_makes_cycle 0%nat 1%nat Examples.parentAndChild
           (set_isDirty true
              (set_children [newChild 1%nat] (newView zeroStyle)))).
  - reflexivity.
  - reflexivity.
  - right.
    apply (ancestor_parent Examples.parentAndChild 1%nat 0%nat
             (set_parent true (Some 0%nat) (newView zeroStyle)));
      reflexivity.
Defined.

End HeapEdits.

(* ================================================================= *)
(** ** The tick, continued *)

Lemma skeleton_eq (v : View) :
  skeleton v
  = SkeletonNode (style v) (hasParent v)
      (map (fun c : child View => skeleton (item c)) (children v)).
Proof. destruct v; reflexivity. Qed.

Lemma skeleton_of_core (l l' : list (child View)) :
  map core l = map core l' ->
  map (fun c : child View => skeleton (item c)) l
  = map (fun c : child View => skeleton (item c)) l'.
Proof.
  revert l'. induction l as [|c l IH]; intros [|c' l'] H; try discriminate;
    [reflexivity|].
  simpl in H. apply cons_eq_split in H as [Hc Hl].
  simpl. rewrite (IH _ Hl). f_equal.
  rewrite (skeleton_eq (item c)), (skeleton_eq (item c')).
  unfold core in Hc. now inversion Hc.
Qed.

Lemma layout_style (f : View) (w h : float) : style (layout f w h) = style f.
Proof.
  unfold layout. destruct (intrinsicMain _) as [lines ims].
  unfold setCrossSize, setMainSize.
  destruct f as [s ? ? ? ? ? ?].
  destruct s as [? ? ? ? ? ? ? ? ? ? ? ? ? dir ? ? ? ? ? ? ? ?].
  destruct dir; reflexivity.
Qed.

Lemma skeleton_startLayout (v : View) : skeleton (startLayout v) = skeleton v.
Proof.
  induction v as [v IH] using View_nested_ind.
  rewrite startLayout_before, skeleton_eq, (skeleton_eq v).
  change (style (set_isDirty false ?x)) with (style x).
  change (hasParent (set_isDirty false ?x)) with (hasParent x).
  change (children (set_isDirty false ?x)) with (children x).
  rewrite layout_style, (proj2 (layout_frame _ _ _)).
  rewrite (skeleton_of_core _ _ (layout_core _ _ _)).
  unfold beforeLayout.
  change (style (set_children ?cs (set_frame ?fr ?x))) with (style x).
  change (hasParent (set_children ?cs (set_frame ?fr ?x))) with (hasParent x).
  change (children (set_children ?cs _)) with cs.
  f_equal. rewrite map_map. apply map_ext_Forall.
  eapply Forall_impl; [exact IH|]. intros c Hc. simpl in Hc |- *.
  destruct (Position (item c)); [exact Hc | reflexivity].
Qed.

(** A tick never edits a style attribute or a [hasParent] mark, and
    never adds, drops or reorders a view: the skeleton of the tree after
    the tick is the skeleton before it. *)
Theorem Update_skeleton (n : nat) (v v1 : View) :
  Update n v = Some v1 -> skeleton v1 = skeleton v.
Proof.
  revert v v1. induction n as [|n IH]; intros v v1 H; [discriminate|].
  simpl in H.
  set (v0 := if isDirty v then startLayout v else v) in H.
  assert (S0 : skeleton v0 = skeleton v).
  { subst v0. destruct (isDirty v); [apply skeleton_startLayout|reflexivity]. }
  destruct (mapM _ (children v0)) as [cs|] eqn:M; [|discriminate].
  simpl in H. injection H as <-. rewrite <- S0.
  rewrite skeleton_eq, (skeleton_eq v0).
  change (style (set_children cs v0)) with (style v0).
  change (hasParent (set_children cs v0)) with (hasParent v0).
  change (children (set_children cs v0)) with cs.
  f_equal. apply mapM_Some_1 in M. clear -M IH.
  induction M as [|c c' l l' Hc _ IHM]; [reflexivity|].
  simpl. rewrite IHM. f_equal.
  destruct (Update n (item c)) as [it|] eqn:E; [|discriminate].
  simpl in Hc. injection Hc as <-. simpl. now apply IH.
Qed.

Lemma Update_skeleton_witness :
  exists v1,
    Update 2 Examples.wrapRow = Some v1
    /\ skeleton v1 = skeleton Examples.wrapRow.
Proof.
  destruct (Update 2 Examples.wrapRow) as [v1|] eqn:E;
    [|vm_compute in E; discriminate].
  exists v1. split; [reflexivity|].
  exact (Update_skeleton 2 Examples.wrapRow v1 E).
Defined.

(** A tick over a tree in which no view is dirty changes nothing at all:
    no frame, no calculated size, no flag. *)
Theorem Update_clean (n : nat) (v : View) :
  cleanb v = true -> (depth v <= n)%nat -> Update n v = Some v.
Proof.
  revert v. induction n as [|n IH]; intros v Hc Hd.
  - rewrite depth_eq in Hd. lia.
  - destruct v as [s cs d fr cw ch hp]. simpl in Hc.
    apply andb_true_iff in Hc as [Hdirty Hcs].
    apply negb_true_iff in Hdirty. subst d.
    rewrite depth_eq in Hd. apply Nat.succ_le_mono in Hd.
    change (children (mkView s cs false fr cw ch hp)) with cs in Hd.
    simpl.
    assert (M : mapM (fun c : child View =>
                  it ← Update n (item c);
                  Some (mkChild it (bounds c) (absolute c))) cs = Some cs).
    { apply mapM_Some_2. clear -IH Hcs Hd.
      induction cs as [|c cs IHcs]; constructor.
      - simpl in Hcs, Hd. apply andb_true_iff in Hcs as [Hc _].
        rewrite (IH (item c) Hc) by lia. simpl. now destruct c.
      - simpl in Hcs, Hd. apply andb_true_iff in Hcs as [_ Hcs].
        apply IHcs; [exact Hcs | lia]. }
    rewrite M. reflexivity.
Qed.

Lemma Update_clean_witness :
  Update 2 (set_isDirty false Examples.wrapRow)
  = Some (set_isDirty false Examples.wrapRow).
Proof.
  apply (Update_clean 2 (set_isDirty false Examples.wrapRow)).
  - reflexivity.
  - vm_compute. lia.
Defined.






(** [UpdateWithSize] on a view that has a parent, or on a root that has
    the given size already, is [Update]: the size arguments are
    dropped. *)
Lemma UpdateWithSize_ignored (n : nat) (width height : float) (v : View) :
  hasParent v = true
  \/ ((Width v =? width) = true /\ (Height v =? height) = true) ->
  UpdateWithSize n width height v = Update n v.
Proof.
  intros [Hp|[Hw Hh]]; unfold UpdateWithSize, neqb.
  - now rewrite Hp.
  - rewrite Hw, Hh. simpl. now rewrite andb_false_r.
Qed.

(* ================================================================= *)
(** ** Children outside the flow *)

Lemma scanned_lookup (f : View) (i : nat) (c : child View) :
  children f !! i = Some c ->
  map fst (map (scanChild f) (children f)) !! i = Some (fst (scanChild f c)).
Proof. intros Hi. now rewrite !list_lookup_fmap, Hi. Qed.

(** A pass leaves a child that is not displayed exactly as it was: its
    frame, its bounds, its [absolute] mark and its dirty flag keep their
    values, whatever its position attributes say. *)
Theorem layout_skips_undisplayed (f : View) (w h : float) (i : nat)
    (c : child View) :
  children f !! i = Some c -> Display (item c) = DisplayNone ->
  children (layout f w h) !! i = Some c.
Proof.
  intros Hi Hd. rewrite layout_children_eq.
  apply writeBack_lookup_outside.
  - rewrite (scanned_lookup f i c Hi). unfold scanChild. now rewrite Hd.
  - unfold inFlow. now rewrite Hd.
Qed.

Lemma layout_skips_undisplayed_witness :
  children (layout (beforeLayout Examples.absoluteHidden) 100 100) !! 0%nat
  = children (beforeLayout Examples.absoluteHidden) !! 0%nat.
Proof.
  apply (layout_skips_undisplayed (beforeLayout Examples.absoluteHidden)
           100 100 0%nat); reflexivity.
Defined.

Lemma writeBack_all_flow (cs nodes : list (child View)) :
  forallb inFlow cs = true -> length nodes = length cs ->
  writeBack cs nodes = nodes.
Proof.
  revert nodes. induction cs as [|c cs IH]; intros [|n ns] Hf Hl;
    try discriminate; [reflexivity|].
  simpl in *. apply andb_true_iff in Hf as [Hc Hf]. rewrite Hc.
  f_equal. apply IH; [exact Hf | lia].
Qed.

Lemma forallb_filter_inFlow (cs : list (child View)) :
  forallb inFlow (List.filter inFlow cs) = true.
Proof.
  induction cs as [|c cs IH]; [reflexivity|]. simpl.
  destruct (inFlow c) eqn:E; [simpl; now rewrite E|exact IH].
Qed.

Lemma filter_filter_inFlow (cs : list (child View)) :
  List.filter inFlow (List.filter inFlow cs) = List.filter inFlow cs.
Proof.
  induction cs as [|c cs IH]; [reflexivity|]. simpl.
  destruct (inFlow c) eqn:E; [simpl; now rewrite E, IH|exact IH].
Qed.

(** The container with the children outside the flow taken away. *)
Lemma committedNodes_flow_only (f : View) (w h : float) :
  committedNodes (set_children (List.filter inFlow (children f)) f) w h
  = committedNodes f w h.
Proof.
  unfold committedNodes.
  assert (E : flowElements (set_children (List.filter inFlow (children f)) f)
              = flowElements f).
  { rewrite !flowElements_eq.
    change (children (set_children ?cs _)) with cs.
    rewrite filter_filter_inFlow. destruct f; reflexivity. }
  rewrite E. destruct f; reflexivity.
Qed.

Lemma inFlow_scanned (f : View) (cs : list (child View)) :
  forallb inFlow cs = true ->
  forallb inFlow (map fst (map (scanChild f) cs)) = true.
Proof.
  induction cs as [|c cs IH]; [reflexivity|]. simpl. intros H.
  apply andb_true_iff in H as [Hc Hcs]. rewrite (IH Hcs), andb_true_r.
  rewrite (inFlow_core _ c (core_scanChild f c)). exact Hc.
Qed.

Lemma layout_sizes (f : View) (w h : float) :
  let lines := intrinsicMain (layoutLines f w h (flowElements f)) in
  calculatedWidth (layout f w h)
  = calculatedWidth
      (setCrossSize (intrinsicCross (fst lines)) (setMainSize (snd lines) f))
  /\ calculatedHeight (layout f w h)
     = calculatedHeight
         (setCrossSize (intrinsicCross (fst lines)) (setMainSize (snd lines) f)).
Proof.
  unfold layout, flowElements. destruct (intrinsicMain _) as [lines ims].
  split; reflexivity.
Qed.

(** Children outside the flow (absolute ones and those not displayed)
    take no room: the frames, bounds and sizes a pass gives the children
    in the flow, and the calculated size it gives the container, are
    those it gives when the container holds the children in the flow
    only. *)
Theorem layout_flow_only (f : View) (w h : float) :
  let f' := set_children (List.filter inFlow (children f)) f in
  children (layout f' w h) = List.filter inFlow (children (layout f w h))
  /\ calculatedWidth (layout f' w h) = calculatedWidth (layout f w h)
  /\ calculatedHeight (layout f' w h) = calculatedHeight (layout f w h).
Proof.
  intros f'. split.
  - rewrite layout_flow_children, layout_children_eq.
    subst f'. rewrite committedNodes_flow_only.
    change (children (set_children ?cs _)) with cs.
    apply writeBack_all_flow.
    + apply inFlow_scanned, forallb_filter_inFlow.
    + pose proof (core_committedNodes f w h) as C.
      apply (f_equal (@length _)) in C. rewrite !length_map in C.
      rewrite C, !length_map.
      pose proof (filter_inFlow_core _ _ (core_scanned f)) as D.
      apply (f_equal (@length _)) in D. rewrite !length_map in D. exact D.
  - assert (E : flowElements f' = flowElements f).
    { subst f'. rewrite !flowElements_eq.
      change (children (set_children ?cs _)) with cs.
      rewrite filter_filter_inFlow. destruct f; reflexivity. }
    destruct (layout_sizes f' w h) as [W' H'].
    destruct (layout_sizes f w h) as [W0 H0].
    rewrite W', H', W0, H0, E. clear W' H' W0 H0 E. subst f'.
    destruct f as [s cs d fr cw ch hp].
    destruct s as [? ? ? ? ? ? ? ? ? ? ? ? ? dir ? ? ? ? ? ? ? ?].
    destruct dir; split; reflexivity.
Qed.

Lemma absolute_resolvePercent (f : View) (w h : float)
    (es : list element.t) :
  map (fun e => absolute (element.node e)) (resolvePercent f w h es)
  = map (fun e => absolute (element.node e)) es.
Proof.
  assert (A : forall (g : element.t -> element.t) l,
             (forall e, absolute (element.node (g e))
                        = absolute (element.node e)) ->
             map (fun e => absolute (element.node e)) (map g l)
             = map (fun e => absolute (element.node e)) l).
  { intros g l Hg. rewrite map_map. now apply map_ext. }
  unfold resolvePercent. destruct (Direction f).
  - rewrite A by (intros e; unfold resolveCrossHeight; now destruct (gtb _ _)).
    destruct (gtb _ _); [|reflexivity].
    apply A. intros e. unfold resolveMainWidth. now destruct (gtb _ _).
  - rewrite A by (intros e; unfold resolveCrossWidth; now destruct (gtb _ _)).
    destruct (gtb _ _); [|reflexivity].
    apply A. intros e. unfold resolveMainHeight. now destruct (gtb _ _).
Qed.

(** For every child in the flow a pass writes the bounds relative to
    the container and the frame in the coordinates of the root: the
    frame is the bounds moved by the container's own origin; and the
    child is marked as not absolute. *)
Theorem flow_frame_is_bounds_moved (f : View) (w h : float) :
  Forall (fun c : child View =>
            frame (item c) = geo.Add (bounds c) (geo.Min (frame f))
            /\ absolute c = false)
         (List.filter inFlow (children (layout f w h))).
Proof.
  rewrite layout_flow_children.
  assert (A : map absolute (committedNodes f w h)
              = map (fun _ => false) (committedNodes f w h)).
  { rewrite (committedNodes_project absolute) by reflexivity.
    rewrite map_map, absolute_resolvePercent, flowElements_eq, map_map.
    simpl. rewrite committedNodes_eq, !map_map.
    pose proof (f_equal (@length _) (core_committedNodes f w h)) as Len.
    rewrite committedNodes_eq, !length_map in Len.
    pose proof (filter_inFlow_core _ _ (core_scanned f)) as D.
    apply (f_equal (@length _)) in D. rewrite !length_map in D.
    rewrite D in Len. clear D. revert Len.
    generalize (concat (map flexLine.child
      (fst (intrinsicMain (layoutLines f w h (flowElements f)))))).
    generalize (List.filter inFlow (children f)).
    induction l as [|c l IH]; intros [|e es] Len; try discriminate;
      [reflexivity|].
    simpl. f_equal. apply IH. simpl in Len. lia. }
  rewrite committedNodes_eq in *. rewrite !map_map in A.
  apply Forall_forall. intros c Hc. apply list_elem_of_fmap in Hc
    as (e & -> & He). split; [reflexivity|].
  clear -A He. induction (concat _) as [|e0 es IH];
    [now apply elem_of_nil in He|].
  simpl in A. apply cons_eq_split in A as [A0 A].
  apply elem_of_cons in He as [->|He]; [exact A0 | now apply IH].
Qed.

(* ================================================================= *)
(** ** Inflexible children *)

Lemma flexLoop_lookup_frozen f grow w h fs es i e :
  es !! i = Some e -> element.frozen e = true ->
  exists e',
    flexLoop f grow w h fs es !! i = Some e'
    /\ element.mainSize e' = element.mainSize e
    /\ element.node e' = element.node e.
Proof.
  intros Hi Hf. unfold flexLoop. destruct (forallb _ _); [eauto|].
  unfold distribute. destruct (remainingFreeSpace _ _ _ _ _) as [r u].
  destruct grow; rewrite !list_lookup_fmap, Hi; simpl;
    unfold growChild, shrinkChild; rewrite Hf; eauto.
Qed.

(** A child whose flex factor for the line's mode is zero (its grow
    factor when the line is shorter than the container, its shrink
    factor otherwise) leaves flexible-length resolution with its own
    resolved main size, whatever the other children of the line get. *)
Theorem inflexible_child_keeps_size (f : View) (w h : float)
    (line : flexLine.t) (i : nat) (e : element.t) :
  flexLine.child line !! i = Some e ->
  ((if flexLine.mainSize line <? mainSize f w h
    then Grow (element.view e) else Shrink (element.view e)) =? 0) = true ->
  exists e',
    flexLine.child (resolveFlexibleLengths f w h line) !! i = Some e'
    /\ element.mainSize e' = itemMainSize f e
    /\ element.node e' = element.node e.
Proof.
  intros Hi Hz. unfold resolveFlexibleLengths.
  change (flexLine.child (flexLine.set_child ?cs _)) with cs.
  set (grow := flexLine.mainSize line <? mainSize f w h) in *.
  destruct (flexLoop_lookup_frozen f grow w h
              (initialFreeSpace f w h (map (freeze f grow) (flexLine.child line)))
              (map (freeze f grow) (flexLine.child line)) i (freeze f grow e))
    as (e' & E1 & E2 & E3).
  - now rewrite list_lookup_fmap, Hi.
  - unfold freeze. now rewrite Hz.
  - exists e'. split; [exact E1|]. rewrite E2, E3. unfold freeze.
    rewrite Hz. split; reflexivity.
Qed.

Lemma inflexible_child_keeps_size_witness :
  let f := beforeLayout Examples.wrapRow in
  let e := newElement f (mkChild (newView (Examples.box 100 100)) geo.ZR false) in
  exists e',
    flexLine.child
      (resolveFlexibleLengths f 200 200 (flexLine.mk 100 0 0 [e])) !! 0%nat
    = Some e'
    /\ element.mainSize e' = itemMainSize f e
    /\ element.node e' = element.node e.
Proof.
  intros f e.
  apply (inflexible_child_keeps_size f 200 200 (flexLine.mk 100 0 0 [e])
           0%nat e); reflexivity.
Defined.

(* ================================================================= *)
(** ** Attributes the pass does not tell apart *)

(** [WrapReverse] is laid out as [Wrap]: the pass only asks whether the
    wrap attribute is [NoWrap], so the lines are not reversed. *)
Theorem wrap_reverse_as_wrap (f : View) (w h : float) :
  Wrap f = flex.Wrap ->
  layout (set_style (with_Wrap WrapReverse (style f)) f) w h
  = set_style (with_Wrap WrapReverse (style f)) (layout f w h).
Proof.
  intros Hw. destruct f as [s cs d fr cw ch hp].
  destruct s as [? ? ? ? ? ? ? ? ? ? ? ? ? dir wr ? ? ? ? ? ? ?].
  simpl in Hw. subst wr. unfold layout.
  destruct dir; reflexivity.
Qed.

Lemma wrap_reverse_as_wrap_witness :
  layout (set_style (with_Wrap WrapReverse (style Examples.wrapRow))
            Examples.wrapRow) 200 200
  = set_style (with_Wrap WrapReverse (style Examples.wrapRow))
      (layout Examples.wrapRow 200 200).
Proof.
  apply (wrap_reverse_as_wrap Examples.wrapRow 200 200). reflexivity.
Defined.

(* ================================================================= *)
(** ** geo.Rect, continued *)

Lemma gtb_asym (x y : float) : gtb x y = true -> gtb y x = false.
Proof.
  unfold gtb. rewrite !FloatAxioms.ltb_spec. unfold SFltb.
  rewrite (SFcompare_antisym (Prim2SF y) (Prim2SF x)).
  destruct (SFcompare (Prim2SF y) (Prim2SF x)) as [[]|]; simpl; congruence.
Qed.

(** [geo.Rect] is idempotent: the corners of a rectangle it returned,
    given to it again in their order, come back as they are.  This holds
    for all float64 values, NaN and the infinities included. *)
Theorem Rect_idempotent (x0 y0 x1 y1 : float) :
  let r := geo.Rect x0 y0 x1 y1 in
  geo.Rect (geo.X (geo.Min r)) (geo.Y (geo.Min r))
           (geo.X (geo.Max r)) (geo.Y (geo.Max r)) = r.
Proof.
  intros r. subst r. unfold geo.Rect.
  destruct (gtb x0 x1) eqn:Ex, (gtb y0 y1) eqn:Ey; simpl;
    rewrite ?(gtb_asym _ _ Ex), ?(gtb_asym _ _ Ey), ?Ex, ?Ey; reflexivity.
Qed.

Lemma SFcompare_refl (x : spec_float) :
  x <> S754_nan -> SFcompare x x = Some Eq.
Proof.
  destruct x as [[]|[]| |[] m e]; simpl; intros H; try reflexivity;
    try congruence;
    rewrite Z.compare_refl, Pos.compare_cont_refl; reflexivity.
Qed.

Lemma is_nan_true_spec (x : float) :
  is_nan x = true -> Prim2SF x = S754_nan.
Proof.
  unfold is_nan. rewrite FloatAxioms.eqb_spec. unfold SFeqb. intros H.
  destruct (Prim2SF x) as [[]|[]| |[] m e] eqn:E; try reflexivity;
    rewrite SFcompare_refl in H by discriminate; discriminate.
Qed.

Lemma nan_compare (x y : float) :
  is_nan x = true \/ is_nan y = true ->
  gtb x y = false /\ (x <=? y) = false.
Proof.
  unfold gtb. rewrite FloatAxioms.ltb_spec, FloatAxioms.leb_spec.
  unfold SFltb, SFleb.
  intros [H|H]; apply is_nan_true_spec in H; rewrite H; clear H;
    [destruct (Prim2SF y) | destruct (Prim2SF x)]; split; reflexivity.
Qed.

(** With a NaN among the two coordinates of an axis, [geo.Rect] keeps
    the pair in the order given, and the rectangle it returns has
    neither [Min.X <= Max.X] nor [Min.X > Max.X]. *)
Theorem Rect_nan_unordered (x0 y0 x1 y1 : float) :
  is_nan x0 = true \/ is_nan x1 = true ->
  let r := geo.Rect x0 y0 x1 y1 in
  geo.X (geo.Min r) = x0 /\ geo.X (geo.Max r) = x1
  /\ (geo.X (geo.Min r) <=? geo.X (geo.Max r)) = false
  /\ gtb (geo.X (geo.Min r)) (geo.X (geo.Max r)) = false.
Proof.
  intros H r. destruct (nan_compare x0 x1 H) as [G Le].
  subst r. unfold geo.Rect. rewrite G.
  destruct (gtb y0 y1); simpl; auto.
Qed.

Lemma Rect_nan_unordered_witness :
  let r := geo.Rect nan 0 1 2 in
  geo.X (geo.Min r) = nan /\ geo.X (geo.Max r) = 1
  /\ (geo.X (geo.Min r) <=? geo.X (geo.Max r)) = false
  /\ gtb (geo.X (geo.Min r)) (geo.X (geo.Max r)) = false.
Proof.
  apply (Rect_nan_unordered nan 0 1 2). left. reflexivity.
Defined.

(* ================================================================= *)
(** ** Percentages, continued *)

Lemma resolvePercent_flexBaseSize (f : View) (w h : float)
    (es : list element.t) :
  map element.flexBaseSize (resolvePercent f w h es)
  = map element.flexBaseSize es.
Proof.
  assert (A : forall (g : element.t -> element.t) l,
             (forall e, element.flexBaseSize (g e) = element.flexBaseSize e) ->
             map element.flexBaseSize (map g l) = map element.flexBaseSize l).
  { intros g l Hg. rewrite map_map. now apply map_ext. }
  unfold resolvePercent. destruct (Direction f).
  - rewrite A by (intros e; unfold resolveCrossHeight; now destruct (gtb _ _)).
    destruct (gtb _ _); [|reflexivity].
    apply A. intros e. unfold resolveMainWidth. now destruct (gtb _ _).
  - rewrite A by (intros e; unfold resolveCrossWidth; now destruct (gtb _ _)).
    destruct (gtb _ _); [|reflexivity].
    apply A. intros e. unfold resolveMainHeight. now destruct (gtb _ _).
Qed.

(** The flex base sizes that line collection works with are those taken
    when the children were scanned, from the calculated sizes the children
    had before the pass: the sizes that percentage resolution writes in
    this pass do not enter them (the write-back
    [c.flexBaseSize = f.flexBaseSize(c.node)] goes to a copy of the
    element). *)
Theorem percent_leaves_flexBaseSize (f : View) (w h cms : float) :
  map element.flexBaseSize
      (concat (map flexLine.child
                 (collectLines f cms (resolvePercent f w h (flowElements f)))))
  = map (flexBaseSize f) (List.filter inFlow (children f)).
Proof.
  rewrite collectLines_concat, map_map.
  change (fun x => element.flexBaseSize (withMainMargin f x))
    with element.flexBaseSize.
  rewrite resolvePercent_flexBaseSize, flowElements_eq, map_map.
  reflexivity.
Qed.

Lemma calculatedHeight_resolveMainWidth w r e :
  calculatedHeight (element.view (resolveMainWidth w r e))
  = calculatedHeight (element.view e)
  /\ HeightInPct (element.view (resolveMainWidth w r e))
     = HeightInPct (element.view e)
  /\ element.heightInPct (resolveMainWidth w r e) = element.heightInPct e.
Proof. unfold resolveMainWidth. destruct (gtb _ _); repeat split. Qed.

Lemma calculatedWidth_resolveMainHeight h r e :
  calculatedWidth (element.view (resolveMainHeight h r e))
  = calculatedWidth (element.view e)
  /\ WidthInPct (element.view (resolveMainHeight h r e))
     = WidthInPct (element.view e)
  /\ element.widthInPct (resolveMainHeight h r e) = element.widthInPct e.
Proof. unfold resolveMainHeight. destruct (gtb _ _); repeat split. Qed.

Lemma resolvePercent_cross (f : View) (width height : float)
    (children : list element.t) :
  match Direction f with
  | Row =>
      map (fun e => calculatedHeight (element.view e))
          (resolvePercent f width height children)
      = map (fun e =>
               if gtb (element.heightInPct e) 0
               then height * HeightInPct (element.view e) / 100
               else calculatedHeight (element.view e))
            children
  | Column =>
      map (fun e => calculatedWidth (element.view e))
          (resolvePercent f width height children)
      = map (fun e =>
               if gtb (element.widthInPct e) 0
               then width * WidthInPct (element.view e) / 100
               else calculatedWidth (element.view e))
            children
  end.
Proof.
  unfold resolvePercent. destruct (Direction f).
  - rewrite map_map. destruct (gtb (rowRemFree width children) 0).
    + rewrite map_map. apply map_ext. intros e. unfold resolveCrossHeight.
      destruct (calculatedHeight_resolveMainWidth width
                  (rowRemFree width children) e) as (A & B & C).
      rewrite C. destruct (gtb (element.heightInPct e) 0); simpl.
      * f_equal. f_equal. exact B.
      * exact A.
    + apply map_ext. intros e. unfold resolveCrossHeight.
      now destruct (gtb (element.heightInPct e) 0).
  - rewrite map_map. destruct (gtb (colRemFree height children) 0).
    + rewrite map_map. apply map_ext. intros e. unfold resolveCrossWidth.
      destruct (calculatedWidth_resolveMainHeight height
                  (colRemFree height children) e) as (A & B & C).
      rewrite C. destruct (gtb (element.widthInPct e) 0); simpl.
      * f_equal. f_equal. exact B.
      * exact A.
    + apply map_ext. intros e. unfold resolveCrossWidth.
      now destruct (gtb (element.widthInPct e) 0).
Qed.

(** On the cross axis a percentage is resolved whether or not free
    space remains, and it is not capped: after the pass of a row every
    flow child with a height percentage above zero has the calculated
    height [height * percentage / 100], and the other calculated heights
    are as they were; in a column the same holds of the widths. *)
Theorem cross_percent_resolution (f : View) (width height : float) :
  let flow := List.filter inFlow (children f) in
  let after := List.filter inFlow (children (layout f width height)) in
  match Direction f with
  | Row =>
      map (fun c : child View => calculatedHeight (item c)) after
      = map (fun c : child View =>
               if gtb (HeightInPct (item c)) 0
               then height * HeightInPct (item c) / 100
               else calculatedHeight (item c))
            flow
  | Column =>
      map (fun c : child View => calculatedWidth (item c)) after
      = map (fun c : child View =>
               if gtb (WidthInPct (item c)) 0
               then width * WidthInPct (item c) / 100
               else calculatedWidth (item c))
            flow
  end.
Proof.
  intros flow after. subst after. rewrite layout_flow_children.
  pose proof (resolvePercent_cross f width height (flowElements f)) as R.
  destruct (Direction f).
  - rewrite (committedNodes_project
               (fun c : child View => calculatedHeight (item c)))
      by reflexivity.
    rewrite map_map.
    change (fun x : element.t => calculatedHeight (item (element.node x)))
      with (fun e => calculatedHeight (element.view e)).
    rewrite R, flowElements_eq. fold flow. rewrite !map_map. reflexivity.
  - rewrite (committedNodes_project
               (fun c : child View => calculatedWidth (item c)))
      by reflexivity.
    rewrite map_map.
    change (fun x : element.t => calculatedWidth (item (element.node x)))
      with (fun e => calculatedWidth (element.view e)).
    rewrite R, flowElements_eq. fold flow. rewrite !map_map. reflexivity.
Qed.

(* ================================================================= *)
(** ** Style attributes as text *)

Section StyleText.

Import String parser.
#[local] Open Scope string_scope.

Variable Atoi : string -> Z * error.
Variable ParseFloat : string -> float * error.

(** What the [String] method prints for a value of an enumeration, the
    parser reads back as that value: the declaration sets the attribute
    and reports no error.  The one exception is [WrapReverse], whose text
    [parseWrap] does not know: the declaration is reported as an error
    and leaves the view as it was. *)
Theorem String_values_parse_back (s : Style) :
  (forall d, parseStylePair Atoi ParseFloat "flex-direction"
               (Direction_String d) s = Some (with_Direction d s, None))
  /\ (forall j, parseStylePair Atoi ParseFloat "justify-content"
                  (Justify_String j) s = Some (with_Justify j s, None))
  /\ (forall a, parseStylePair Atoi ParseFloat "align-items"
                  (AlignItem_String a) s = Some (with_AlignItems a s, None))
  /\ (forall a, parseStylePair Atoi ParseFloat "align-content"
                  (AlignContent_String a) s
                = Some (with_AlignContent a s, None))
  /\ (forall p, parseStylePair Atoi ParseFloat "position"
                  (Position_String p) s = Some (with_Position p s, None))
  /\ (forall d, parseStylePair Atoi ParseFloat "display"
                  (Display_String d) s = Some (with_Display d s, None))
  /\ parseStylePair Atoi ParseFloat "flex-wrap" (FlexWrap_String NoWrap) s
     = Some (with_Wrap NoWrap s, None)
  /\ parseStylePair Atoi ParseFloat "flex-wrap" (FlexWrap_String flex.Wrap) s
     = Some (with_Wrap flex.Wrap s, None)
  /\ parseStylePair Atoi ParseFloat "flex-wrap"
       (FlexWrap_String WrapReverse) s
     = Some (s, Some "unknown wrap: wrap-reverse").
Proof.
  repeat split.
  - intros []; reflexivity.
  - intros []; reflexivity.
  - intros []; reflexivity.
  - intros []; reflexivity.
  - intros []; reflexivity.
  - intros []; reflexivity.
Qed.

Lemma styleMapper_pixelKeys (k : string) :
  k ∈ pixelKeys ->
  exists f, styleMapper Atoi ParseFloat k
            = Some (mkMapper (parseNumber Atoi) (setFunc KFloat64 f)).
Proof.
  unfold pixelKeys. intros H.
  repeat (apply elem_of_cons in H as [->|H]; [eexists; reflexivity|]).
  now apply elem_of_nil in H.
Qed.

(** A declaration of an offset or a margin ([left], [right], [top],
    [bottom], [margin-left], ...) whose value is a well-formed integer
    panics: [parseNumber] boxes the [int] that [Atoi] returns, and the
    setter asserts a [float64].  When the value is no integer the
    declaration is reported as an error and leaves the view as it was,
    so no such declaration ever sets its attribute. *)
Theorem pixel_declaration_panics (k v : string) (s : Style) :
  k ∈ pixelKeys ->
  parseStylePair Atoi ParseFloat k v s
  = match snd (Atoi (TrimSuffix v "px")) with
    | None => None
    | Some e => Some (s, Some e)
    end.
Proof.
  intros Hk. destruct (styleMapper_pixelKeys k Hk) as [f E].
  unfold parseStylePair. rewrite E. simpl. unfold parseNumber.
  destruct (Atoi (TrimSuffix v "px")) as [n [e|]]; reflexivity.
Qed.

(** A [width] or [height] declaration never reports an error and never
    panics.  A percentage that is above zero (or NaN) sets the percentage
    attribute; every other value sets the size in pixels, and it sets it
    to zero when the number is malformed or when it is a percentage that
    is zero or negative. *)
Theorem length_declaration (v : string) (s : Style) :
  let x := fst (ParseFloat (TrimSuffix v (if HasSuffix v "%" then "%" else "px"))) in
  let ok := match snd (ParseFloat (TrimSuffix v
                         (if HasSuffix v "%" then "%" else "px"))) with
            | None => true | Some _ => false end in
  parseStylePair Atoi ParseFloat "width" v s
  = Some (if HasSuffix v "%"
          then if ok && negb (x <=? 0)%float
               then with_WidthInPct x s else with_Width 0 s
          else if ok then with_Width x s else with_Width 0 s, None)
  /\ parseStylePair Atoi ParseFloat "height" v s
     = Some (if HasSuffix v "%"
             then if ok && negb (x <=? 0)%float
                  then with_HeightInPct x s else with_Height 0 s
             else if ok then with_Height x s else with_Height 0 s, None).
Proof.
  intros x ok. subst x ok. unfold parseStylePair. simpl. unfold parseLength.
  destruct (HasSuffix v "%").
  - destruct (ParseFloat (TrimSuffix v "%")) as [x [e|]]; simpl;
      [split; reflexivity|].
    destruct (x <=? 0)%float; split; reflexivity.
  - destruct (ParseFloat (TrimSuffix v "px")) as [x [e|]]; simpl;
      split; reflexivity.
Qed.

End StyleText.

Section StyleTextExamples.

Import String.
#[local] Open Scope string_scope.

Lemma pixel_declaration_panics_witness :
  parser.parseStylePair (fun _ => (10%Z, None)) (fun _ => (10, None))
    "margin-left" "10px" zeroStyle
  = None.
Proof.
  apply (pixel_declaration_panics (fun _ => (10%Z, None))
           (fun _ => (10, None)) "margin-left" "10px" zeroStyle).
  unfold parser.pixelKeys.
  do 4 apply list_elem_of_further. apply list_elem_of_here.
Defined.

End StyleTextExamples.

(* ================================================================= *)
(** ** Rows and columns are laid out alike *)

Lemma transpose_eq (v : View) :
  transpose v
  = mkView (transposeStyle (style v)) (map transposeChild (children v))
           (isDirty v) (transposeRect (frame v))
           (calculatedHeight v) (calculatedWidth v) (hasParent v).
Proof. destruct v; reflexivity. Qed.

Lemma fold_left_map_in {A B C} (g : A -> C -> A) (T : B -> C) (l : list B)
    (a : A) :
  fold_left g (map T l) a = fold_left (fun a x => g a (T x)) l a.
Proof. revert a. induction l as [|x l IH]; intros a; [reflexivity|apply IH]. Qed.

Lemma fold_left_ext_in {A B} (g g' : A -> B -> A) (l : list B) (a : A) :
  (forall a x, g a x = g' a x) -> fold_left g l a = fold_left g' l a.
Proof.
  intros H. revert a. induction l as [|x l IH]; intros a; [reflexivity|].
  simpl. now rewrite H, IH.
Qed.

Lemma Rect_transpose (x0 y0 x1 y1 : float) :
  geo.Rect y0 x0 y1 x1 = transposeRect (geo.Rect x0 y0 x1 y1).
Proof. unfold geo.Rect. destruct (gtb x0 x1), (gtb y0 y1); reflexivity. Qed.

Section Transposed.

Variable f : View.

Lemma mainSize_transpose (x y : float) : mainSize (transpose f) y x = mainSize f x y.
Proof. rewrite transpose_eq. unfold mainSize. simpl.
  now destruct (Direction f). Qed.

Lemma crossSize_transpose (x y : float) : crossSize (transpose f) y x = crossSize f x y.
Proof. rewrite transpose_eq. unfold crossSize. simpl.
  now destruct (Direction f). Qed.

Lemma view_transposeElement (e : element.t) :
  element.view (transposeElement e) = transpose (element.view e).
Proof. reflexivity. Qed.

Lemma mainMargin_transpose (c : child View) :
  mainMargin (transpose f) (transposeChild c) = mainMargin f c.
Proof. unfold mainMargin, transposeChild. simpl.
  rewrite !transpose_eq. simpl. now destruct (Direction f). Qed.

Lemma crossMargin_transpose (c : child View) :
  crossMargin (transpose f) (transposeChild c) = crossMargin f c.
Proof. unfold crossMargin, transposeChild. simpl.
  rewrite !transpose_eq. simpl. now destruct (Direction f). Qed.

Lemma flexBaseSize_transpose (c : child View) :
  flexBaseSize (transpose f) (transposeChild c) = flexBaseSize f c.
Proof. unfold flexBaseSize, mainSize, transposeChild. simpl.
  rewrite !transpose_eq. simpl. now destruct (Direction f). Qed.

Lemma itemMainSize_transpose (e : element.t) :
  itemMainSize (transpose f) (transposeElement e) = itemMainSize f e.
Proof. unfold itemMainSize, mainSize, width, height.
  rewrite view_transposeElement, !transpose_eq. simpl.
  now destruct (Direction f). Qed.


(** *** The scan *)

Lemma set_frame_transpose (r : geo.Rectangle) (v : View) :
  set_frame (transposeRect r) (transpose v) = transpose (set_frame r v).
Proof. rewrite !transpose_eq. reflexivity. Qed.

Lemma absoluteFrame_transpose (c : View) :
  absoluteFrame (transpose f) (transpose c) = transposeRect (absoluteFrame f c).
Proof.
  unfold absoluteFrame. rewrite !transpose_eq. simpl.
  rewrite <- Rect_transpose. reflexivity.
Qed.

Lemma placeAbsolute_transpose (c : child View) :
  placeAbsolute (transpose f) (transposeChild c)
  = transposeChild (placeAbsolute f c).
Proof.
  unfold placeAbsolute, transposeChild. simpl.
  rewrite absoluteFrame_transpose, set_frame_transpose. reflexivity.
Qed.

Lemma newElement_transpose (c : child View) :
  newElement (transpose f) (transposeChild c)
  = transposeElement (newElement f c).
Proof.
  unfold newElement, transposeElement. simpl.
  rewrite flexBaseSize_transpose. unfold transposeChild. simpl.
  rewrite !(transpose_eq (item c)). reflexivity.
Qed.

Lemma inFlow_transpose (c : child View) : inFlow (transposeChild c) = inFlow c.
Proof. unfold inFlow, transposeChild. simpl. now rewrite transpose_eq. Qed.

Lemma scanChild_transpose (c : child View) :
  scanChild (transpose f) (transposeChild c)
  = (transposeChild (fst (scanChild f c)),
     transposeElement <$> snd (scanChild f c)).
Proof.
  unfold scanChild.
  assert (D : Display (item (transposeChild c)) = Display (item c))
    by (unfold transposeChild; simpl; now rewrite transpose_eq).
  assert (P : Position (item (transposeChild c)) = Position (item c))
    by (unfold transposeChild; simpl; now rewrite transpose_eq).
  rewrite D, P. destruct (Display (item c)); [|reflexivity].
  destruct (Position (item c)); simpl.
  - f_equal. f_equal.
    exact (newElement_transpose (mkChild (item c) (bounds c) false)).
  - now rewrite placeAbsolute_transpose.
Qed.

Lemma scan_fst_transpose (cs : list (child View)) :
  map fst (map (scanChild (transpose f)) (map transposeChild cs))
  = map transposeChild (map fst (map (scanChild f) cs)).
Proof.
  rewrite !map_map. apply map_ext. intros c.
  now rewrite scanChild_transpose.
Qed.

Lemma scan_snd_transpose (cs : list (child View)) :
  omap snd (map (scanChild (transpose f)) (map transposeChild cs))
  = map transposeElement (omap snd (map (scanChild f) cs)).
Proof.
  induction cs as [|c cs IH]; [reflexivity|].
  simpl. rewrite scanChild_transpose. simpl.
  destruct (snd (scanChild f c)) as [e|]; simpl.
  - f_equal. exact IH.
  - exact IH.
Qed.

(** *** Percentages *)

Lemma map_view_transpose (g g' : View -> View) (e : element.t) :
  (forall v, g' (transpose v) = transpose (g v)) ->
  element.map_view g' (transposeElement e)
  = transposeElement (element.map_view g e).
Proof.
  intros H. unfold element.map_view, element.set_node, map_item,
    transposeElement, transposeChild. simpl. now rewrite H.
Qed.

Lemma set_calculatedHeight_transpose (x : float) (v : View) :
  set_calculatedHeight x (transpose v) = transpose (set_calculatedWidth x v).
Proof. rewrite !transpose_eq. reflexivity. Qed.

Lemma set_calculatedWidth_transpose (x : float) (v : View) :
  set_calculatedWidth x (transpose v) = transpose (set_calculatedHeight x v).
Proof. rewrite !transpose_eq. reflexivity. Qed.

Lemma colRemFree_transpose (x : float) (es : list element.t) :
  colRemFree x (map transposeElement es) = rowRemFree x es.
Proof.
  unfold colRemFree, rowRemFree. rewrite fold_left_map_in.
  apply fold_left_ext_in. intros a e.
  rewrite view_transposeElement, transpose_eq. reflexivity.
Qed.

Lemma rowRemFree_transpose (x : float) (es : list element.t) :
  rowRemFree x (map transposeElement es) = colRemFree x es.
Proof.
  unfold colRemFree, rowRemFree. rewrite fold_left_map_in.
  apply fold_left_ext_in. intros a e.
  rewrite view_transposeElement, transpose_eq. reflexivity.
Qed.

Lemma resolveMainHeight_transpose (x r : float) (e : element.t) :
  resolveMainHeight x r (transposeElement e)
  = transposeElement (resolveMainWidth x r e).
Proof.
  unfold resolveMainHeight, resolveMainWidth.
  change (element.heightInPct (transposeElement e)) with (element.widthInPct e).
  destruct (gtb (element.widthInPct e) 0); [|reflexivity].
  apply map_view_transpose. intros v. apply set_calculatedHeight_transpose.
Qed.

Lemma resolveMainWidth_transpose (x r : float) (e : element.t) :
  resolveMainWidth x r (transposeElement e)
  = transposeElement (resolveMainHeight x r e).
Proof.
  unfold resolveMainHeight, resolveMainWidth.
  change (element.widthInPct (transposeElement e)) with (element.heightInPct e).
  destruct (gtb (element.heightInPct e) 0); [|reflexivity].
  apply map_view_transpose. intros v. apply set_calculatedWidth_transpose.
Qed.

Lemma resolveCrossWidth_transpose (x : float) (e : element.t) :
  resolveCrossWidth x (transposeElement e)
  = transposeElement (resolveCrossHeight x e).
Proof.
  unfold resolveCrossWidth, resolveCrossHeight.
  change (element.widthInPct (transposeElement e)) with (element.heightInPct e).
  destruct (gtb (element.heightInPct e) 0); [|reflexivity].
  rewrite view_transposeElement, (transpose_eq (element.view e)).
  change (WidthInPct (mkView (transposeStyle ?s) _ _ _ _ _ _))
    with (HeightInPct s).
  apply map_view_transpose. intros v. apply set_calculatedWidth_transpose.
Qed.

Lemma resolveCrossHeight_transpose (x : float) (e : element.t) :
  resolveCrossHeight x (transposeElement e)
  = transposeElement (resolveCrossWidth x e).
Proof.
  unfold resolveCrossWidth, resolveCrossHeight.
  change (element.heightInPct (transposeElement e)) with (element.widthInPct e).
  destruct (gtb (element.widthInPct e) 0); [|reflexivity].
  rewrite view_transposeElement, (transpose_eq (element.view e)).
  change (HeightInPct (mkView (transposeStyle ?s) _ _ _ _ _ _))
    with (WidthInPct s).
  apply map_view_transpose. intros v. apply set_calculatedHeight_transpose.
Qed.

Lemma map_transposeElement (g g' : element.t -> element.t)
    (es : list element.t) :
  (forall e, g' (transposeElement e) = transposeElement (g e)) ->
  map g' (map transposeElement es) = map transposeElement (map g es).
Proof. intros H. rewrite !map_map. apply map_ext. exact H. Qed.

Lemma Direction_transpose : Direction (transpose f) = flipDirection (Direction f).
Proof. now rewrite transpose_eq. Qed.

Lemma resolvePercent_transpose (w h : float) (es : list element.t) :
  resolvePercent (transpose f) h w (map transposeElement es)
  = map transposeElement (resolvePercent f w h es).
Proof.
  unfold resolvePercent. rewrite Direction_transpose.
  destruct (Direction f); simpl.
  - rewrite colRemFree_transpose.
    destruct (gtb (rowRemFree w es) 0).
    + rewrite (map_transposeElement (resolveMainWidth w (rowRemFree w es)))
        by apply resolveMainHeight_transpose.
      apply map_transposeElement, resolveCrossWidth_transpose.
    + apply map_transposeElement, resolveCrossWidth_transpose.
  - rewrite rowRemFree_transpose.
    destruct (gtb (colRemFree h es) 0).
    + rewrite (map_transposeElement (resolveMainHeight h (colRemFree h es)))
        by apply resolveMainWidth_transpose.
      apply map_transposeElement, resolveCrossHeight_transpose.
    + apply map_transposeElement, resolveCrossHeight_transpose.
Qed.


(** *** Lines *)

Lemma withMainMargin_transpose (e : element.t) :
  withMainMargin (transpose f) (transposeElement e)
  = transposeElement (withMainMargin f e).
Proof.
  unfold withMainMargin, element.set_mainMargin.
  change (element.node (transposeElement e))
    with (transposeChild (element.node e)).
  rewrite mainMargin_transpose. reflexivity.
Qed.

Lemma child_transposeLine (l : flexLine.t) :
  flexLine.child (transposeLine l) = map transposeElement (flexLine.child l).
Proof. reflexivity. Qed.

Lemma singleLine_transpose (es : list element.t) :
  singleLine (transpose f) (map transposeElement es)
  = transposeLine (singleLine f es).
Proof.
  unfold singleLine, transposeLine, flexLine.map_child, flexLine.set_child.
  simpl.
  rewrite (map_transposeElement (withMainMargin f))
    by apply withMainMargin_transpose.
  f_equal. rewrite fold_left_map_in. reflexivity.
Qed.

Lemma wrapStep_transpose (cms : float) (st : list flexLine.t * flexLine.t)
    (e : element.t) :
  wrapStep (transpose f) cms
    (map transposeLine (fst st), transposeLine (snd st)) (transposeElement e)
  = (map transposeLine (fst (wrapStep f cms st e)),
     transposeLine (snd (wrapStep f cms st e))).
Proof.
  destruct st as [lines line]. unfold wrapStep. simpl.
  rewrite withMainMargin_transpose.
  change (startsNewLine cms (transposeLine line)
            (transposeElement (withMainMargin f e)))
    with (startsNewLine cms line (withMainMargin f e)).
  destruct (startsNewLine cms line (withMainMargin f e)); simpl.
  - rewrite map_app. reflexivity.
  - unfold transposeLine at 3. unfold flexLine.map_child, flexLine.set_child.
    simpl. rewrite map_app. reflexivity.
Qed.

Lemma wrapFold_transpose (cms : float) (es : list element.t)
    (st : list flexLine.t * flexLine.t) :
  fold_left (wrapStep (transpose f) cms) (map transposeElement es)
    (map transposeLine (fst st), transposeLine (snd st))
  = (map transposeLine (fst (fold_left (wrapStep f cms) es st)),
     transposeLine (snd (fold_left (wrapStep f cms) es st))).
Proof.
  revert st. induction es as [|e es IH]; intros st; [reflexivity|].
  change (fold_left (wrapStep (transpose f) cms) (map transposeElement es)
            (wrapStep (transpose f) cms
               (map transposeLine (fst st), transposeLine (snd st))
               (transposeElement e))
          = (map transposeLine
               (fst (fold_left (wrapStep f cms) es (wrapStep f cms st e))),
             transposeLine
               (snd (fold_left (wrapStep f cms) es (wrapStep f cms st e))))).
  rewrite wrapStep_transpose. apply IH.
Qed.

Lemma multiLine_transpose (cms : float) (es : list element.t) :
  multiLine (transpose f) cms (map transposeElement es)
  = map transposeLine (multiLine f cms es).
Proof.
  unfold multiLine.
  pose proof (wrapFold_transpose cms es ([], flexLine.zero)) as H.
  simpl in H. change (transposeLine flexLine.zero) with flexLine.zero in H.
  rewrite H. destruct (fold_left (wrapStep f cms) es _) as [lines line].
  simpl. rewrite !length_map.
  destruct ((0 <? length (flexLine.child line))%nat || (length es =? 0)%nat);
    [|reflexivity].
  rewrite map_app. reflexivity.
Qed.

Lemma Wrap_transpose : Wrap (transpose f) = Wrap f.
Proof. now rewrite transpose_eq. Qed.

Lemma collectLines_transpose (cms : float) (es : list element.t) :
  collectLines (transpose f) cms (map transposeElement es)
  = map transposeLine (collectLines f cms es).
Proof.
  unfold collectLines. rewrite Wrap_transpose.
  destruct (Wrap f); simpl;
    [now rewrite singleLine_transpose | apply multiLine_transpose ..].
Qed.

(** *** Flexible lengths *)

Lemma Grow_transposeElement (e : element.t) :
  Grow (element.view (transposeElement e)) = Grow (element.view e).
Proof. rewrite view_transposeElement, transpose_eq. reflexivity. Qed.

Lemma Shrink_transposeElement (e : element.t) :
  Shrink (element.view (transposeElement e)) = Shrink (element.view e).
Proof. rewrite view_transposeElement, transpose_eq. reflexivity. Qed.

Lemma freeze_transpose (grow : bool) (e : element.t) :
  freeze (transpose f) grow (transposeElement e)
  = transposeElement (freeze f grow e).
Proof.
  unfold freeze.
  rewrite itemMainSize_transpose, Grow_transposeElement,
    Shrink_transposeElement.
  destruct (_ =? 0); reflexivity.
Qed.

Lemma initialFreeSpace_transpose (w h : float) (es : list element.t) :
  initialFreeSpace (transpose f) h w (map transposeElement es)
  = initialFreeSpace f w h es.
Proof.
  unfold initialFreeSpace. rewrite mainSize_transpose, fold_left_map_in.
  apply fold_left_ext_in. intros a e.
  change (element.node (transposeElement e))
    with (transposeChild (element.node e)).
  now rewrite flexBaseSize_transpose.
Qed.

Lemma remainingFreeSpace_transpose (grow : bool) (w h : float)
    (es : list element.t) :
  remainingFreeSpace (transpose f) grow h w (map transposeElement es)
  = remainingFreeSpace f grow w h es.
Proof.
  unfold remainingFreeSpace. rewrite mainSize_transpose, fold_left_map_in.
  apply fold_left_ext_in. intros [r u] e.
  rewrite itemMainSize_transpose, Grow_transposeElement,
    Shrink_transposeElement.
  reflexivity.
Qed.

Lemma growChild_transpose (r u : float) (e : element.t) :
  growChild (transpose f) r u (transposeElement e)
  = transposeElement (growChild f r u e).
Proof.
  unfold growChild.
  rewrite itemMainSize_transpose, Grow_transposeElement.
  change (element.frozen (transposeElement e)) with (element.frozen e).
  destruct (element.frozen e); reflexivity.
Qed.

Lemma sumScaledShrinkFactor_transpose (es : list element.t) :
  sumScaledShrinkFactor (transpose f) (map transposeElement es)
  = sumScaledShrinkFactor f es.
Proof.
  unfold sumScaledShrinkFactor. rewrite fold_left_map_in.
  apply fold_left_ext_in. intros a e.
  rewrite itemMainSize_transpose, Shrink_transposeElement. reflexivity.
Qed.

Lemma shrinkChild_transpose (r u : float) (e : element.t) :
  shrinkChild (transpose f) r u (transposeElement e)
  = transposeElement (shrinkChild f r u e).
Proof.
  unfold shrinkChild.
  rewrite itemMainSize_transpose, Shrink_transposeElement.
  change (element.frozen (transposeElement e)) with (element.frozen e).
  destruct (element.frozen e); reflexivity.
Qed.

Lemma distribute_transpose (grow : bool) (w h fs : float)
    (es : list element.t) :
  distribute (transpose f) grow h w fs (map transposeElement es)
  = map transposeElement (distribute f grow w h fs es).
Proof.
  unfold distribute. rewrite remainingFreeSpace_transpose.
  destruct (remainingFreeSpace f grow w h es) as [r u].
  rewrite sumScaledShrinkFactor_transpose.
  destruct grow.
  - rewrite (map_transposeElement (growChild f (scaleFreeSpace fs r u) u))
      by apply growChild_transpose.
    now apply map_transposeElement.
  - rewrite (map_transposeElement
               (shrinkChild f (scaleFreeSpace fs r u)
                  (sumScaledShrinkFactor f es)))
      by apply shrinkChild_transpose.
    now apply map_transposeElement.
Qed.

Lemma forallb_frozen_transpose (es : list element.t) :
  forallb element.frozen (map transposeElement es)
  = forallb element.frozen es.
Proof. induction es as [|e es IH]; [reflexivity|]. simpl. now rewrite IH. Qed.

Lemma flexLoop_transpose (grow : bool) (w h fs : float)
    (es : list element.t) :
  flexLoop (transpose f) grow h w fs (map transposeElement es)
  = map transposeElement (flexLoop f grow w h fs es).
Proof.
  unfold flexLoop. rewrite forallb_frozen_transpose.
  destruct (forallb element.frozen es); [reflexivity|].
  apply distribute_transpose.
Qed.

Lemma resolveFlexibleLengths_transpose (w h : float) (line : flexLine.t) :
  resolveFlexibleLengths (transpose f) h w (transposeLine line)
  = transposeLine (resolveFlexibleLengths f w h line).
Proof.
  unfold resolveFlexibleLengths. rewrite mainSize_transpose.
  change (flexLine.mainSize (transposeLine line)) with (flexLine.mainSize line).
  rewrite child_transposeLine.
  set (grow := flexLine.mainSize line <? mainSize f w h).
  rewrite (map_transposeElement (freeze f grow)) by apply freeze_transpose.
  rewrite initialFreeSpace_transpose, flexLoop_transpose. reflexivity.
Qed.


(** *** Cross sizes *)

Lemma map_transposeLine (g g' : flexLine.t -> flexLine.t)
    (ls : list flexLine.t) :
  (forall l, g' (transposeLine l) = transposeLine (g l)) ->
  map g' (map transposeLine ls) = map transposeLine (map g ls).
Proof. intros H. rewrite !map_map. apply map_ext. exact H. Qed.

Lemma map_child_transpose (g g' : element.t -> element.t) (l : flexLine.t) :
  (forall e, g' (transposeElement e) = transposeElement (g e)) ->
  flexLine.map_child g' (transposeLine l)
  = transposeLine (flexLine.map_child g l).
Proof.
  intros H. unfold transposeLine, flexLine.map_child, flexLine.set_child.
  simpl. f_equal. now apply map_transposeElement.
Qed.

Lemma isCrossSizeFixed_transpose (v : View) :
  isCrossSizeFixed (transpose f) (transpose v) = isCrossSizeFixed f v.
Proof.
  unfold isCrossSizeFixed, isHeightFixed, isWidthFixed.
  rewrite !transpose_eq. simpl. now destruct (Direction f).
Qed.

Lemma hypotheticalCross_transpose (e : element.t) :
  hypotheticalCross (transpose f) (transposeElement e)
  = transposeElement (hypotheticalCross f e).
Proof.
  unfold hypotheticalCross, element.set_crossSize, element.set_crossMargin.
  change (element.node (transposeElement e))
    with (transposeChild (element.node e)).
  rewrite crossMargin_transpose.
  assert (E : crossSize (transpose f)
                (width (element.view (transposeElement e)))
                (height (element.view (transposeElement e)))
              = crossSize f (width (element.view e)) (height (element.view e))).
  { unfold crossSize, width, height.
    rewrite view_transposeElement, !transpose_eq. simpl.
    now destruct (Direction f). }
  rewrite E. reflexivity.
Qed.

Lemma lineCrossMax_transpose (es : list element.t) :
  lineCrossMax (map transposeElement es) = lineCrossMax es.
Proof. unfold lineCrossMax. now rewrite fold_left_map_in. Qed.

Lemma lineCrossSizes_transpose (ccs : float) (ls : list flexLine.t) :
  lineCrossSizes ccs (map transposeLine ls)
  = map transposeLine (lineCrossSizes ccs ls).
Proof.
  unfold lineCrossSizes. destruct ls as [|l [|l' ls]]; try reflexivity.
  rewrite !map_map. apply map_ext. intros l0.
  rewrite child_transposeLine, lineCrossMax_transpose. reflexivity.
Qed.

Lemma stackLines_transpose (off : float) (ls : list flexLine.t) :
  stackLines off (map transposeLine ls)
  = (map transposeLine (fst (stackLines off ls)), snd (stackLines off ls)).
Proof.
  revert off. induction ls as [|l ls IH]; intros off; [reflexivity|].
  simpl. change (flexLine.crossSize (transposeLine l))
    with (flexLine.crossSize l).
  rewrite IH. destruct (stackLines (off + flexLine.crossSize l) ls).
  reflexivity.
Qed.

Lemma AlignContent_transpose : AlignContent (transpose f) = AlignContent f.
Proof. now rewrite transpose_eq. Qed.

Lemma AlignItems_transpose : AlignItems (transpose f) = AlignItems f.
Proof. now rewrite transpose_eq. Qed.

Lemma Justify_transpose : Justify (transpose f) = Justify f.
Proof. now rewrite transpose_eq. Qed.

Lemma imap_transposeLine (g : nat -> flexLine.t -> flexLine.t)
    (ls : list flexLine.t) :
  (forall i l, g i (transposeLine l) = transposeLine (g i l)) ->
  imap g (map transposeLine ls) = map transposeLine (imap g ls).
Proof.
  intros H. revert g H. induction ls as [|l ls IH]; intros g H; [reflexivity|].
  simpl. rewrite H. f_equal. apply IH. intros i l0. apply H.
Qed.

Lemma alignContentStretch_transpose (ccs off : float) (ls : list flexLine.t) :
  alignContentStretch (transpose f) ccs off (map transposeLine ls)
  = map transposeLine (alignContentStretch f ccs off ls).
Proof.
  unfold alignContentStretch. rewrite AlignContent_transpose, length_map.
  destruct (AlignContent f); try reflexivity.
  destruct (gtb (ccs - off) 0); [|reflexivity].
  apply imap_transposeLine. reflexivity.
Qed.

Lemma stretchItem_transpose (line : flexLine.t) (e : element.t) :
  stretchItem (transpose f) (transposeLine line) (transposeElement e)
  = transposeElement (stretchItem f line e).
Proof.
  unfold stretchItem. rewrite AlignItems_transpose.
  destruct (AlignItems f); try reflexivity.
  rewrite view_transposeElement, isCrossSizeFixed_transpose.
  change (element.crossSize (transposeElement e)) with (element.crossSize e).
  change (flexLine.crossSize (transposeLine line))
    with (flexLine.crossSize line).
  destruct (_ && _); reflexivity.
Qed.

Lemma stretchItems_transpose (line : flexLine.t) :
  stretchItems (transpose f) (transposeLine line)
  = transposeLine (stretchItems f line).
Proof.
  unfold stretchItems. apply map_child_transpose.
  intros e. apply stretchItem_transpose.
Qed.

(** *** Alignment *)

Lemma lineTotal_transpose (es : list element.t) :
  lineTotal (map transposeElement es) = lineTotal es.
Proof. unfold lineTotal. now rewrite fold_left_map_in. Qed.

Lemma placeMain_transpose (off spacing : float) (es : list element.t) :
  placeMain off spacing (map transposeElement es)
  = map transposeElement (placeMain off spacing es).
Proof.
  revert off. induction es as [|e es IH]; intros off; [reflexivity|].
  simpl. rewrite IH. reflexivity.
Qed.

Lemma alignMain_transpose (cms : float) (line : flexLine.t) :
  alignMain (transpose f) cms (transposeLine line)
  = transposeLine (alignMain f cms line).
Proof.
  unfold alignMain. rewrite Justify_transpose, child_transposeLine,
    lineTotal_transpose, length_map.
  destruct (justify _ _ _) as [off spacing].
  rewrite placeMain_transpose. reflexivity.
Qed.

Lemma alignCrossChild_transpose (line : flexLine.t) (e : element.t) :
  alignCrossChild (transpose f) (transposeLine line) (transposeElement e)
  = transposeElement (alignCrossChild f line e).
Proof.
  unfold alignCrossChild. rewrite AlignItems_transpose. simpl.
  destruct (element.crossSize e =? flexLine.crossSize line); [reflexivity|].
  destruct (AlignItems f); reflexivity.
Qed.

Lemma alignCross_transpose (line : flexLine.t) :
  alignCross (transpose f) (transposeLine line)
  = transposeLine (alignCross f line).
Proof.
  unfold alignCross. apply map_child_transpose.
  intros e. apply alignCrossChild_transpose.
Qed.

Lemma shiftLines_transpose (off spacing : float) (ls : list flexLine.t) :
  shiftLines off spacing (map transposeLine ls)
  = map transposeLine (shiftLines off spacing ls).
Proof.
  revert off. induction ls as [|l ls IH]; intros off; [reflexivity|].
  simpl. rewrite IH. f_equal.
  unfold transposeLine, flexLine.map_child, flexLine.set_child. simpl.
  f_equal. rewrite !map_map. reflexivity.
Qed.

Lemma lastLine_transpose (ls : list flexLine.t) :
  lastLine (map transposeLine ls) = transposeLine (lastLine ls).
Proof.
  unfold lastLine. induction ls as [|l [|l' ls] IH]; try reflexivity.
  exact IH.
Qed.

Lemma alignLines_transpose (ccs : float) (ls : list flexLine.t) :
  alignLines (transpose f) ccs (map transposeLine ls)
  = map transposeLine (alignLines f ccs ls).
Proof.
  unfold alignLines. rewrite AlignContent_transpose, lastLine_transpose,
    length_map.
  change (flexLine.crossOffset (transposeLine (lastLine ls)))
    with (flexLine.crossOffset (lastLine ls)).
  change (flexLine.crossSize (transposeLine (lastLine ls)))
    with (flexLine.crossSize (lastLine ls)).
  destruct (gtb _ 0); [|reflexivity].
  destruct (alignContentSpacing _ _ _) as [spacing off].
  destruct (AlignContent f); try reflexivity; apply shiftLines_transpose.
Qed.

(** *** The lines at the commit loop *)

Lemma layoutLines_transpose (w h : float) (es : list element.t) :
  layoutLines (transpose f) h w (map transposeElement es)
  = map transposeLine (layoutLines f w h es).
Proof.
  unfold layoutLines.
  rewrite mainSize_transpose, crossSize_transpose.
  rewrite resolvePercent_transpose, collectLines_transpose.
  rewrite (map_transposeLine (resolveFlexibleLengths f w h))
    by apply resolveFlexibleLengths_transpose.
  rewrite (map_transposeLine (flexLine.map_child (hypotheticalCross f)))
    by (intros l; apply map_child_transpose, hypotheticalCross_transpose).
  rewrite lineCrossSizes_transpose, stackLines_transpose.
  destruct (stackLines 0 _) as [lines off]. simpl.
  rewrite alignContentStretch_transpose.
  rewrite (map_transposeLine (stretchItems f))
    by apply stretchItems_transpose.
  rewrite (map_transposeLine (alignMain f (mainSize f w h)))
    by apply alignMain_transpose.
  rewrite (map_transposeLine (alignCross f)) by apply alignCross_transpose.
  apply alignLines_transpose.
Qed.

(** *** Intrinsic sizes and the commit *)

Lemma flexFraction_transpose (e : element.t) :
  flexFraction (transposeElement e) = transposeElement (flexFraction e).
Proof.
  unfold flexFraction.
  rewrite Grow_transposeElement, Shrink_transposeElement. reflexivity.
Qed.

Lemma lineFlexFraction_transpose (es : list element.t) :
  lineFlexFraction (map transposeElement es) = lineFlexFraction es.
Proof. unfold lineFlexFraction. now rewrite fold_left_map_in. Qed.

Lemma lineMaxMainSize_transpose (m : float) (es : list element.t) :
  lineMaxMainSize m (map transposeElement es) = lineMaxMainSize m es.
Proof.
  unfold lineMaxMainSize. rewrite fold_left_map_in.
  apply fold_left_ext_in. intros a e.
  rewrite Grow_transposeElement, Shrink_transposeElement. reflexivity.
Qed.

Lemma intrinsicMain_transpose (ls : list flexLine.t) :
  intrinsicMain (map transposeLine ls)
  = (map transposeLine (fst (intrinsicMain ls)), snd (intrinsicMain ls)).
Proof.
  unfold intrinsicMain. simpl.
  rewrite (map_transposeLine (flexLine.map_child flexFraction))
    by (intros l; apply map_child_transpose; intros e;
        apply flexFraction_transpose).
  f_equal. rewrite fold_left_map_in. apply fold_left_ext_in. intros a l.
  rewrite child_transposeLine, lineFlexFraction_transpose,
    lineMaxMainSize_transpose.
  reflexivity.
Qed.

Lemma crossExtent_transpose (es : list element.t) :
  crossExtent (map transposeElement es) = crossExtent es.
Proof.
  unfold crossExtent. rewrite fold_left_map_in.
  apply fold_left_ext_in. intros [mn mx] e. reflexivity.
Qed.

Lemma intrinsicCross_transpose (ls : list flexLine.t) :
  intrinsicCross (map transposeLine ls) = intrinsicCross ls.
Proof.
  unfold intrinsicCross. rewrite fold_left_map_in.
  apply fold_left_ext_in. intros a l.
  rewrite child_transposeLine, crossExtent_transpose. reflexivity.
Qed.

Lemma Add_transpose (r : geo.Rectangle) (p : geo.Point) :
  geo.Add (transposeRect r) (transposePoint p) = transposeRect (geo.Add r p).
Proof. reflexivity. Qed.

Lemma setFrame_transpose (r : geo.Rectangle) (v : View) :
  setFrame (transposeRect r) (transpose v) = transpose (setFrame r v).
Proof. unfold setFrame. rewrite !transpose_eq. reflexivity. Qed.

Lemma commitChild_transpose (e : element.t) :
  commitChild (transpose f) (transposeElement e)
  = transposeElement (commitChild f e).
Proof.
  unfold commitChild. rewrite Direction_transpose.
  assert (Fr : geo.Min (frame (transpose f))
               = transposePoint (geo.Min (frame f)))
    by now rewrite transpose_eq.
  rewrite Fr.
  destruct (Direction f); simpl; rewrite Rect_transpose, Add_transpose;
    unfold element.set_node, transposeElement, transposeChild; simpl;
    rewrite setFrame_transpose; reflexivity.
Qed.

Lemma writeBack_transpose (cs nodes : list (child View)) :
  writeBack (map transposeChild cs) (map transposeChild nodes)
  = map transposeChild (writeBack cs nodes).
Proof.
  revert nodes. induction cs as [|c cs IH]; intros nodes; [reflexivity|].
  simpl. rewrite inFlow_transpose. destruct (inFlow c).
  - destruct nodes as [|n ns]; simpl.
    + f_equal. exact (IH []).
    + f_equal. apply IH.
  - simpl. f_equal. apply IH.
Qed.

Lemma concat_child_transpose (ls : list flexLine.t) :
  concat (map flexLine.child (map transposeLine ls))
  = map transposeElement (concat (map flexLine.child ls)).
Proof.
  induction ls as [|l ls IH]; [reflexivity|].
  simpl. rewrite map_app, IH. reflexivity.
Qed.

Lemma setSizes_transpose (x y : float) (cs : list (child View)) :
  set_children (map transposeChild cs)
    (setCrossSize x (setMainSize y (transpose f)))
  = transpose (set_children cs (setCrossSize x (setMainSize y f))).
Proof.
  rewrite (transpose_eq f). unfold setCrossSize, setMainSize.
  destruct f as [s cs0 d fr cw ch hp].
  destruct s as [? ? ? ? ? ? ? ? ? ? ? ? ? dir ? ? ? ? ? ? ? ?].
  destruct dir; reflexivity.
Qed.

End Transposed.

Lemma children_transpose (v : View) :
  children (transpose v) = map transposeChild (children v).
Proof. now rewrite transpose_eq. Qed.

(** A pass over the transposed container, given the height for the
    width and the width for the height, is the transposed pass. *)
Lemma layout_transpose (f : View) (w h : float) :
  layout (transpose f) h w = transpose (layout f w h).
Proof.
  unfold layout. cbv zeta.
  rewrite (children_transpose f).
  rewrite scan_fst_transpose, scan_snd_transpose, layoutLines_transpose,
    intrinsicMain_transpose.
  destruct (intrinsicMain (layoutLines f w h _)) as [lines ims]. simpl.
  rewrite intrinsicCross_transpose.
  rewrite (map_transposeLine (flexLine.map_child (commitChild f)))
    by (intros l; apply map_child_transpose, commitChild_transpose).
  rewrite concat_child_transpose.
  change (map element.node (map transposeElement ?es))
    with (map element.node (map transposeElement es)).
  rewrite (map_map transposeElement element.node).
  change (fun x => element.node (transposeElement x))
    with (fun x => transposeChild (element.node x)).
  rewrite <- (map_map element.node transposeChild).
  rewrite writeBack_transpose. apply setSizes_transpose.
Qed.

Lemma transposeRect_involutive (r : geo.Rectangle) :
  transposeRect (transposeRect r) = r.
Proof. destruct r as [[] []]. reflexivity. Qed.

(** Transposing twice gives the tree back. *)
Lemma transpose_involutive (v : View) : transpose (transpose v) = v.
Proof.
  induction v as [v IH] using View_nested_ind.
  rewrite (transpose_eq v), transpose_eq. simpl.
  destruct v as [s cs d fr cw ch hp]. simpl in *.
  rewrite transposeRect_involutive. f_equal.
  - destruct s as [? ? ? ? ? ? ? ? ? ? ? ? ? dir ? ? ? ? ? ? ? ?].
    destruct dir; reflexivity.
  - rewrite map_map. rewrite <- (map_id cs) at 2. apply map_ext_Forall.
    eapply Forall_impl; [exact IH|]. intros c Hc. simpl in Hc.
    unfold transposeChild. simpl. rewrite Hc, transposeRect_involutive.
    now destruct c.
Qed.

Lemma Position_transpose (v : View) : Position (transpose v) = Position v.
Proof. now rewrite transpose_eq. Qed.

Lemma beforeLayout_transpose (v : View) :
  Forall (fun c : child View =>
            startLayout (transpose (item c)) = transpose (startLayout (item c)))
         (children v) ->
  beforeLayout (transpose v) = transpose (beforeLayout v).
Proof.
  intros IH. unfold beforeLayout.
  rewrite (transpose_eq (set_children _ _)).
  rewrite children_transpose, (transpose_eq v).
  unfold set_children, set_frame. simpl.
  f_equal.
  - rewrite !map_map. apply map_ext_Forall.
    eapply Forall_impl; [exact IH|]. intros c Hc. simpl in Hc |- *.
    change (item (transposeChild c)) with (transpose (item c)).
    rewrite Position_transpose.
    destruct (Position (item c)); [|reflexivity].
    unfold map_item, transposeChild. simpl. rewrite Hc. reflexivity.
  - destruct (negb (hasParent v)); [|reflexivity].
    apply Rect_transpose.
Qed.

Lemma startLayout_transpose (v : View) :
  startLayout (transpose v) = transpose (startLayout v).
Proof.
  induction v as [v IH] using View_nested_ind.
  rewrite !startLayout_before, (beforeLayout_transpose v IH).
  set (b := beforeLayout v).
  assert (Fx : geo.Dx (frame (transpose b)) = geo.Dy (frame b))
    by now rewrite transpose_eq.
  assert (Fy : geo.Dy (frame (transpose b)) = geo.Dx (frame b))
    by now rewrite transpose_eq.
  rewrite Fx, Fy, layout_transpose.
  rewrite !(transpose_eq (layout b _ _)), (transpose_eq (set_isDirty _ _)).
  reflexivity.
Qed.

Lemma mapM_Update_transpose (n : nat) (cs : list (child View)) :
  (forall v, Update n (transpose v) = transpose <$> Update n v) ->
  mapM (fun c : child View =>
          it ← Update n (item c); Some (mkChild it (bounds c) (absolute c)))
       (map transposeChild cs)
  = map transposeChild
      <$> mapM (fun c : child View =>
                  it ← Update n (item c);
                  Some (mkChild it (bounds c) (absolute c)))
               cs.
Proof.
  intros IH. induction cs as [|c cs IHcs]; [reflexivity|].
  simpl. rewrite IH.
  destruct (Update n (item c)) as [it|]; [|reflexivity]. simpl.
  rewrite IHcs. destruct (mapM _ cs) as [cs'|]; reflexivity.
Qed.

(** Rows and columns are laid out alike: a tick over the transposed
    tree gives the transposed result of the tick over the tree.  So
    whatever holds of the frames of a row holds, with the coordinates
    exchanged, of the column with the exchanged attributes. *)
Theorem Update_transpose (n : nat) (v : View) :
  Update n (transpose v) = transpose <$> Update n v.
Proof.
  revert v. induction n as [|n IH]; intros v; [reflexivity|].
  change (Update (S n) ?x)
    with (cs ← mapM (fun c : child View =>
                       it ← Update n (item c);
                       Some (mkChild it (bounds c) (absolute c)))
                    (children (if isDirty x then startLayout x else x));
          Some (set_children cs (if isDirty x then startLayout x else x))).
  assert (D : isDirty (transpose v) = isDirty v) by now rewrite transpose_eq.
  rewrite D.
  assert (E : (if isDirty v then startLayout (transpose v) else transpose v)
              = transpose (if isDirty v then startLayout v else v))
    by (destruct (isDirty v); [apply startLayout_transpose | reflexivity]).
  rewrite E. set (v0 := if isDirty v then startLayout v else v).
  rewrite children_transpose, (mapM_Update_transpose n _ IH).
  destruct (mapM _ (children v0)) as [cs|]; [|reflexivity].
  simpl. f_equal. rewrite !transpose_eq. reflexivity.
Qed.
